(** * Link rewriting bot ([bot.py]): a shallow embedding and its properties

    The development follows the layout of [bot.py]: the static routing
    tables, host classification, the Instagram share resolver, the generic
    rewrite, the text helpers, metadata extraction and the repost formatter.
    Python's [str] is a sequence of Unicode code points, so a string is a
    list of code points here; [len] is the length of that list. *)

From Stdlib Require Import ZArith NArith List Lia Ascii String Bool.
From stdpp Require Import base option list gmap.

Set Default Goal Selector "!".
Open Scope N_scope.
Open Scope list_scope.

(** ** Python strings *)

Abbreviation char := N (only parsing).
Abbreviation str := (list N).

Definition chr (a : ascii) : char := N_of_ascii a.
Definition U (s : string) : str := map N_of_ascii (list_ascii_of_string s).
Arguments chr : simpl never.
Arguments U : simpl never.

(** [bool(s)] of a string, and of an optional string ([None] is falsy). *)
Definition truthy (s : str) : bool :=
  match s with [] => false | _ :: _ => true end.
Definition truthy_opt (o : option str) : bool :=
  match o with Some s => truthy s | None => false end.

Definition str_eqb (a b : str) : bool := bool_decide (a = b).

(** [c in s] for a one-character [c]. *)
Definition contains (c : char) (s : str) : bool := existsb (N.eqb c) s.

Fixpoint startswith (pre s : str) : bool :=
  match pre, s with
  | [], _ => true
  | _ :: _, [] => false
  | a :: pre', b :: s' => (a =? b) && startswith pre' s'
  end.

Definition endswith (suf s : str) : bool := startswith (rev suf) (rev s).

(** [s.find(c)]: index of the first occurrence, [None] for Python's [-1]. *)
Fixpoint find (c : char) (s : str) : option nat :=
  match s with
  | [] => None
  | x :: t => if x =? c then Some 0%nat else S <$> find c t
  end.

(** [s.find(c, start)] for [0 <= start]. *)
Definition find_from (c : char) (start : nat) (s : str) : option nat :=
  (fun i => (start + i)%nat) <$> find c (drop start s).

(** [s.rfind(c)]. *)
Fixpoint rfind (c : char) (s : str) : option nat :=
  match s with
  | [] => None
  | x :: t =>
      match rfind c t with
      | Some i => Some (S i)
      | None => if x =? c then Some 0%nat else None
      end
  end.

(** [s.partition(c)]: text before the first [c], whether [c] was found,
    text after it; [(s, "", "")] when absent. *)
Fixpoint partition (c : char) (s : str) : str * bool * str :=
  match s with
  | [] => ([], false, [])
  | x :: t =>
      if x =? c then ([], true, t)
      else let '(b, f, a) := partition c t in (x :: b, f, a)
  end.

(** [s.rpartition(c)]: split at the last [c]; [("", "", s)] when absent. *)
Definition rpartition (c : char) (s : str) : str * bool * str :=
  let '(a, f, b) := partition c (rev s) in
  if f then (rev b, true, rev a) else ([], false, s).

(** The longest prefix whose characters all satisfy [f]. *)
Fixpoint take_while (f : char -> bool) (s : str) : str :=
  match s with
  | [] => []
  | x :: t => if f x then x :: take_while f t else []
  end.

(** [s.lstrip(chars)]. *)
Fixpoint lstrip (chars : str) (s : str) : str :=
  match s with
  | [] => []
  | x :: t => if contains x chars then lstrip chars t else s
  end.

(** [s.replace(c, "")]. *)
Definition remove_char (c : char) (s : str) : str :=
  filter (fun x => x ≠ c) s.

(** [sep.join(parts)]. *)
Fixpoint join (sep : str) (parts : list str) : str :=
  match parts with
  | [] => []
  | [p] => p
  | p :: rest => p ++ sep ++ join sep rest
  end.

(** [s[:k]] for any integer [k]; a negative [k] counts from the end. *)
Definition slice_to (s : str) (k : Z) : str :=
  if (k <? 0)%Z then take (Z.to_nat (Z.of_nat (length s) + k)) s
  else take (Z.to_nat k) s.

(** *** Character classes *)

Definition isascii_c (c : char) : bool := c <? 128.
Definition isascii (s : str) : bool := forallb isascii_c s.

Definition is_upper_c (c : char) : bool := (65 <=? c) && (c <=? 90).
Definition is_lower_c (c : char) : bool := (97 <=? c) && (c <=? 122).
Definition is_digit_c (c : char) : bool := (48 <=? c) && (c <=? 57).
Definition isalpha_ascii_c (c : char) : bool := is_upper_c c || is_lower_c c.

Definition lower_ascii_c (c : char) : char :=
  if is_upper_c c then c + 32 else c.

(** [str.isspace] for one code point: the Unicode white-space set that
    [str.split()], [str.strip()] and the pattern [\s] share. *)
Definition isspace_c (c : char) : bool :=
  ((9 <=? c) && (c <=? 13)) || ((28 <=? c) && (c <=? 32))
  || (c =? 133) || (c =? 160) || (c =? 5760)
  || ((8192 <=? c) && (c <=? 8202))
  || (c =? 8232) || (c =? 8233) || (c =? 8239) || (c =? 8287) || (c =? 12288).

(** ** The parts of Python's runtime that are not modelled in full

    Three library behaviours depend on Unicode tables or on the [ipaddress]
    module.  They are parameters of the development: every property below
    holds whatever they do. *)
Class PyLib := {
  (** [str.lower] on a string that is not pure ASCII *)
  unicode_lower : str -> str;
  (** [unicodedata.normalize('NFKC', s)] *)
  nfkc : str -> str;
  (** [ipaddress.ip_address(h)] accepts [h] and it is not an IPv4 address *)
  ipv6_ok : str -> bool
}.

(** An instance on which everything computes: code points outside ASCII
    have no case, NFKC changes nothing, no bracketed IP literal is valid. *)
Definition ascii_lib : PyLib :=
  {| unicode_lower := map lower_ascii_c;
     nfkc := fun s => s;
     ipv6_ok := fun _ => false |}.

(** Exceptions and fallible results. *)
Inductive exn := ValueError | TypeError | TimeoutError | ClientError.

Inductive result (A : Type) :=
  | Ok (a : A)
  | Raise (e : exn).
Arguments Ok {A} a.
Arguments Raise {A} e.

Section Urllib.
Context `{PyLib}.

(** [s.lower()]. *)
Definition lower (s : str) : str :=
  if isascii s then map lower_ascii_c s else unicode_lower s.

(** ** [urllib.parse] (CPython 3.11) *)

Definition uses_netloc : list str :=
  [U ""; U "ftp"; U "http"; U "gopher"; U "nntp"; U "telnet"; U "imap";
   U "wais"; U "file"; U "mms"; U "https"; U "shttp"; U "snews";
   U "prospero"; U "rtsp"; U "rtspu"; U "rsync"; U "svn"; U "svn+ssh";
   U "sftp"; U "nfs"; U "git"; U "git+ssh"; U "ws"; U "wss"].

Definition uses_params : list str :=
  [U ""; U "ftp"; U "hdl"; U "prospero"; U "http"; U "imap"; U "https";
   U "shttp"; U "rtsp"; U "rtspu"; U "sip"; U "sips"; U "mms"; U "sftp";
   U "tel"].

Definition str_in (s : str) (l : list str) : bool := existsb (str_eqb s) l.

Definition scheme_char (c : char) : bool :=
  is_lower_c c || is_upper_c c || is_digit_c c
  || (c =? chr "+") || (c =? chr "-") || (c =? chr ".").

(** [_WHATWG_C0_CONTROL_OR_SPACE]: code points 0 to 32. *)
Definition _WHATWG_C0_CONTROL_OR_SPACE : str :=
  map N.of_nat (seq 0 33).

Definition _UNSAFE_URL_BYTES_TO_REMOVE : list char := [9; 13; 10].

Record SplitResult := {
  sr_scheme : str; sr_netloc : str; sr_path : str;
  sr_query : str; sr_fragment : str
}.

Record ParseResult := {
  scheme : str; netloc : str; path : str;
  params : str; query : str; fragment : str
}.

(** [p._replace(netloc=m)]. *)
Definition replace_netloc (p : ParseResult) (m : str) : ParseResult :=
  {| scheme := scheme p; netloc := m; path := path p;
     params := params p; query := query p; fragment := fragment p |}.

Definition _splitnetloc (url : str) (start : nat) : str * str :=
  let delim :=
    fold_left
      (fun delim c =>
         match find_from c start url with
         | Some wdelim => Nat.min delim wdelim
         | None => delim
         end)
      (U "/?#") (length url) in
  (take (delim - start) (drop start url), drop delim url).

Definition _splitparams (url : str) : str * str :=
  if contains (chr "/") url then
    match rfind (chr "/") url with
    | Some r =>
        match find_from (chr ";") r url with
        | Some i => (take i url, drop (i + 1) url)
        | None => (url, [])
        end
    | None => (url, [])
    end
  else
    match find (chr ";") url with
    | Some i => (take i url, drop (i + 1) url)
    | None => (take (length url - 1) url, url)
    end.

Definition is_hex_c (c : char) : bool :=
  is_digit_c c || ((97 <=? c) && (c <=? 102)) || ((65 <=? c) && (c <=? 70)).

(** [re.match(r"\Av[a-fA-F0-9]+\..+\Z", hostname)], for a [hostname] that
    starts with [v]. *)
Definition ipvfuture_ok (hostname : str) : bool :=
  match hostname with
  | _ :: rest =>
      let hex := take_while is_hex_c rest in
      match drop (length hex) rest with
      | dot :: tail =>
          truthy hex && (dot =? chr ".") && truthy tail
          && negb (contains 10 tail)
      | [] => false
      end
  | [] => false
  end.

Definition _check_bracketed_host (hostname : str) : result unit :=
  if startswith (U "v") hostname then
    if ipvfuture_ok hostname then Ok tt else Raise ValueError
  else
    if ipv6_ok hostname then Ok tt else Raise ValueError.

Definition _check_bracketed_netloc (netloc : str) : result unit :=
  let hostname_and_port := (rpartition (chr "@") netloc).2 in
  let '(before_bracket, have_open_br, bracketed) :=
    partition (chr "[") hostname_and_port in
  if have_open_br then
    if truthy before_bracket then Raise ValueError
    else
      let '(hostname, _, port) := partition (chr "]") bracketed in
      if truthy port && negb (startswith (U ":") port) then Raise ValueError
      else _check_bracketed_host hostname
  else
    let '(hostname, _, port) := partition (chr ":") hostname_and_port in
    _check_bracketed_host hostname.

Definition _checknetloc (netloc : str) : result unit :=
  if negb (truthy netloc) || isascii netloc then Ok tt
  else
    let n := remove_char (chr "@") netloc in
    let n := remove_char (chr ":") n in
    let n := remove_char (chr "#") n in
    let n := remove_char (chr "?") n in
    let netloc2 := nfkc n in
    if str_eqb n netloc2 then Ok tt
    else if existsb (fun c => contains c netloc2) (U "/?#@:")
         then Raise ValueError else Ok tt.

(** [urlsplit], step by step.  First the leading control characters and
    spaces are stripped and tabs and line breaks removed. *)
Definition _clean_url (url : str) : str :=
  let url := lstrip _WHATWG_C0_CONTROL_OR_SPACE url in
  fold_left (fun u b => remove_char b u) _UNSAFE_URL_BYTES_TO_REMOVE url.

(** The scheme, when the text before the first colon is one. *)
Definition _split_scheme (url : str) : str * str :=
  match find (chr ":") url, url with
  | Some (S i'), c0 :: _ =>
      let i := S i' in
      if isascii_c c0 && isalpha_ascii_c c0
         && forallb scheme_char (take i url)
      then (lower (take i url), drop (i + 1) url)
      else ([], url)
  | _, _ => ([], url)
  end.

(** The network location after [//], with the checks on brackets. *)
Definition _split_authority (url : str) : result (str * str) :=
  if str_eqb (take 2 url) (U "//") then
    let '(netloc, url) := _splitnetloc url 2 in
    let has_open := contains (chr "[") netloc in
    let has_close := contains (chr "]") netloc in
    if (has_open && negb has_close) || (has_close && negb has_open)
    then Raise ValueError
    else if has_open && has_close then
      match _check_bracketed_netloc netloc with
      | Ok _ => Ok (netloc, url)
      | Raise e => Raise e
      end
    else Ok (netloc, url)
  else Ok ([], url).

(** [url, rest = url.split(c, 1)] when [c in url]. *)
Definition _split_at (c : char) (url : str) : str * str :=
  if contains c url then
    let '(u, _, f) := partition c url in (u, f)
  else (url, []).

Definition urlsplit (url : str) : result SplitResult :=
  let url := _clean_url url in
  let '(scheme, url) := _split_scheme url in
  match _split_authority url with
  | Raise e => Raise e
  | Ok (netloc, url) =>
      let '(url, fragment) := _split_at (chr "#") url in
      let '(url, query) := _split_at (chr "?") url in
      match _checknetloc netloc with
      | Raise e => Raise e
      | Ok _ =>
          Ok {| sr_scheme := scheme; sr_netloc := netloc; sr_path := url;
                sr_query := query; sr_fragment := fragment |}
      end
  end.

(** The second half of [urlparse]: the path of the split result gives the
    path and the parameters. *)
Definition split_params_of (sch url : str) : str * str :=
  if str_in sch uses_params && contains (chr ";") url
  then _splitparams url else (url, []).

Definition urlparse (url : str) : result ParseResult :=
  match urlsplit url with
  | Raise e => Raise e
  | Ok sp =>
      let '(url, params) := split_params_of (sr_scheme sp) (sr_path sp) in
      Ok {| scheme := sr_scheme sp; netloc := sr_netloc sp; path := url;
            params := params; query := sr_query sp;
            fragment := sr_fragment sp |}
  end.

Definition urlunsplit (sp : SplitResult) : str :=
  let url := sr_path sp in
  let url :=
    if truthy (sr_netloc sp)
       || (truthy (sr_scheme sp) && str_in (sr_scheme sp) uses_netloc
           && negb (str_eqb (take 2 url) (U "//")))
    then
      let url :=
        if truthy url && negb (str_eqb (take 1 url) (U "/"))
        then U "/" ++ url else url in
      U "//" ++ sr_netloc sp ++ url
    else url in
  let url := if truthy (sr_scheme sp) then sr_scheme sp ++ U ":" ++ url
             else url in
  let url := if truthy (sr_query sp) then url ++ U "?" ++ sr_query sp
             else url in
  let url := if truthy (sr_fragment sp) then url ++ U "#" ++ sr_fragment sp
             else url in
  url.

(** The first half of [urlunparse]: path and parameters give the path that
    [urlunsplit] receives. *)
Definition rejoin_params (url params : str) : str :=
  if truthy params then url ++ U ";" ++ params else url.

Definition urlunparse (p : ParseResult) : str :=
  let url := rejoin_params (path p) (params p) in
  urlunsplit {| sr_scheme := scheme p; sr_netloc := netloc p; sr_path := url;
                sr_query := query p; sr_fragment := fragment p |}.

(** [ParseResult._hostinfo] *)
Definition _hostinfo (nl : str) : str * option str :=
  let hostinfo := (rpartition (chr "@") nl).2 in
  let '(_, have_open_br, bracketed) := partition (chr "[") hostinfo in
  let '(hostname, port) :=
    if have_open_br then
      let '(hostname, _, port) := partition (chr "]") bracketed in
      let '(_, _, port) := partition (chr ":") port in
      (hostname, port)
    else
      let '(hostname, _, port) := partition (chr ":") hostinfo in
      (hostname, port) in
  (hostname, if truthy port then Some port else None).

(** [ParseResult.hostname] *)
Definition hostname (p : ParseResult) : option str :=
  let hostname := (_hostinfo (netloc p)).1 in
  if negb (truthy hostname) then None
  else
    let '(hostname, percent, zone) := partition (chr "%") hostname in
    Some (lower hostname ++ (if percent then U "%" else []) ++ zone).

End Urllib.

(** ** Rewriting configuration *)

(** Map origin hosts to mirrors. *)
Definition DEFAULT_MIRRORS : gmap (list N) (list N) :=
  list_to_map
    [ (U "twitter.com", U "fixupx.com");
      (U "x.com", U "fixupx.com");
      (U "instagram.com", U "kkinstagram.com");
      (U "reddit.com", U "rxddit.com");
      (U "tiktok.com", U "vxtiktok.com");
      (U "bsky.app", U "bskx.app") ].

Definition SKIP_HOSTS : gset (list N) :=
  list_to_set
    [ U "fxtwitter.com"; U "fixupx.com";
      U "kkinstagram.com"; U "uuinstagram.com"; U "instagramez.com";
      U "rxddit.com"; U "vxreddit.com";
      U "vxtiktok.com";
      U "bskx.app"; U "bskyx.app" ].

Definition SUPPORTED_IG_POST_PREFIXES : list str :=
  [U "/reel/"; U "/p/"; U "/tv/"].
Definition STORY_PREFIX : str := U "/stories/".

(** ** The outside world: the shared HTTP session and the network *)

Inductive method := HEAD | GET.

Record Request := {
  rq_method : method;
  rq_url : str;
  rq_allow_redirects : bool;
  rq_headers : list (str * str)
}.

(** What a completed request exposes: the final URL after the redirects
    that were followed, the status, and the URLs of the redirects. *)
Record Response := {
  resp_url : str;
  resp_status : Z;
  resp_history : list str
}.

Inductive outcome :=
  | Responds (r : Response)
  | Fails (e : exn).

Record Session := { closed : bool; timeout_total : Z }.

(** [session] is the module's global; [sent] logs every request issued;
    [net] is the network: the outcome of a request may depend on all the
    requests sent before it. *)
Record World := {
  session : option Session;
  sent : list Request;
  net : list Request -> Request -> outcome
}.

(** Computations that read and change the world and may raise. *)
Definition M (A : Type) : Type := World -> result A * World.

#[global] Instance M_ret : MRet M := fun A (a : A) w => (Ok a, w).

#[global] Instance M_bind : MBind M := fun A B (k : A -> M B) (m : M A) w =>
  match m w with
  | (Ok a, w') => k a w'
  | (Raise e, w') => (Raise e, w')
  end.

Definition ret {A} (a : A) : M A := mret a.

(** [try: body / except Exception: handler]; every exception of the model
    is an [Exception]. *)
Definition try_except {A} (body : M A) (handler : exn -> M A) : M A :=
  fun w =>
    match body w with
    | (Ok a, w') => (Ok a, w')
    | (Raise e, w') => handler e w'
    end.

(** A pure computation that may raise. *)
Definition lift {A} (r : result A) : M A := fun w => (r, w).

(** Create a shared session with a total timeout of 8. *)
Definition _get_session : M Session :=
  fun w =>
    let fresh := {| closed := false; timeout_total := 8 |} in
    let create :=
      (Ok fresh, {| session := Some fresh; sent := sent w; net := net w |}) in
    match session w with
    | None => create
    | Some s => if closed s then create else (Ok s, w)
    end.

(** [async with sess.head(...)] / [sess.get(...)]: the request is logged
    and the network answers or raises. *)
Definition send (rq : Request) : M Response :=
  fun w =>
    let w' := {| session := session w; sent := sent w ++ [rq];
                 net := net w |} in
    match net w (sent w) rq with
    | Responds r => (Ok r, w')
    | Fails e => (Raise e, w')
    end.

Section Bot.
Context `{PyLib}.

(** ** Domain routing *)

Definition _pick_source (host : str) : option str :=
  let h := lower host in
  if endswith (U "twitter.com") h || endswith (U "x.com") h
  then Some (U "x.com")
  else if endswith (U "instagram.com") h then Some (U "instagram.com")
  else if endswith (U "reddit.com") h then Some (U "reddit.com")
  else if endswith (U "tiktok.com") h then Some (U "tiktok.com")
  else if endswith (U "bsky.app") h then Some (U "bsky.app")
  else None.

(** ** Instagram plumbing *)

Definition _resolve_instagram_share (url : str) : M (option str) :=
  sess ← _get_session ;
  let headers := [(U "User-Agent", U "curl/8")] in
  try_except
    (resp ← send {| rq_method := HEAD; rq_url := url;
                     rq_allow_redirects := true; rq_headers := headers |} ;
     ret (Some (resp_url resp)))
    (fun _ =>
       try_except
         (resp ← send {| rq_method := GET; rq_url := url;
                          rq_allow_redirects := true;
                          rq_headers := headers |} ;
          ret (Some (resp_url resp)))
         (fun _ => ret None)).

(** The part of [_rewrite_instagram] after the share link is resolved:
    [p] is the parsed canonical URL. *)
Definition classify_ig_path (p : ParseResult) (canonical : str)
  : option str * option str :=
  if startswith STORY_PREFIX (path p) then (None, Some canonical)
  else if existsb (fun pre => startswith pre (path p))
                  SUPPORTED_IG_POST_PREFIXES then
    let mirror := DEFAULT_MIRRORS !! U "instagram.com" in
    match mirror with
    | Some m =>
        if truthy m then (Some (urlunparse (replace_netloc p m)), Some canonical)
        else (None, Some canonical)
    | None => (None, Some canonical)
    end
  else (None, Some canonical).

Definition _rewrite_instagram (url : str) : M (option str * option str) :=
  p ← lift (urlparse url) ;
  if startswith (U "/share/") (path p) then
    final ← _resolve_instagram_share url ;
    match final with
    | Some final =>
        if truthy final then
          p ← lift (urlparse final) ;
          ret (classify_ig_path p final)
        else ret (None, None)
    | None => ret (None, None)
    end
  else ret (classify_ig_path p url).

(** ** Generic rewrite *)

Definition _rewrite_one (url : str) : M (option str * option str) :=
  try_except
    (p ← lift (urlparse url) ;
     let host := lower (default [] (hostname p)) in
     if negb (truthy host) || bool_decide (host ∈ SKIP_HOSTS)
     then ret (None, None)
     else if endswith (U "instagram.com") host then _rewrite_instagram url
     else
       match _pick_source host with
       | Some src =>
           if truthy src then
             match DEFAULT_MIRRORS !! src with
             | Some mirror =>
                 if truthy mirror then
                   let new_url := urlunparse (replace_netloc p mirror) in
                   ret (if str_eqb new_url url then None else Some new_url,
                        None)
                 else ret (None, None)
             | None => ret (None, None)
             end
           else ret (None, None)
       | None => ret (None, None)
       end)
    (fun _ => ret (None, None)).

(** The rewrite phase of [on_message]: distinct links in first-seen order,
    each kept with its mirror when the rewrite gives one. *)
Fixpoint rewrite_loop (found_links : list str) (seen : gset (list N))
    (triples : list (str * str * option str))
  : M (list (str * str * option str)) :=
  match found_links with
  | [] => ret triples
  | link :: rest =>
      if bool_decide (link ∈ seen) then rewrite_loop rest seen triples
      else
        '(mirror, canonical_ig) ← _rewrite_one link ;
        rewrite_loop rest ({[ link ]} ∪ seen)
          (match mirror with
           | Some m =>
               if truthy m then triples ++ [(link, m, canonical_ig)]
               else triples
           | None => triples
           end)
  end.

Definition rewrite_phase (found_links : list str)
  : M (list (str * str * option str)) :=
  rewrite_loop found_links ∅ [].

End Bot.

(** ** Text helpers *)

(** [re.sub(r"\s+", " ", s)]: every maximal run of white space becomes one
    space; [in_run] says that the previous character was white space. *)
Fixpoint sub_ws (in_run : bool) (s : str) : str :=
  match s with
  | [] => []
  | x :: t =>
      if isspace_c x then
        if in_run then sub_ws true t else chr " " :: sub_ws true t
      else x :: sub_ws false t
  end.

Fixpoint lstrip_ws (s : str) : str :=
  match s with
  | [] => []
  | x :: t => if isspace_c x then lstrip_ws t else s
  end.

Definition rstrip_ws (s : str) : str := rev (lstrip_ws (rev s)).

(** [s.strip()]. *)
Definition strip (s : str) : str := rstrip_ws (lstrip_ws s).

(** Normalise whitespace in scraped strings; [s or ""] maps [None] to the
    empty string. *)
Definition _compact_ws (s : option str) : str :=
  strip (sub_ws false (default [] s)).

Definition ELLIPSIS : str := [8230].

(** Hard cap long captions. *)
Definition _truncate (s : option str) (max_len : Z) : str :=
  let s := default [] s in
  if (Z.of_nat (length s) <=? max_len)%Z then s
  else slice_to s (max_len - 1) ++ ELLIPSIS.

(** The default of [max_len]. *)
Definition MAX_LEN : Z := 600.

(** ** Instagram enrichment *)

(** *** The title pattern

    [re.match(r'^(.+?)\s+on Instagram:?\s*["“](.*?)["”]?\s*$', t)] as a
    backtracking matcher in continuation style: a greedy loop tries the
    longest run first, a lazy loop the shortest. *)

Definition re_dot (c : char) : bool := negb (c =? 10).
Definition quote_open (c : char) : bool := (c =? 34) || (c =? 8220).
Definition quote_close (c : char) : bool := (c =? 34) || (c =? 8221).

Section Regex.
Context {R : Type}.

(** [x*] (greedy) for a character class [f], then [k] on the rest. *)
Fixpoint greedy_star (f : char -> bool) (k : str -> option R) (s : str)
  : option R :=
  match s with
  | x :: t =>
      if f x then
        match greedy_star f k t with
        | Some r => Some r
        | None => k s
        end
      else k s
  | [] => k []
  end.

(** [x+] (greedy). *)
Definition greedy_plus (f : char -> bool) (k : str -> option R) (s : str)
  : option R :=
  match s with
  | x :: t => if f x then greedy_star f k t else None
  | [] => None
  end.

(** [(x*?)] (lazy, capturing): [k] gets the captured text, kept reversed
    in [acc] while the loop runs, and the rest. *)
Fixpoint lazy_star (f : char -> bool) (acc : str)
    (k : str -> str -> option R) (s : str) : option R :=
  match k (rev acc) s with
  | Some r => Some r
  | None =>
      match s with
      | x :: t => if f x then lazy_star f (x :: acc) k t else None
      | [] => None
      end
  end.

(** [(x+?)] (lazy, capturing). *)
Definition lazy_plus (f : char -> bool) (k : str -> str -> option R)
    (s : str) : option R :=
  match s with
  | x :: t => if f x then lazy_star f [x] k t else None
  | [] => None
  end.

(** A literal. *)
Definition re_lit (l : str) (k : str -> option R) (s : str) : option R :=
  if startswith l s then k (drop (length l) s) else None.

(** [x?] (greedy) for a character class. *)
Definition re_opt (f : char -> bool) (k : str -> option R) (s : str)
  : option R :=
  match s with
  | x :: t =>
      if f x then
        match k t with
        | Some r => Some r
        | None => k s
        end
      else k s
  | [] => k []
  end.

(** One character of a class. *)
Definition re_one (f : char -> bool) (k : str -> option R) (s : str)
  : option R :=
  match s with
  | x :: t => if f x then k t else None
  | [] => None
  end.

(** [$]: the end of the string, or just before a final newline. *)
Definition re_end (r : R) (s : str) : option R :=
  match s with
  | [] => Some r
  | [10] => Some r
  | _ => None
  end.

End Regex.

(** Groups 1 and 2 of the title pattern, [None] when it does not match. *)
Definition match_ig_title (t : str) : option (str * str) :=
  lazy_plus re_dot (fun g1 =>
    greedy_plus isspace_c (
      re_lit (U "on Instagram") (
        re_opt (fun c => c =? chr ":") (
          greedy_star isspace_c (
            re_one quote_open (
              lazy_star re_dot [] (fun g2 =>
                re_opt quote_close (
                  greedy_star isspace_c (
                    re_end (g1, g2)))))))))) t.

Definition _parse_ig_from_og (og_title og_desc : option str)
  : option str * option str :=
  let '(author, caption) :=
    match og_title with
    | Some t =>
        if truthy t then
          match match_ig_title (strip t) with
          | Some (g1, g2) =>
              (Some (_compact_ws (Some g1)), Some (_compact_ws (Some g2)))
          | None => (None, None)
          end
        else (None, None)
    | None => (None, None)
    end in
  let caption :=
    if truthy_opt og_desc then Some (_compact_ws og_desc) else caption in
  (author, caption).

(** *** The parsed page

    [BeautifulSoup(html, "html.parser")] and [json.loads] are library
    parsers; the embedding starts from what they return.  A page is the
    sequence of its tags in document order; a tag has a name and
    attributes, and [tag_json] is what [json.loads(tag.text)] gives
    ([None] when it raises). *)

#[local] Set Warnings "-register-all".

Inductive json :=
  | JNull
  | JBool (b : bool)
  | JNum (z : Z)   (* only the truth value of a number is observed *)
  | JStr (s : str)
  | JArr (items : list json)
  | JObj (fields : list (str * json)).

Record Tag := {
  tag_name : str;
  tag_attrs : list (str * str);
  tag_json : option json
}.

Definition Soup := list Tag.

(** [bool(v)] of a value loaded from JSON. *)
Definition json_truthy (v : json) : bool :=
  match v with
  | JNull => false
  | JBool b => b
  | JNum z => negb (z =? 0)%Z
  | JStr s => truthy s
  | JArr items => match items with [] => false | _ => true end
  | JObj fields => match fields with [] => false | _ => true end
  end.

(** [a or b]. *)
Definition json_or (a b : json) : json := if json_truthy a then a else b.

Fixpoint assoc {V} (k : str) (l : list (str * V)) : option V :=
  match l with
  | [] => None
  | (k', v) :: rest => if str_eqb k k' then Some v else assoc k rest
  end.

(** [d.get(k)] on a loaded object. *)
Definition json_get (k : str) (fields : list (str * json)) : json :=
  default JNull (assoc k fields).

(** [tag.get(k)]. *)
Definition tag_get (k : str) (t : Tag) : option str := assoc k (tag_attrs t).

Definition tag_matches (name attr value : str) (t : Tag) : bool :=
  str_eqb (tag_name t) name
  && match tag_get attr t with
     | Some v => str_eqb v value
     | None => false
     end.

(** [soup.find(name, attrs={attr: value})]. *)
Definition soup_find (name attr value : str) (soup : Soup) : option Tag :=
  List.find (tag_matches name attr value) soup.

(** [soup.find_all(name, attrs={attr: value})]. *)
Definition soup_find_all (name attr value : str) (soup : Soup) : list Tag :=
  List.filter (tag_matches name attr value) soup.

(** The local [meta] of [_extract_og_twitter_meta]. *)
Definition meta (soup : Soup) (prop attr : str) : option str :=
  match soup_find (U "meta") attr prop soup with
  | Some tag =>
      if truthy_opt (tag_get (U "content") tag)
      then tag_get (U "content") tag else None
  | None => None
  end.

(** One pass of the inner loop over the items of a structured-data block. *)
Definition ld_item (d : json) (ac : json * json) : json * json :=
  let '(author, caption) := ac in
  match d with
  | JObj fields =>
      let author :=
        if negb (json_truthy author) then
          match json_get (U "author") fields with
          | JObj a => json_or (json_get (U "name") a)
                              (json_get (U "alternateName") a)
          | JArr (JObj a0 :: _) => json_get (U "name") a0
          | _ => author
          end
        else author in
      let caption :=
        if negb (json_truthy caption) then
          json_or (json_get (U "caption") fields)
            (json_or (json_get (U "description") fields)
                     (json_get (U "articleBody") fields))
        else caption in
      (author, caption)
  | _ => (author, caption)
  end.

(** One pass of the loop over the structured-data scripts; a payload that
    does not parse is skipped. *)
Definition ld_script (script : Tag) (ac : json * json) : json * json :=
  match tag_json script with
  | Some data =>
      let items := match data with JArr l => l | _ => [data] end in
      fold_left (fun ac d => ld_item d ac) items ac
  | None => ac
  end.

Definition of_opt (o : option str) : json :=
  match o with Some s => JStr s | None => JNull end.

(** [f(v) if v else None] for an [f] that takes a string: a truthy value
    that is not a string raises. *)
Definition if_truthy (f : str -> str) (v : json) : result (option str) :=
  if json_truthy v then
    match v with
    | JStr s => Ok (Some (f s))
    | _ => Raise TypeError
    end
  else Ok None.

(** The social-card title: [og:title], else [twitter:title]. *)
Definition social_title (soup : Soup) : option str :=
  let og_title := meta soup (U "og:title") (U "property") in
  if negb (truthy_opt og_title) then
    match soup_find (U "meta") (U "name") (U "twitter:title") soup with
    | Some tw_title =>
        if truthy_opt (tag_get (U "content") tw_title)
        then tag_get (U "content") tw_title else og_title
    | None => og_title
    end
  else og_title.

(** The social-card description: [og:description], else
    [twitter:description]. *)
Definition social_desc (soup : Soup) : option str :=
  let og_desc := meta soup (U "og:description") (U "property") in
  if negb (truthy_opt og_desc) then
    match soup_find (U "meta") (U "name") (U "twitter:description") soup with
    | Some tw_desc =>
        if truthy_opt (tag_get (U "content") tw_desc)
        then tag_get (U "content") tw_desc else og_desc
    | None => og_desc
    end
  else og_desc.

Definition _extract_og_twitter_meta (soup : Soup)
  : result (option str * option str) :=
  let og_title := social_title soup in
  let og_desc := social_desc soup in
  let '(author, caption) := _parse_ig_from_og og_title og_desc in
  let '(author, caption) :=
    if negb (truthy_opt author && truthy_opt caption) then
      fold_left (fun ac script => ld_script script ac)
        (soup_find_all (U "script") (U "type") (U "application/ld+json") soup)
        (of_opt author, of_opt caption)
    else (of_opt author, of_opt caption) in
  match if_truthy (fun s => _compact_ws (Some s)) author with
  | Raise e => Raise e
  | Ok author =>
      match if_truthy (fun s => _truncate (Some (_compact_ws (Some s))) MAX_LEN)
                      caption with
      | Raise e => Raise e
      | Ok caption => Ok (author, caption)
      end
  end.

(** ** Repost formatting *)

Definition NEWLINE : str := [10].

Record Block := {
  orig : str;
  mirror : str;
  ig_author : option str;
  ig_caption : option str
}.

(** The line that pairs the two links of a block. *)
Definition link_line (b : Block) : str :=
  U "[Original Link](<" ++ orig b ++ U ">) | [Embed Link](" ++ mirror b
  ++ U ")".

(** The lines one block appends. *)
Definition block_lines (b : Block) : list str :=
  (if truthy_opt (ig_author b) || truthy_opt (ig_caption b) then
     (if truthy_opt (ig_author b)
      then [U "**Author:** " ++ default [] (ig_author b)] else [])
     ++ (if truthy_opt (ig_caption b)
         then [U "**Caption:** " ++ default [] (ig_caption b)] else [])
   else [])
  ++ [link_line b].

(** [extra_text] is the first line as it is; joining a [None] raises. *)
Definition _format_repost (author_mention : str) (extra_text : option str)
    (blocks : list Block) : result str :=
  let lines : list (option str) := [extra_text] in
  let lines := lines ++ [Some (U "Sent by " ++ author_mention)] in
  let lines :=
    fold_left (fun lines b => lines ++ map Some (block_lines b)) blocks lines in
  match mapM (fun x => x) lines with
  | Some lines => Ok (join NEWLINE lines)
  | None => Raise TypeError
  end.

(** ** Link extraction and the free text *)

(** [s.split()]: the maximal runs of characters that are not white space;
    [cur] holds the run being read, reversed. *)
Fixpoint split_ws_from (cur : str) (s : str) : list str :=
  match s with
  | [] => if truthy cur then [rev cur] else []
  | x :: t =>
      if isspace_c x then
        if truthy cur then rev cur :: split_ws_from [] t
        else split_ws_from [] t
      else split_ws_from (x :: cur) t
  end.

Definition split_ws (s : str) : list str := split_ws_from [] s.

(** [s.replace(old, "")] for a non-empty [old]: occurrences are removed
    from left to right without overlap; [skip] counts the characters of an
    occurrence that are still to be dropped. *)
Fixpoint remove_occurrences (old : str) (skip : nat) (s : str) : str :=
  match s with
  | [] => []
  | x :: t =>
      match skip with
      | S k => remove_occurrences old k t
      | O =>
          if startswith old s then remove_occurrences old (length old - 1) t
          else x :: remove_occurrences old 0 t
      end
  end.

(** [s.replace(old, "")]; replacing the empty string by itself changes
    nothing. *)
Definition replace_by_empty (old s : str) : str :=
  if truthy old then remove_occurrences old 0 s else s.

(** Remove found URLs from the user's message; collapse whitespace. *)
Definition _strip_links_from_text (text : str) (links : list str) : str :=
  let out := fold_left (fun out l => replace_by_empty l out) links text in
  strip (join (U " ") (split_ws out)).

(** [URL_RE]: [http], an optional [s], [://], one or more characters that
    are neither white space nor [<], and a last character that moreover
    is none of the closing marks (period, comma, colon, semicolon, double
    and single quote, closing parenthesis and bracket). *)
Definition url_body_c (c : char) : bool :=
  negb (isspace_c c) && negb (c =? chr "<").

Definition url_last_c (c : char) : bool :=
  negb (isspace_c c)
  && negb (existsb (N.eqb c)
             [chr "<"; chr "."; chr ","; chr ":"; chr ";"; 34; 39;
              chr ")"; chr "]"]).

(** One match of [URL_RE] at the start of [s]: what follows the match. *)
Definition url_re_match (s : str) : option str :=
  re_lit (U "http") (
    re_opt (fun c => c =? chr "s") (
      re_lit (U "://") (
        greedy_plus url_body_c (
          re_one url_last_c (fun rest => Some rest))))) s.

(** [URL_RE.findall(s)]: the matches from left to right, the search going
    on where the last match ended; [skip] counts the characters of the
    last match that are still to be passed. *)
Fixpoint findall_from (skip : nat) (s : str) : list str :=
  match s with
  | [] => []
  | _ :: t =>
      match skip with
      | S k => findall_from k t
      | O =>
          match url_re_match s with
          | Some rest =>
              let found := take (length s - length rest) s in
              found :: findall_from (length found - 1) t
          | None => findall_from 0 t
          end
      end
  end.

Definition URL_RE_findall (s : str) : list str := findall_from 0 s.

(** ** Fetching pages and enrichment *)

(** Two more library behaviours are parameters: the HTML parser, and the
    reading of a response body, which may raise and may depend on the
    requests sent so far. *)
Class Pages := {
  (** [BeautifulSoup(html, "html.parser")] *)
  parse_html : str -> Soup;
  (** [await resp.text(errors="ignore")] *)
  read_text : list Request -> Response -> result str
}.

(** An instance on which everything computes: every page is empty and
    every body reads as the final URL of its response. *)
Definition plain_pages : Pages :=
  {| parse_html := fun _ => []; read_text := fun _ r => Ok (resp_url r) |}.

Definition BROWSER_UA : str :=
  U "Mozilla/5.0 (Windows NT 10.0; Win64; x64) "
  ++ U "AppleWebKit/537.36 (KHTML, like Gecko) "
  ++ U "Chrome/120.0.0.0 Safari/537.36".

(** The request of [_fetch_text]. *)
Definition fetch_rq (url : str) : Request :=
  {| rq_method := GET; rq_url := url; rq_allow_redirects := true;
     rq_headers := [(U "User-Agent", BROWSER_UA)] |}.

Section Enrichment.
Context `{PyLib} `{Pages}.

Definition _fetch_text (url : str) (for_ig : bool) : M (option str) :=
  try_except
    (sess ← _get_session ;
     resp ← send (fetch_rq url) ;
     if (200 <=? resp_status resp)%Z && (resp_status resp <? 300)%Z then
       text ← (fun w => (read_text (sent w) resp, w)) ;
       ret (Some text)
     else ret None)
    (fun _ => ret None).

Definition _ig_from_canonical (canonical_ig_url : str)
  : M (option str * option str) :=
  html ← _fetch_text canonical_ig_url true ;
  match html with
  | Some html =>
      if truthy html then lift (_extract_og_twitter_meta (parse_html html))
      else ret (None, None)
  | None => ret (None, None)
  end.

Definition _ig_from_mirror (mirror_url : str)
  : M (option str * option str) :=
  html ← _fetch_text mirror_url false ;
  match html with
  | Some html =>
      if truthy html then lift (_extract_og_twitter_meta (parse_html html))
      else ret (None, None)
  | None => ret (None, None)
  end.

Definition _ig_author_caption (canonical_ig_url : option str)
    (mirror_url : str) : M (option str * option str) :=
  if truthy_opt canonical_ig_url then
    '(a, c) ← _ig_from_canonical (default [] canonical_ig_url) ;
    if truthy_opt a || truthy_opt c then ret (a, c)
    else _ig_from_mirror mirror_url
  else _ig_from_mirror mirror_url.

(** The loop of [on_message] that turns the triples into blocks:
    Instagram links are enriched, the others carry no metadata. *)
Fixpoint build_blocks (triples : list (str * str * option str))
  : M (list Block) :=
  match triples with
  | [] => ret []
  | (orig, mirror, canonical_ig) :: rest =>
      p ← lift (urlparse orig) ;
      let host := lower (default [] (hostname p)) in
      b ← (if endswith (U "instagram.com") host then
             '(a, c) ← _ig_author_caption canonical_ig mirror ;
             ret {| orig := orig; mirror := mirror;
                    ig_author := a; ig_caption := c |}
           else ret {| orig := orig; mirror := mirror;
                       ig_author := None; ig_caption := None |}) ;
      blocks ← build_blocks rest ;
      ret (b :: blocks)
  end.

End Enrichment.

(** ** The message handler *)

Section Handler.
Context `{PyLib} `{Pages}.

(** [on_message] up to the text that it hands to [message.channel.send];
    [None] stands for a return without a repost.  Collecting the
    attachments, posting and deleting the original message are calls of
    the chat library. *)
Definition on_message (author_is_bot : bool) (author_mention : str)
    (message_content : option str) : M (option str) :=
  if author_is_bot then ret None
  else
    let content := default [] message_content in
    let found_links := URL_RE_findall content in
    match found_links with
    | [] => ret None
    | _ :: _ =>
        triples ← rewrite_phase found_links ;
        match triples with
        | [] => ret None
        | _ :: _ =>
            let extra_text := _strip_links_from_text content found_links in
            blocks ← build_blocks triples ;
            text ← lift (_format_repost author_mention (Some extra_text)
                           blocks) ;
            ret (Some text)
        end
    end.

End Handler.

(** ** Cleanup *)

(** Close the shared session on shutdown. *)
Definition _cleanup_session : M unit :=
  fun w =>
    match session w with
    | Some s =>
        if negb (closed s) then
          (Ok tt, {| session := Some {| closed := true;
                                        timeout_total := timeout_total s |};
                     sent := sent w; net := net w |})
        else (Ok tt, w)
    | None => (Ok tt, w)
    end.

(** ** Vocabulary of the statements *)

(** The distinct elements of a list, in the order of their first
    occurrence. *)
Fixpoint first_occurrences (l : list str) : list str :=
  match l with
  | [] => []
  | x :: t => x :: filter (fun y => y <> x) (first_occurrences t)
  end.

(** A network that redirects every request to a post on another host. *)
Definition reel_url : str := U "https://example.org/reel/Cx1/?igsh=abc".
Definition redirects_to_reel : World :=
  {| session := None; sent := [];
     net := fun _ rq =>
       Responds {| resp_url := reel_url; resp_status := 200;
                   resp_history := [rq_url rq] |} |}.

(** The two requests of the share resolver. *)
Definition head_rq (url : str) : Request :=
  {| rq_method := HEAD; rq_url := url; rq_allow_redirects := true;
     rq_headers := [(U "User-Agent", U "curl/8")] |}.
Definition get_rq (url : str) : Request :=
  {| rq_method := GET; rq_url := url; rq_allow_redirects := true;
     rq_headers := [(U "User-Agent", U "curl/8")] |}.

(** The failures of an attempt as the specification lists them: the
    request raised (timeout, network or protocol error), or it completed
    without following any redirect. *)
Definition attempt_failed (o : outcome) : Prop :=
  match o with
  | Responds r => resp_history r = []
  | Fails _ => True
  end.

(** A network on which the HEAD probe of a share link is answered with
    status 405 and no redirect, and every other request times out. *)
Definition share_url : str := U "https://www.instagram.com/share/abc".
Definition head_not_allowed : World :=
  {| session := None; sent := [];
     net := fun _ rq =>
       match rq_method rq with
       | HEAD => Responds {| resp_url := rq_url rq; resp_status := 405;
                             resp_history := [] |}
       | GET => Fails TimeoutError
       end |}.

(** [host] is [apex] or one of its subdomains: the suffix sits on a label
    boundary. *)
Definition on_label_boundary (apex host : str) : bool :=
  str_eqb host apex || endswith (U "." ++ apex) host.

(** White space is normal from here on: every white-space character is a
    single space that does not follow another one; [prev_ws] says that the
    character before was white space. *)
Fixpoint single_spaced (prev_ws : bool) (s : str) : bool :=
  match s with
  | [] => true
  | x :: t =>
      if isspace_c x
      then (x =? chr " ") && negb prev_ws && single_spaced true t
      else single_spaced false t
  end.

Definition meta_tag (attr prop content : str) : Tag :=
  {| tag_name := U "meta";
     tag_attrs := [(attr, prop); (U "content", content)];
     tag_json := None |}.

(** A page whose title carries a caption, whose description is one space,
    and whose structured data has a caption of its own. *)
Definition blank_desc_page : Soup :=
  [ meta_tag (U "property") (U "og:title")
      (U "Jane on Instagram: " ++ [34] ++ U "from the title" ++ [34]);
    meta_tag (U "property") (U "og:description") (U " ");
    {| tag_name := U "script";
       tag_attrs := [(U "type", U "application/ld+json")];
       tag_json := Some (JObj [(U "caption", JStr (U "from the data"))]) |} ].

(** [c] does not occur in [s]. *)
Definition lacks (c : char) (s : str) : Prop := contains c s = false.

(** No tab, carriage return or newline. *)
Definition clean (s : str) : Prop := lacks 9 s /\ lacks 13 s /\ lacks 10 s.

(** Empty, or starting with a slash. *)
Definition path_abs (s : str) : bool :=
  match s with
  | [] => true
  | x :: _ => x =? chr "/"
  end.

(** The characters of a scheme that [urlsplit] returns, and its shape. *)
Definition lscheme_char (c : char) : bool :=
  is_lower_c c || is_digit_c c
  || (c =? chr "+") || (c =? chr "-") || (c =? chr ".").

Definition scheme_wf (sch : str) : bool :=
  match sch with
  | [] => true
  | c :: _ => is_lower_c c && forallb lscheme_char sch
  end.

(** What holds of every result of [urlsplit]. *)
Definition wf_split (sp : SplitResult) : Prop :=
  scheme_wf (sr_scheme sp) = true
  /\ clean (sr_path sp) /\ clean (sr_query sp) /\ clean (sr_fragment sp)
  /\ lacks (chr "?") (sr_path sp) /\ lacks (chr "#") (sr_path sp)
  /\ lacks (chr "#") (sr_query sp).

(** A host that can stand as the whole network location of a URL. *)
Definition netloc_ok (m : str) : bool :=
  truthy m && isascii m
  && forallb (fun c => negb (contains c m))
             [9; 13; 10; chr "/"; chr "?"; chr "#"; chr "["; chr "]"].

Definition is_netloc_delim (c : char) : bool :=
  (c =? chr "/") || (c =? chr "?") || (c =? chr "#").

(** [min(d, w)] when a delimiter was found at [w]. *)
Definition min_opt (d : nat) (o : option nat) : nat :=
  match o with
  | Some w => Nat.min d w
  | None => d
  end.

(** Where [_splitnetloc] cuts a text that starts at the network location:
    at the first of the delimiters, or at the end. *)
Definition netloc_end (s : str) : nat :=
  fold_left (fun d c => min_opt d (find c s)) (U "/?#") (length s).

(** Empty, or starting with a delimiter of the network location. *)
Definition at_delim (s : str) : bool :=
  match s with
  | [] => true
  | c :: _ => is_netloc_delim c
  end.

(** The text [urlunsplit] builds around the path when there is a network
    location: an optional scheme in front, optional query and fragment
    behind. *)
Definition with_scheme (sch rest : str) : str :=
  if truthy sch then sch ++ U ":" ++ rest else rest.

Definition with_part (mark part : str) : str :=
  if truthy part then mark ++ part else [].

(** The port part of a network location, as text. *)
Definition port_text (p : ParseResult) : option str := (_hostinfo (netloc p)).2.

(** A network on which every request times out, and a world on it. *)
Definition offline : World :=
  {| session := None; sent := []; net := fun _ _ => Fails TimeoutError |}.

(** A network that redirects every request to a story. *)
Definition story_url : str := U "https://www.instagram.com/stories/abc/999".
Definition redirects_to_story : World :=
  {| session := None; sent := [];
     net := fun _ rq =>
       Responds {| resp_url := story_url; resp_status := 200;
                   resp_history := [rq_url rq] |} |}.

(** A matcher built from the combinators returns only what its last
    continuation returns. *)
Definition returns_only {R : Type} (P : R -> Prop) (k : str -> option R)
  : Prop :=
  forall s r, k s = Some r -> P r.

(** ** Proof automation *)

Create HintDb world_ops.
#[local] Hint Unfold _resolve_instagram_share try_except send _get_session
  lift ret mbind mret M_bind M_ret : world_ops.

(** Run a computation on the world symbolically. *)
Ltac run_world := autounfold with world_ops; simpl.

Ltac run_bot :=
  unfold _rewrite_one, _rewrite_instagram, try_except, lift, ret, mbind,
    mret, M_bind, M_ret in *.

(** Replace character literals by their code points, and turn the boolean
    character classes into arithmetic. *)
Ltac norm_chr :=
  repeat match goal with
         | |- context [chr ?a] =>
             let v := eval vm_compute in (chr a) in change (chr a) with v
         | H : context [chr ?a] |- _ =>
             let v := eval vm_compute in (chr a) in change (chr a) with v in H
         end.

Ltac char_props :=
  unfold scheme_char, lscheme_char, isalpha_ascii_c, is_upper_c, is_lower_c,
    is_digit_c, isascii_c, is_netloc_delim in *;
  norm_chr;
  rewrite ?orb_true_iff, ?andb_true_iff, ?orb_false_iff, ?andb_false_iff,
    ?N.leb_le, ?N.eqb_eq, ?N.ltb_lt, ?N.leb_gt, ?N.eqb_neq, ?N.ltb_ge in *.

(** ** Properties *)

(** *** The routing tables *)

Lemma mirror_entries k m :
  DEFAULT_MIRRORS !! k = Some m ->
  (k, m) ∈ [ (U "twitter.com", U "fixupx.com"); (U "x.com", U "fixupx.com");
             (U "instagram.com", U "kkinstagram.com");
             (U "reddit.com", U "rxddit.com");
             (U "tiktok.com", U "vxtiktok.com"); (U "bsky.app", U "bskx.app") ].
Proof. intros Hk. apply elem_of_list_to_map_2 in Hk. exact Hk. Qed.

Lemma skip_hosts_dec (h : str) :
  h ∈ SKIP_HOSTS <-> bool_decide (h ∈ SKIP_HOSTS) = true.
Proof. rewrite bool_decide_eq_true. reflexivity. Qed.

(** C2 as stated fails: the mirror of [x.com] is a member of [SKIP_HOSTS]. *)
Lemma mirror_values_not_disjoint_from_skip :
  ~ (forall k m : str, DEFAULT_MIRRORS !! k = Some m -> m ∉ SKIP_HOSTS).
Proof.
  intros Hall.
  apply (Hall (U "x.com") (U "fixupx.com")).
  - vm_compute. reflexivity.
  - apply skip_hosts_dec. vm_compute. reflexivity.
Qed.

(** C2 (amended): the keys of the mirror table are disjoint from
    [SKIP_HOSTS], so no source host is skipped, while every mirror host
    of the table is a member of [SKIP_HOSTS].  The tables are constants. *)
Theorem mirror_keys_disjoint_values_skipped (k m : str) :
  DEFAULT_MIRRORS !! k = Some m -> (k ∉ SKIP_HOSTS) /\ (m ∈ SKIP_HOSTS).
Proof.
  intros Hk. apply mirror_entries in Hk.
  repeat (apply elem_of_cons in Hk as [Hk | Hk];
          [ injection Hk as -> ->; split;
            [ intros Hin; apply skip_hosts_dec in Hin; vm_compute in Hin;
              discriminate
            | apply skip_hosts_dec; vm_compute; reflexivity ] | ]).
  apply elem_of_nil in Hk. destruct Hk.
Qed.

Lemma mirror_keys_disjoint_values_skipped_witness :
  (U "x.com" ∉ SKIP_HOSTS) /\ (U "fixupx.com" ∈ SKIP_HOSTS).
Proof.
  apply (mirror_keys_disjoint_values_skipped (U "x.com") (U "fixupx.com")).
  vm_compute. reflexivity.
Defined.

(** *** Host classification on concrete hosts *)

(** C9: [matrix.com] is neither a recognised apex domain nor a subdomain
    of one, yet it ends in the characters [x.com]: it classifies to the
    source key [x.com], and a URL on it is rewritten to [fixupx.com]. *)
Theorem pick_source_ignores_label_boundary `{PyLib} :
  (forall apex m, DEFAULT_MIRRORS !! apex = Some m ->
                  on_label_boundary apex (U "matrix.com") = false)
  /\ on_label_boundary (U "twitter.com") (U "matrix.com") = false
  /\ endswith (U "x.com") (U "matrix.com") = true
  /\ _pick_source (U "matrix.com") = Some (U "x.com")
  /\ forall w, _rewrite_one (U "https://matrix.com/a/b?c=d") w
               = (Ok (Some (U "https://fixupx.com/a/b?c=d"), None), w).
Proof.
  split; [| split; [| split; [| split]]].
  - intros apex m Hk. apply mirror_entries in Hk.
    repeat (apply elem_of_cons in Hk as [Hk | Hk];
            [ injection Hk as -> ->; vm_compute; reflexivity | ]).
    apply elem_of_nil in Hk. destruct Hk.
  - vm_compute. reflexivity.
  - vm_compute. reflexivity.
  - vm_compute. reflexivity.
  - intros w. vm_compute. reflexivity.
Qed.

(** C10: [www.fixupx.com] is a proper subdomain of the mirror host
    [fixupx.com], which is in [SKIP_HOSTS]; the subdomain is not, it
    classifies to [x.com] by its suffix, and the URL is rewritten once more
    to the bare mirror host. *)
Theorem skip_check_misses_mirror_subdomain `{PyLib} :
  (U "fixupx.com" ∈ SKIP_HOSTS)
  /\ (U "www.fixupx.com" ∉ SKIP_HOSTS)
  /\ endswith (U ".fixupx.com") (U "www.fixupx.com") = true
  /\ _pick_source (U "www.fixupx.com") = Some (U "x.com")
  /\ forall w, _rewrite_one (U "https://www.fixupx.com/user/status/1") w
               = (Ok (Some (U "https://fixupx.com/user/status/1"), None), w).
Proof.
  split; [| split; [| split; [| split]]].
  - apply skip_hosts_dec. vm_compute. reflexivity.
  - intros Hin. apply skip_hosts_dec in Hin. vm_compute in Hin. discriminate.
  - vm_compute. reflexivity.
  - vm_compute. reflexivity.
  - intros w. vm_compute. reflexivity.
Qed.

(** *** Caption truncation *)

Lemma slice_to_nonneg (s : str) (k : Z) :
  (0 <= k)%Z -> slice_to s k = take (Z.to_nat k) s.
Proof.
  intros Hk. unfold slice_to.
  destruct (Z.ltb_spec k 0) as [Hlt | _]; [lia | reflexivity].
Qed.

Lemma endswith_app (suf pre : str) : endswith suf (pre ++ suf) = true.
Proof.
  unfold endswith. rewrite rev_app_distr.
  induction (rev suf) as [| a l IH]; simpl; [reflexivity |].
  rewrite N.eqb_refl. exact IH.
Qed.

(** The general shape, for any positive budget. *)
Lemma truncate_long (s : str) (max_len : Z) :
  (1 <= max_len)%Z -> (max_len < Z.of_nat (length s))%Z ->
  _truncate (Some s) max_len = take (Z.to_nat (max_len - 1)) s ++ ELLIPSIS
  /\ Z.of_nat (length (_truncate (Some s) max_len)) = max_len.
Proof.
  intros Hpos Hlong. unfold _truncate. simpl.
  destruct (Z.leb_spec (Z.of_nat (length s)) max_len) as [Hle | _]; [lia |].
  rewrite slice_to_nonneg by lia. split; [reflexivity |].
  rewrite length_app, length_take. simpl. lia.
Qed.

(** C7: a caption longer than the budget of 600 comes out with length
    exactly 600 and ends with the ellipsis; a caption of length at most
    600 comes out unchanged. *)
Theorem truncate_budget (s : str) :
  ((MAX_LEN < Z.of_nat (length s))%Z ->
     length (_truncate (Some s) MAX_LEN) = 600%nat
     /\ endswith ELLIPSIS (_truncate (Some s) MAX_LEN) = true
     /\ _truncate (Some s) MAX_LEN = take 599 s ++ ELLIPSIS)
  /\ ((Z.of_nat (length s) <= MAX_LEN)%Z -> _truncate (Some s) MAX_LEN = s).
Proof.
  split.
  - intros Hlong.
    assert (Hpos : (1 <= MAX_LEN)%Z) by (unfold MAX_LEN; lia).
    destruct (truncate_long s MAX_LEN Hpos Hlong) as [Heq Hlen].
    change (Z.to_nat (MAX_LEN - 1)) with 599%nat in Heq.
    split; [unfold MAX_LEN in *; lia |].
    split; [| exact Heq].
    rewrite Heq. apply endswith_app.
  - intros Hshort. unfold _truncate. simpl.
    destruct (Z.leb_spec (Z.of_nat (length s)) MAX_LEN) as [_ | Hgt]; [reflexivity | lia].
Qed.

Lemma truncate_budget_witness :
  (length (_truncate (Some (repeat (chr "a") 601)) MAX_LEN) = 600%nat
   /\ endswith ELLIPSIS (_truncate (Some (repeat (chr "a") 601)) MAX_LEN) = true
   /\ _truncate (Some (repeat (chr "a") 601)) MAX_LEN
      = take 599 (repeat (chr "a") 601) ++ ELLIPSIS)
  /\ _truncate (Some (U "short caption")) MAX_LEN = U "short caption".
Proof.
  split.
  - apply (proj1 (truncate_budget (repeat (chr "a") 601))).
    vm_compute. reflexivity.
  - apply (proj2 (truncate_budget (U "short caption"))).
    vm_compute. discriminate.
Defined.

(** *** The share resolver *)

(** C4 as stated fails: a HEAD probe that is answered without a redirect
    counts as a failure of the attempt there, but no GET follows it. *)
Lemma head_without_redirect_is_not_retried :
  ~ (forall (url : str) (w : World),
       attempt_failed (net w (sent w) (head_rq url)) ->
       sent (_resolve_instagram_share url w).2
       = sent w ++ [head_rq url; get_rq url]).
Proof.
  intros Hall.
  specialize (Hall share_url head_not_allowed).
  simpl in Hall. specialize (Hall eq_refl).
  vm_compute in Hall. discriminate.
Qed.

(** C4 (amended): the resolver sends a HEAD request first.  When it
    completes, redirected or not, its final URL is returned and nothing
    else is sent.  When it raises (timeout, network or protocol error), one
    GET request follows: its final URL is returned when it completes, and
    [None] when it raises too.  The resolver itself never raises. *)
Theorem resolve_share_head_then_get (url : str) (w : World) :
  exists (r : option str) (w' : World),
    _resolve_instagram_share url w = (Ok r, w')
    /\ net w' = net w
    /\ match net w (sent w) (head_rq url) with
       | Responds resp =>
           r = Some (resp_url resp) /\ sent w' = sent w ++ [head_rq url]
       | Fails _ =>
           sent w' = sent w ++ [head_rq url; get_rq url]
           /\ match net w (sent w ++ [head_rq url]) (get_rq url) with
              | Responds resp => r = Some (resp_url resp)
              | Fails _ => r = None
              end
       end.
Proof.
  unfold head_rq, get_rq. run_world.
  destruct (session w) as [[[] t] |]; simpl;
    (destruct (net w (sent w) _) as [resp | e]; simpl;
     [ eexists _, _; split; [reflexivity |]; simpl; auto
     | destruct (net w (sent w ++ _) _) as [resp2 | e2]; simpl;
       eexists _, _; (split; [reflexivity |]); simpl;
       rewrite <- app_assoc; auto ]).
Qed.

(** *** The repost text *)

Lemma fold_block_lines (blocks : list Block) (acc : list (option str)) :
  fold_left (fun lines b => lines ++ map Some (block_lines b)) blocks acc
  = acc ++ map Some (concat (map block_lines blocks)).
Proof.
  revert acc. induction blocks as [| b bs IH]; intros acc; simpl.
  - rewrite app_nil_r. reflexivity.
  - rewrite IH, map_app, app_assoc. reflexivity.
Qed.

Lemma mapM_id_Some (l : list str) : mapM (fun x => x) (map Some l) = Some l.
Proof.
  apply mapM_Some_2. induction l; constructor; auto.
Qed.

Lemma join_cons (sep p : str) (rest : list str) :
  rest <> [] -> join sep (p :: rest) = p ++ sep ++ join sep rest.
Proof. destruct rest; [congruence | reflexivity]. Qed.

(** A line that is not the first one follows a separator, and is followed
    by the end of the text or by a separator. *)
Lemma join_middle (sep x : str) (before after : list str) :
  before <> [] ->
  exists pre post : str,
    join sep (before ++ x :: after) = pre ++ sep ++ x ++ post
    /\ (post = [] \/ exists post', post = sep ++ post').
Proof.
  induction before as [| p before IH]; intros Hne; [congruence |].
  destruct before as [| q before].
  - simpl app. rewrite join_cons by discriminate.
    destruct after as [| a after].
    + exists p, []. rewrite app_nil_r. split; [reflexivity | left; reflexivity].
    + rewrite join_cons by discriminate.
      exists p, (sep ++ join sep (a :: after)).
      split; [reflexivity | right; eauto].
  - destruct IH as (pre & post & Heq & Hpost); [discriminate |].
    change ((p :: q :: before) ++ x :: after)
      with (p :: ((q :: before) ++ x :: after)).
    rewrite join_cons by discriminate. rewrite Heq.
    exists (p ++ sep ++ pre), post. split; [| exact Hpost].
    rewrite <- !app_assoc. reflexivity.
Qed.

(** C3: the repost text always comes out when there is a free text, and
    for every block it has a line of its own that reads
    [[Original Link](<orig>) | [Embed Link](mirror)]: the original URL
    stands between angle brackets, the mirror URL stands bare. *)
Theorem format_repost_link_line (author_mention extra_text : str)
    (blocks : list Block) :
  exists out : str,
    _format_repost author_mention (Some extra_text) blocks = Ok out
    /\ forall b, b ∈ blocks ->
         link_line b
         = U "[Original Link](<" ++ orig b ++ U ">) | [Embed Link]("
           ++ mirror b ++ U ")"
         /\ exists pre post : str,
              out = pre ++ NEWLINE ++ link_line b ++ post
              /\ (post = [] \/ exists post', post = NEWLINE ++ post').
Proof.
  unfold _format_repost. rewrite fold_block_lines.
  change ([Some extra_text] ++ [Some (U "Sent by " ++ author_mention)])
    with (map Some [extra_text; U "Sent by " ++ author_mention]).
  rewrite <- map_app, mapM_id_Some.
  eexists. split; [reflexivity |].
  intros b Hb. split; [reflexivity |].
  apply list_elem_of_split in Hb as (l1 & l2 & ->).
  rewrite map_app, concat_app. simpl map. simpl concat.
  unfold block_lines at 2.
  rewrite <- !app_assoc, !app_assoc.
  rewrite <- (app_assoc _ [link_line b]).
  apply join_middle. simpl. discriminate.
Qed.

(** *** White-space normalisation *)

Lemma sub_ws_single_spaced (b : bool) (s : str) :
  single_spaced b (sub_ws b s) = true.
Proof.
  revert b. induction s as [| x t IH]; intros b; simpl; [reflexivity |].
  destruct (isspace_c x) eqn:Hx.
  - destruct b; simpl; [apply IH |]. apply IH.
  - simpl. rewrite Hx. apply IH.
Qed.

Lemma single_spaced_fixpoint (b : bool) (s : str) :
  single_spaced b s = true -> sub_ws b s = s.
Proof.
  revert b. induction s as [| x t IH]; intros b Hs; simpl in *; [reflexivity |].
  destruct (isspace_c x) eqn:Hx.
  - apply andb_prop in Hs as [Hs Ht]. apply andb_prop in Hs as [Hx32 Hb].
    apply N.eqb_eq in Hx32. destruct b; [discriminate |].
    rewrite (IH true Ht), Hx32. reflexivity.
  - rewrite (IH false Hs). reflexivity.
Qed.

Lemma single_spaced_lstrip (b : bool) (s : str) :
  single_spaced b s = true -> single_spaced false (lstrip_ws s) = true.
Proof.
  revert b. induction s as [| x t IH]; intros b Hs; simpl in *; [reflexivity |].
  destruct (isspace_c x) eqn:Hx.
  - apply andb_prop in Hs as [_ Ht]. exact (IH true Ht).
  - simpl. rewrite Hx. exact Hs.
Qed.

Lemma single_spaced_prefix (b : bool) (a r : str) :
  single_spaced b (a ++ r) = true -> single_spaced b a = true.
Proof.
  revert b. induction a as [| x t IH]; intros b Hs; simpl in *; [reflexivity |].
  destruct (isspace_c x).
  - apply andb_prop in Hs as [Hs Ht]. rewrite Hs. exact (IH true Ht).
  - exact (IH false Hs).
Qed.

Lemma lstrip_ws_suffix (s : str) : exists p, s = p ++ lstrip_ws s.
Proof.
  induction s as [| x t [p Hp]]; simpl; [exists []; reflexivity |].
  destruct (isspace_c x).
  - exists (x :: p). simpl. congruence.
  - exists []. reflexivity.
Qed.

Lemma rstrip_ws_prefix (s : str) : exists r, s = rstrip_ws s ++ r.
Proof.
  unfold rstrip_ws. destruct (lstrip_ws_suffix (rev s)) as [p Hp].
  exists (rev p). rewrite <- rev_app_distr, <- Hp, rev_involutive. reflexivity.
Qed.

Lemma lstrip_ws_head (s t : str) (x : char) :
  lstrip_ws s = x :: t -> isspace_c x = false.
Proof.
  induction s as [| y s IH]; simpl; [discriminate |].
  destruct (isspace_c y) eqn:Hy; [exact IH |].
  intros [= <- _]. exact Hy.
Qed.

Lemma lstrip_ws_snoc (a : str) (x : char) :
  isspace_c x = false -> lstrip_ws (a ++ [x]) = lstrip_ws a ++ [x].
Proof.
  intros Hx. induction a as [| y a IH]; simpl.
  - rewrite Hx. reflexivity.
  - destruct (isspace_c y); [exact IH | reflexivity].
Qed.

Lemma rstrip_ws_cons (x : char) (t : str) :
  isspace_c x = false -> rstrip_ws (x :: t) = x :: rstrip_ws t.
Proof.
  intros Hx. unfold rstrip_ws. simpl.
  rewrite lstrip_ws_snoc by exact Hx.
  rewrite rev_app_distr. reflexivity.
Qed.

(** What [strip] returns is empty or starts with a character that is not
    white space, and [strip] leaves it as it is. *)
Lemma strip_shape (s : str) :
  strip s = []
  \/ exists x t, isspace_c x = false /\ strip s = x :: rstrip_ws t
                 /\ lstrip_ws s = x :: t.
Proof.
  unfold strip. destruct (lstrip_ws s) as [| x t] eqn:Hs; [left; reflexivity |].
  right. exists x, t. pose proof (lstrip_ws_head _ _ _ Hs) as Hx.
  rewrite rstrip_ws_cons by exact Hx. auto.
Qed.

Lemma rstrip_ws_idem (s : str) : rstrip_ws (rstrip_ws s) = rstrip_ws s.
Proof.
  unfold rstrip_ws. rewrite rev_involutive. f_equal.
  destruct (lstrip_ws (rev s)) as [| x t] eqn:Hs; [reflexivity |].
  simpl. rewrite (lstrip_ws_head _ _ _ Hs). reflexivity.
Qed.

Lemma strip_idem (s : str) : strip (strip s) = strip s.
Proof.
  destruct (strip_shape s) as [-> | (x & t & Hx & -> & _)]; [reflexivity |].
  unfold strip. simpl. rewrite Hx.
  rewrite rstrip_ws_cons, rstrip_ws_idem by exact Hx. reflexivity.
Qed.

Lemma compact_ws_single_spaced (s : option str) :
  single_spaced false (_compact_ws s) = true.
Proof.
  unfold _compact_ws, strip.
  destruct (rstrip_ws_prefix (lstrip_ws (sub_ws false (default [] s))))
    as [r Hr].
  apply (single_spaced_prefix false _ r). rewrite <- Hr.
  apply (single_spaced_lstrip false). apply sub_ws_single_spaced.
Qed.

(** Normalising twice is normalising once. *)
Lemma compact_ws_idem (s : option str) :
  _compact_ws (Some (_compact_ws s)) = _compact_ws s.
Proof.
  unfold _compact_ws at 1. simpl.
  rewrite single_spaced_fixpoint by apply compact_ws_single_spaced.
  unfold _compact_ws. apply strip_idem.
Qed.

Lemma compact_ws_starts (x : char) (g : str) :
  isspace_c x = false -> truthy (_compact_ws (Some (x :: g))) = true.
Proof.
  intros Hx. unfold _compact_ws, strip. simpl. rewrite Hx. simpl. rewrite Hx.
  rewrite rstrip_ws_cons by exact Hx. reflexivity.
Qed.

(** *** The title pattern *)

Section RegexResults.
Context {R : Type} (P : R -> Prop).

Lemma greedy_star_returns f k :
  returns_only P k -> returns_only P (greedy_star f k).
Proof.
  intros Hk s. induction s as [| x t IH]; intros r; simpl; [apply Hk |].
  destruct (f x); [| apply Hk].
  destruct (greedy_star f k t) as [r' |] eqn:Ht; [| apply Hk].
  intros [= <-]. apply IH. reflexivity.
Qed.

Lemma greedy_plus_returns f k :
  returns_only P k -> returns_only P (greedy_plus f k).
Proof.
  intros Hk [| x t] r; simpl; [discriminate |].
  destruct (f x); [| discriminate]. apply greedy_star_returns, Hk.
Qed.

Lemma re_lit_returns l k : returns_only P k -> returns_only P (re_lit l k).
Proof.
  intros Hk s r. unfold re_lit.
  destruct (startswith l s); [apply Hk | discriminate].
Qed.

Lemma re_opt_returns f k : returns_only P k -> returns_only P (re_opt f k).
Proof.
  intros Hk [| x t] r; simpl; [apply Hk |].
  destruct (f x); [| apply Hk].
  destruct (k t) as [r' |] eqn:Ht; [| apply Hk].
  intros [= <-]. exact (Hk _ _ Ht).
Qed.

Lemma re_one_returns f k : returns_only P k -> returns_only P (re_one f k).
Proof.
  intros Hk [| x t] r; simpl; [discriminate |].
  destruct (f x); [apply Hk | discriminate].
Qed.

Lemma lazy_star_returns f (k : str -> str -> option R) :
  (forall g, returns_only P (k g)) ->
  forall acc, returns_only P (lazy_star f acc k).
Proof.
  intros Hk acc s. revert acc.
  induction s as [| x t IH]; intros acc r; simpl.
  - destruct (k (rev acc) []) as [r' |] eqn:Hr; [| discriminate].
    intros [= <-]. exact (Hk _ _ _ Hr).
  - destruct (k (rev acc) (x :: t)) as [r' |] eqn:Hr.
    + intros [= <-]. exact (Hk _ _ _ Hr).
    + destruct (f x); [apply IH | discriminate].
Qed.

End RegexResults.

Lemma re_end_returns {R} (v : R) : returns_only (fun r => r = v) (re_end v).
Proof.
  intros s r. unfold re_end.
  repeat match goal with
         | |- context [match ?x with _ => _ end] => destruct x
         end;
    intros Heq; try discriminate; injection Heq as <-; reflexivity.
Qed.

(** The first group extends what the lazy loop had already captured. *)
Lemma lazy_star_capture {R} f (k : str -> str -> option R) acc s r :
  lazy_star f acc k s = Some r ->
  exists g rest, k (rev acc ++ g) rest = Some r.
Proof.
  revert acc. induction s as [| x t IH]; intros acc; simpl.
  - destruct (k (rev acc) []) as [r' |] eqn:Hr; [| discriminate].
    intros [= <-]. exists [], []. rewrite app_nil_r. exact Hr.
  - destruct (k (rev acc) (x :: t)) as [r' |] eqn:Hr.
    + intros [= <-]. exists [], (x :: t). rewrite app_nil_r. exact Hr.
    + destruct (f x); [| discriminate].
      intros Hl. destruct (IH _ Hl) as (g & rest & Hg).
      exists (x :: g), rest. simpl in Hg. rewrite <- app_assoc in Hg.
      exact Hg.
Qed.

(** When the title matches, group 1 starts with the first character of
    the text. *)
Lemma match_ig_title_group1 (t g1 g2 : str) :
  match_ig_title t = Some (g1, g2) ->
  exists x t' g, t = x :: t' /\ g1 = x :: g.
Proof.
  unfold match_ig_title, lazy_plus.
  destruct t as [| x t']; [discriminate |].
  destruct (re_dot x); [| discriminate].
  intros Hm. apply lazy_star_capture in Hm as (g & rest & Hm).
  exists x, t', g. split; [reflexivity |].
  simpl in Hm.
  assert (Hret : returns_only (fun r : str * str => r.1 = x :: g)
            (greedy_plus isspace_c
              (re_lit (U "on Instagram")
                (re_opt (fun c => c =? chr ":")
                  (greedy_star isspace_c
                    (re_one quote_open
                      (lazy_star re_dot []
                        (fun g2 =>
                           re_opt quote_close
                             (greedy_star isspace_c
                                (re_end (x :: g, g2))))))))))).
  { apply greedy_plus_returns, re_lit_returns, re_opt_returns,
      greedy_star_returns, re_one_returns, lazy_star_returns.
    intros g'. apply re_opt_returns, greedy_star_returns.
    intros s r Hr. apply re_end_returns in Hr. subst r. reflexivity. }
  apply Hret in Hm. simpl in Hm. congruence.
Qed.

Lemma title_author_truthy (t g1 g2 : str) :
  match_ig_title (strip t) = Some (g1, g2) ->
  truthy (_compact_ws (Some g1)) = true.
Proof.
  intros Hm. apply match_ig_title_group1 in Hm as (x & t' & g & Ht & ->).
  apply compact_ws_starts.
  destruct (strip_shape t) as [He | (y & u & Hy & Hs & _)]; [congruence |].
  congruence.
Qed.

(** *** Metadata precedence *)

Lemma meta_truthy soup prop attr v : meta soup prop attr = Some v -> truthy v = true.
Proof.
  unfold meta. destruct (soup_find _ _ _ _) as [tag |]; [| discriminate].
  destruct (tag_get _ tag) as [c |] eqn:Hc; simpl; [| discriminate].
  destruct (truthy c) eqn:Ht; [| discriminate]. congruence.
Qed.

Lemma social_title_truthy soup t : social_title soup = Some t -> truthy t = true.
Proof.
  unfold social_title.
  destruct (meta soup _ _) as [v |] eqn:Hm; simpl.
  - rewrite (meta_truthy _ _ _ _ Hm). simpl. intros [= <-].
    exact (meta_truthy _ _ _ _ Hm).
  - destruct (soup_find _ _ _ _) as [tag |]; [| discriminate].
    destruct (tag_get _ tag) as [c |]; simpl; [| discriminate].
    destruct (truthy c) eqn:Ht; [congruence | discriminate].
Qed.

(** C5 as stated fails: with a description that is only white space, the
    caption comes from the structured data, not from the description. *)
Lemma blank_description_does_not_win :
  ~ (forall (soup : Soup) (t d g1 g2 : str),
       social_title soup = Some t ->
       match_ig_title (strip t) = Some (g1, g2) ->
       social_desc soup = Some d ->
       exists author,
         _extract_og_twitter_meta soup
         = Ok (author, Some (_truncate (Some (_compact_ws (Some d))) MAX_LEN))).
Proof.
  intros Hall.
  destruct (Hall blank_desc_page
              (U "Jane on Instagram: " ++ [34] ++ U "from the title" ++ [34])
              (U " ") (U "Jane") (U "from the title"))
    as [author Hex]; try (vm_compute; reflexivity).
  vm_compute in Hex. discriminate.
Qed.

(** C5 (amended): when the page has a social-card title that matches the
    title pattern and a social-card description that is not only white
    space, the extracted caption is the description, normalised and
    truncated to the budget, and not the caption of the title. *)
Theorem description_overrides_title (soup : Soup) (t d g1 g2 : str) :
  social_title soup = Some t ->
  match_ig_title (strip t) = Some (g1, g2) ->
  social_desc soup = Some d ->
  _compact_ws (Some d) <> [] ->
  _extract_og_twitter_meta soup
  = Ok (Some (_compact_ws (Some g1)),
        Some (_truncate (Some (_compact_ws (Some d))) MAX_LEN)).
Proof.
  intros Ht Hm Hd Hne.
  assert (Hd_truthy : truthy d = true).
  { destruct d; [exfalso; apply Hne; reflexivity | reflexivity]. }
  assert (Hc_truthy : truthy (_compact_ws (Some d)) = true).
  { destruct (_compact_ws (Some d)); [congruence | reflexivity]. }
  pose proof (title_author_truthy _ _ _ Hm) as Ha_truthy.
  unfold _extract_og_twitter_meta, _parse_ig_from_og.
  rewrite Ht, Hd, (social_title_truthy _ _ Ht), Hm. simpl.
  rewrite Hd_truthy, Ha_truthy. simpl. rewrite Hc_truthy. simpl.
  unfold if_truthy. simpl. rewrite Ha_truthy, Hc_truthy.
  rewrite !compact_ws_idem. reflexivity.
Qed.

Lemma description_overrides_title_witness :
  _extract_og_twitter_meta
    [ meta_tag (U "property") (U "og:title")
        (U "Jane on Instagram: " ++ [34] ++ U "from the title" ++ [34]);
      meta_tag (U "name") (U "twitter:description") (U "  from  the card ") ]
  = Ok (Some (_compact_ws (Some (U "Jane"))),
        Some (_truncate (Some (_compact_ws (Some (U "  from  the card "))))
                        MAX_LEN)).
Proof.
  apply (description_overrides_title _
           (U "Jane on Instagram: " ++ [34] ++ U "from the title" ++ [34])
           (U "  from  the card ") (U "Jane") (U "from the title"));
    vm_compute; solve [reflexivity | discriminate].
Defined.

(** *** Strings *)

Lemma lacks_nil c : lacks c [].
Proof. reflexivity. Qed.

Lemma lacks_cons c x s : lacks c (x :: s) <-> x <> c /\ lacks c s.
Proof.
  unfold lacks. simpl. rewrite orb_false_iff, N.eqb_neq. intuition congruence.
Qed.

Lemma lacks_app c a b : lacks c (a ++ b) <-> lacks c a /\ lacks c b.
Proof.
  unfold lacks, contains. rewrite existsb_app, orb_false_iff. reflexivity.
Qed.

Lemma contains_app c a b : contains c (a ++ b) = contains c a || contains c b.
Proof. apply existsb_app. Qed.

Lemma lacks_take c n s : lacks c s -> lacks c (take n s).
Proof.
  intros Hs. rewrite <- (take_drop n s) in Hs. apply lacks_app in Hs. tauto.
Qed.

Lemma lacks_drop c n s : lacks c s -> lacks c (drop n s).
Proof.
  intros Hs. rewrite <- (take_drop n s) in Hs. apply lacks_app in Hs. tauto.
Qed.

Lemma lacks_here c s : lacks c (c :: s) -> False.
Proof. intros Hs. apply lacks_cons in Hs as [Hne _]. congruence. Qed.

Lemma contains_true_iff c s : contains c s = true <-> c ∈ s.
Proof.
  unfold contains. rewrite existsb_exists. split.
  - intros (x & Hin & Heq). apply N.eqb_eq in Heq. subst.
    apply list_elem_of_In. exact Hin.
  - intros Hin. exists c. rewrite N.eqb_refl.
    split; [apply list_elem_of_In; exact Hin | reflexivity].
Qed.

Lemma not_lacks c s : ~ lacks c s -> contains c s = true.
Proof. unfold lacks. destruct (contains c s); congruence. Qed.

(** [partition] *)

Lemma partition_spec c s :
  exists b a, partition c s = (b, contains c s, a) /\ lacks c b
              /\ if contains c s then s = b ++ c :: a else s = b /\ a = [].
Proof.
  induction s as [| x t (b & a & Hp & Hb & Hs)]; simpl.
  - exists [], []. repeat split.
  - rewrite (N.eqb_sym c x). destruct (N.eqb_spec x c) as [-> | Hne]; simpl.
    + exists [], t. repeat split.
    + rewrite Hp. exists (x :: b), a. split; [reflexivity |].
      split; [apply lacks_cons; auto |].
      destruct (contains c t); [simpl; congruence |].
      destruct Hs as [-> ->]. auto.
Qed.

Lemma partition_found c x y :
  lacks c x -> partition c (x ++ c :: y) = (x, true, y).
Proof.
  intros Hx. induction x as [| a x IH]; simpl.
  - rewrite N.eqb_refl. reflexivity.
  - apply lacks_cons in Hx as [Hne Hx].
    destruct (N.eqb_spec a c) as [-> | _]; [congruence |].
    rewrite (IH Hx). reflexivity.
Qed.

Lemma partition_absent c s : lacks c s -> partition c s = (s, false, []).
Proof.
  intros Hs. destruct (partition_spec c s) as (b & a & Hp & _ & Hsh).
  rewrite Hs in Hp, Hsh. destruct Hsh as [<- ->]. exact Hp.
Qed.

(** [find] and [rfind] *)

Lemma find_found c x y : lacks c x -> find c (x ++ c :: y) = Some (length x).
Proof.
  intros Hx. induction x as [| a x IH]; simpl.
  - rewrite N.eqb_refl. reflexivity.
  - apply lacks_cons in Hx as [Hne Hx].
    destruct (N.eqb_spec a c) as [-> | _]; [congruence |].
    rewrite (IH Hx). reflexivity.
Qed.

Lemma find_absent c s : lacks c s -> find c s = None.
Proof.
  induction s as [| a s IH]; intros Hs; simpl; [reflexivity |].
  apply lacks_cons in Hs as [Hne Hs].
  destruct (N.eqb_spec a c) as [-> | _]; [congruence |].
  rewrite (IH Hs). reflexivity.
Qed.

Lemma find_Some c s i :
  find c s = Some i ->
  s = take i s ++ c :: drop (S i) s /\ lacks c (take i s).
Proof.
  revert i. induction s as [| a s IH]; intros i; simpl; [discriminate |].
  destruct (N.eqb_spec a c) as [-> | Hne].
  - intros [= <-]. simpl. rewrite drop_0. split; [reflexivity | apply lacks_nil].
  - destruct (find c s) as [j |]; simpl; [| discriminate].
    intros [= <-]. destruct (IH j eq_refl) as [Hs Hl]. simpl.
    split; [congruence | apply lacks_cons; auto].
Qed.

Lemma find_None c s : find c s = None -> lacks c s.
Proof.
  induction s as [| a s IH]; simpl; [reflexivity |].
  destruct (N.eqb_spec a c) as [-> | Hne]; [discriminate |].
  destruct (find c s); simpl; [discriminate |].
  intros _. apply lacks_cons. auto.
Qed.

Lemma rfind_found c x y : lacks c y -> rfind c (x ++ c :: y) = Some (length x).
Proof.
  intros Hy.
  assert (Hny : rfind c y = None).
  { induction y as [| a y IH]; simpl; [reflexivity |].
    apply lacks_cons in Hy as [Hne Hy]. rewrite (IH Hy).
    destruct (N.eqb_spec a c); congruence. }
  induction x as [| a x IH]; simpl.
  - rewrite Hny, N.eqb_refl. reflexivity.
  - rewrite IH. reflexivity.
Qed.

Lemma rfind_Some c s r :
  rfind c s = Some r ->
  s = take r s ++ c :: drop (S r) s /\ lacks c (drop (S r) s).
Proof.
  revert r. induction s as [| a s IH]; intros r; simpl; [discriminate |].
  destruct (rfind c s) as [j |] eqn:Hj.
  - intros [= <-]. destruct (IH j eq_refl) as [Hs Hl]. simpl.
    split; [congruence | exact Hl].
  - destruct (N.eqb_spec a c) as [-> | Hne]; [| discriminate].
    intros [= <-]. simpl. rewrite drop_0. split; [reflexivity |].
    clear IH. induction s as [| b s IH]; [apply lacks_nil |].
    simpl in Hj. destruct (rfind c s); [discriminate |].
    destruct (N.eqb_spec b c); [discriminate |].
    apply lacks_cons. auto.
Qed.

(** [replace(c, "")] and [lstrip] *)

Lemma remove_char_cons c x s :
  remove_char c (x :: s) = if x =? c then remove_char c s else x :: remove_char c s.
Proof.
  unfold remove_char. destruct (N.eqb_spec x c) as [-> | Hne].
  - apply filter_cons_False. intros Hn. apply Hn. reflexivity.
  - apply filter_cons_True. exact Hne.
Qed.

Lemma remove_char_lacks c s : lacks c (remove_char c s).
Proof.
  induction s as [| x s IH]; [apply lacks_nil |].
  rewrite remove_char_cons. destruct (N.eqb_spec x c); [exact IH |].
  apply lacks_cons. auto.
Qed.

Lemma remove_char_keeps c d s : lacks d s -> lacks d (remove_char c s).
Proof.
  induction s as [| x s IH]; intros Hs; [apply lacks_nil |].
  apply lacks_cons in Hs as [Hne Hs]. rewrite remove_char_cons.
  destruct (x =? c); [auto |]. apply lacks_cons. auto.
Qed.

Lemma remove_char_id c s : lacks c s -> remove_char c s = s.
Proof.
  induction s as [| x s IH]; intros Hs; [reflexivity |].
  apply lacks_cons in Hs as [Hne Hs]. rewrite remove_char_cons.
  destruct (N.eqb_spec x c); [congruence |]. rewrite (IH Hs). reflexivity.
Qed.

Lemma lstrip_id chars x s : contains x chars = false -> lstrip chars (x :: s) = x :: s.
Proof. intros Hx. simpl. rewrite Hx. reflexivity. Qed.

Lemma startswith_app pre s : startswith pre (pre ++ s) = true.
Proof.
  induction pre as [| a pre IH]; simpl; [reflexivity |].
  rewrite N.eqb_refl. exact IH.
Qed.

Lemma startswith_inv pre s :
  startswith pre s = true -> exists t, s = pre ++ t.
Proof.
  revert s. induction pre as [| a pre IH]; intros s; simpl; [eauto |].
  destruct s as [| b s]; [discriminate |].
  intros Hs. apply andb_prop in Hs as [Hab Hs]. apply N.eqb_eq in Hab.
  destruct (IH _ Hs) as [t ->]. exists t. congruence.
Qed.

(** *** Parameters of the last path segment *)

Lemma truthy_false (s : str) : truthy s = false -> s = [].
Proof. destruct s; [reflexivity | discriminate]. Qed.

Lemma find_from_Some c r s i :
  find_from c r s = Some i ->
  (r <= i)%nat
  /\ s = take i s ++ c :: drop (i + 1) s
  /\ lacks c (take (i - r) (drop r s)).
Proof.
  unfold find_from. destruct (find c (drop r s)) as [j |] eqn:Hj; [| discriminate].
  simpl. intros [= <-]. apply find_Some in Hj as [Hd Hl].
  split; [lia |]. split.
  - rewrite <- (take_drop r s) at 1. rewrite Hd at 1.
    rewrite app_assoc, take_take_drop, drop_drop.
    do 3 f_equal. lia.
  - replace (r + j - r)%nat with j by lia. exact Hl.
Qed.

(** Splitting what [urlunparse] joins gives the same path and parameters,
    and the joined text is a prefix of the text that was split. *)
Lemma split_params_stable (sch url a b : str) :
  split_params_of sch url = (a, b) ->
  (exists r, url = rejoin_params a b ++ r)
  /\ split_params_of sch (rejoin_params a b) = (a, b).
Proof.
  intros Hsplit.
  assert (Hsame : rejoin_params a b = url ->
                  (exists r, url = rejoin_params a b ++ r)
                  /\ split_params_of sch (rejoin_params a b) = (a, b)).
  { intros ->. split; [exists []; rewrite app_nil_r; reflexivity | exact Hsplit]. }
  assert (Hcut : forall i, url = take i url ++ chr ";" :: drop (i + 1) url ->
                 a = take i url -> b = drop (i + 1) url ->
                 (contains (chr ";") a = true ->
                  split_params_of sch a = (a, [])) ->
                 (exists r, url = rejoin_params a b ++ r)
                 /\ split_params_of sch (rejoin_params a b) = (a, b)).
  { intros i Hk Ha Hb Hre. unfold rejoin_params in *.
    destruct (truthy b) eqn:Hbt.
    - apply Hsame. rewrite ?Hbt. subst a b. symmetry. exact Hk.
    - apply truthy_false in Hbt. rewrite Hbt in *. split.
      + exists [chr ";"]. rewrite Hk at 1. rewrite <- Hb, <- Ha. reflexivity.
      + destruct (contains (chr ";") a) eqn:Hs; [auto |].
        unfold split_params_of. rewrite Hs, andb_false_r. reflexivity. }
  unfold split_params_of in Hsplit.
  destruct (str_in sch uses_params && contains (chr ";") url) eqn:Hguard.
  2:{ injection Hsplit as <- <-. apply Hsame. reflexivity. }
  apply andb_prop in Hguard as [Hsch Hsemi].
  unfold _splitparams in Hsplit.
  destruct (contains (chr "/") url) eqn:Hslash.
  - destruct (rfind (chr "/") url) as [r |] eqn:Hr.
    2:{ injection Hsplit as <- <-. apply Hsame. reflexivity. }
    destruct (find_from (chr ";") r url) as [i |] eqn:Hi.
    2:{ injection Hsplit as <- <-. apply Hsame. reflexivity. }
    injection Hsplit as <- <-.
    destruct (find_from_Some _ _ _ _ Hi) as (Hri & Hk & Hl).
    apply (Hcut i Hk eq_refl eq_refl). intros Hsa.
    destruct (rfind_Some _ _ _ Hr) as [Hu Hlast].
    assert (Hlt : (r < i)%nat).
    { destruct (decide (r = i)) as [-> | Hne]; [| lia]. exfalso.
      assert (Hlen : (i < length url)%nat).
      { destruct (decide (i < length url)%nat) as [| Hge]; [assumption |].
        rewrite drop_ge in Hu by lia. rewrite take_ge in Hu by lia.
        apply (f_equal length) in Hu. rewrite length_app in Hu. simpl in Hu.
        lia. }
      assert (H1 : url !! i = Some (chr "/")).
      { rewrite Hu. rewrite lookup_app_r by (rewrite length_take; lia).
        rewrite length_take. replace (i - i `min` length url)%nat with 0%nat by lia.
        reflexivity. }
      assert (H2 : url !! i = Some (chr ";")).
      { rewrite Hk. rewrite lookup_app_r by (rewrite length_take; lia).
        rewrite length_take. replace (i - i `min` length url)%nat with 0%nat by lia.
        reflexivity. }
      rewrite H1 in H2. discriminate. }
    assert (Hrlen : (r < length url)%nat).
    { destruct (decide (r < length url)%nat) as [| Hge]; [assumption |].
      rewrite drop_ge in Hu by lia. rewrite take_ge in Hu by lia.
      apply (f_equal length) in Hu. rewrite length_app in Hu. simpl in Hu.
      lia. }
    assert (Ha : take i url
                 = take r url ++ chr "/" :: take (i - S r) (drop (S r) url)).
    { rewrite Hu at 1. rewrite take_app, length_take.
      replace (r `min` length url)%nat with r by lia.
      rewrite take_take. replace (i `min` r)%nat with r by lia.
      replace (i - r)%nat with (S (i - S r)) by lia. reflexivity. }
    assert (Hseg : lacks (chr ";") (chr "/" :: take (i - S r) (drop (S r) url))).
    { replace (chr "/" :: take (i - S r) (drop (S r) url))
        with (take (i - r) (drop r url)); [exact Hl |].
      rewrite Hu at 1. rewrite drop_app_length' by (rewrite length_take; lia).
      replace (i - r)%nat with (S (i - S r)) by lia. reflexivity. }
    unfold split_params_of. rewrite Hsch, Hsa. simpl. unfold _splitparams.
    rewrite Ha.
    rewrite contains_app. simpl. rewrite ?N.eqb_refl. simpl.
    rewrite orb_true_r.
    rewrite rfind_found by (apply lacks_take; exact Hlast).
    unfold find_from. rewrite drop_app_length.
    rewrite find_absent by exact Hseg. reflexivity.
  - destruct (find (chr ";") url) as [i |] eqn:Hi.
    + injection Hsplit as <- <-. apply find_Some in Hi as [Hk Hl].
      apply (Hcut i); [rewrite Nat.add_1_r; exact Hk | reflexivity | reflexivity |].
      intros Hsa. rewrite Hl in Hsa. discriminate.
    + apply find_None in Hi. rewrite Hi in Hsemi. discriminate.
Qed.

(** *** Characters *)

Lemma scheme_char_ascii c : scheme_char c = true -> isascii_c c = true.
Proof. intros Hc. char_props. lia. Qed.

Lemma scheme_char_lower c :
  scheme_char c = true -> lscheme_char (lower_ascii_c c) = true.
Proof.
  intros Hc. unfold lower_ascii_c. destruct (is_upper_c c) eqn:Hu; char_props; lia.
Qed.

Lemma alpha_lower c :
  isalpha_ascii_c c = true -> is_lower_c (lower_ascii_c c) = true.
Proof.
  intros Hc. unfold lower_ascii_c. destruct (is_upper_c c) eqn:Hu; char_props; lia.
Qed.

Lemma lscheme_char_props c :
  lscheme_char c = true ->
  scheme_char c = true /\ isascii_c c = true /\ lower_ascii_c c = c
  /\ 32 < c /\ c <> chr ":" /\ c <> chr "/".
Proof.
  intros Hc. unfold lower_ascii_c.
  destruct (is_upper_c c) eqn:Hu; char_props; lia.
Qed.

Lemma lower_c_alpha c :
  is_lower_c c = true -> isascii_c c = true /\ isalpha_ascii_c c = true /\ 32 < c.
Proof. intros Hc. char_props. lia. Qed.

Lemma c0_contains c : 32 < c -> contains c _WHATWG_C0_CONTROL_OR_SPACE = false.
Proof.
  intros Hc. unfold contains, _WHATWG_C0_CONTROL_OR_SPACE.
  destruct (existsb _ _) eqn:He; [| reflexivity].
  apply existsb_exists in He as (x & Hin & Hx).
  apply in_map_iff in Hin as (k & <- & Hk). apply in_seq in Hk.
  apply N.eqb_eq in Hx. lia.
Qed.

Lemma lacks_above c s : Forall (fun x => c < x) s -> lacks c s.
Proof.
  induction 1 as [| x s Hx _ IH]; [apply lacks_nil |].
  apply lacks_cons. split; [lia | exact IH].
Qed.

(** *** The network location *)

Lemma min_opt_S d o : min_opt (S d) (S <$> o) = S (min_opt d o).
Proof. destruct o; simpl; lia. Qed.

Lemma min_opt_shift k d o :
  min_opt (k + d) ((fun i => (k + i)%nat) <$> o) = (k + min_opt d o)%nat.
Proof. destruct o; simpl; lia. Qed.

Lemma netloc_end_cons x t :
  netloc_end (x :: t) = if is_netloc_delim x then 0%nat else S (netloc_end t).
Proof.
  unfold netloc_end, is_netloc_delim.
  change (U "/?#") with [chr "/"; chr "?"; chr "#"]. simpl fold_left.
  simpl find.
  destruct (N.eqb_spec x (chr "/")) as [-> | H1]; simpl.
  { destruct (find (chr "?") t), (find (chr "#") t); reflexivity. }
  destruct (N.eqb_spec x (chr "?")) as [-> | H2]; simpl.
  { destruct (find (chr "/") t), (find (chr "#") t); simpl; lia. }
  destruct (N.eqb_spec x (chr "#")) as [-> | H3]; simpl.
  { destruct (find (chr "/") t), (find (chr "?") t); simpl; lia. }
  rewrite !min_opt_S. reflexivity.
Qed.

(** The cut is at the first delimiter. *)
Lemma netloc_end_spec (s : str) :
  Forall (fun c => is_netloc_delim c = false) (take (netloc_end s) s)
  /\ at_delim (drop (netloc_end s) s) = true.
Proof.
  induction s as [| x t [IHa IHb]].
  - split; [constructor | reflexivity].
  - rewrite netloc_end_cons. destruct (is_netloc_delim x) eqn:Hx; simpl.
    + split; [constructor | exact Hx].
    + split; [constructor; assumption | exact IHb].
Qed.

Lemma netloc_end_app (m T : str) :
  Forall (fun c => is_netloc_delim c = false) m -> at_delim T = true ->
  netloc_end (m ++ T) = length m.
Proof.
  intros Hm HT. induction Hm as [| x m Hx _ IH]; simpl.
  - destruct T as [| c T]; [reflexivity |].
    rewrite netloc_end_cons. simpl in HT. rewrite HT. reflexivity.
  - rewrite netloc_end_cons, Hx, IH. reflexivity.
Qed.

Lemma splitnetloc_eq (url : str) (start : nat) :
  (start <= length url)%nat ->
  _splitnetloc url start
  = (take (netloc_end (drop start url)) (drop start url),
     drop (netloc_end (drop start url)) (drop start url)).
Proof.
  intros Hlen.
  change (_splitnetloc url start)
    with (let delim :=
            min_opt (min_opt (min_opt (length url)
                                (find_from (chr "/") start url))
                       (find_from (chr "?") start url))
              (find_from (chr "#") start url) in
          (take (delim - start) (drop start url), drop delim url)).
  unfold netloc_end, find_from.
  change (U "/?#") with [chr "/"; chr "?"; chr "#"]. simpl fold_left.
  replace (length url) with (start + length (drop start url))%nat
    by (rewrite length_drop; lia).
  rewrite !min_opt_shift. simpl.
  rewrite drop_drop. f_equal. f_equal. lia.
Qed.

Lemma take2_slashes (url : str) :
  str_eqb (take 2 url) (U "//") = true ->
  (2 <= length url)%nat /\ url = U "//" ++ drop 2 url.
Proof.
  unfold str_eqb. intros Heq. apply bool_decide_eq_true in Heq.
  split.
  - apply (f_equal length) in Heq. rewrite length_take in Heq.
    change (length (U "//")) with 2%nat in Heq. lia.
  - rewrite <- Heq. symmetry. apply take_drop.
Qed.

(** *** What [urlsplit] guarantees *)

Lemma clean_app a b : clean (a ++ b) <-> clean a /\ clean b.
Proof. unfold clean. rewrite !lacks_app. tauto. Qed.

Lemma clean_drop k s : clean s -> clean (drop k s).
Proof. unfold clean. intros (? & ? & ?). auto using lacks_drop. Qed.

Lemma clean_cons_inv x s : clean (x :: s) -> clean s.
Proof. unfold clean. rewrite !lacks_cons. tauto. Qed.

Lemma clean_url_clean (url : str) : clean (_clean_url url).
Proof.
  unfold _clean_url, _UNSAFE_URL_BYTES_TO_REMOVE. simpl fold_left.
  repeat split.
  - do 2 apply remove_char_keeps. apply remove_char_lacks.
  - apply remove_char_keeps. apply remove_char_lacks.
  - apply remove_char_lacks.
Qed.

Lemma split_at_spec c u a b :
  _split_at c u = (a, b) ->
  lacks c a /\ exists r, u = a ++ r /\ ((r = [] /\ b = []) \/ r = c :: b).
Proof.
  unfold _split_at. destruct (partition_spec c u) as (x & y & Hp & Hx & Hu).
  destruct (contains c u) eqn:Hc.
  - rewrite Hp. intros [= <- <-]. split; [exact Hx |].
    exists (c :: y). split; [exact Hu | right; reflexivity].
  - intros [= <- <-]. split; [exact Hc |].
    exists []. rewrite app_nil_r. auto.
Qed.

Section UrlsplitFacts.
Context `{PyLib}.

Lemma lower_ascii (s : str) : isascii s = true -> lower s = map lower_ascii_c s.
Proof. unfold lower. intros ->. reflexivity. Qed.

Lemma lower_scheme_chars (s : str) :
  forallb scheme_char s = true ->
  lower s = map lower_ascii_c s
  /\ forallb lscheme_char (map lower_ascii_c s) = true.
Proof.
  intros Hs. split.
  - apply lower_ascii. unfold isascii. apply forallb_forall. intros x Hx.
    apply scheme_char_ascii. revert x Hx. apply forallb_forall. exact Hs.
  - apply forallb_forall. intros y Hy.
    apply in_map_iff in Hy as (x & <- & Hx).
    apply scheme_char_lower. revert x Hx. apply forallb_forall. exact Hs.
Qed.

Lemma lower_lscheme (s : str) :
  forallb lscheme_char s = true -> lower s = s.
Proof.
  intros Hs. rewrite lower_ascii.
  - induction s as [| x s IH]; [reflexivity |].
    simpl in *. apply andb_prop in Hs as [Hx Hs].
    destruct (lscheme_char_props _ Hx) as (_ & _ & -> & _).
    rewrite (IH Hs). reflexivity.
  - unfold isascii. apply forallb_forall. intros x Hx.
    rewrite forallb_forall in Hs. apply lscheme_char_props. auto.
Qed.

Lemma split_scheme_spec (u sch rest : str) :
  _split_scheme u = (sch, rest) ->
  scheme_wf sch = true /\ exists k, rest = drop k u.
Proof.
  unfold _split_scheme.
  assert (Hnone : ([], u) = (sch, rest) ->
                  scheme_wf sch = true /\ exists k, rest = drop k u).
  { intros [= <- <-]. split; [reflexivity | exists 0%nat; reflexivity]. }
  destruct (find (chr ":") u) as [[| i'] |], u as [| c0 t];
    try exact Hnone.
  destruct (isascii_c c0 && isalpha_ascii_c c0
            && forallb scheme_char (take (S i') (c0 :: t))) eqn:Hc.
  2:{ exact Hnone. }
  intros [= <- <-]. split; [| exists (S i' + 1)%nat; reflexivity].
  apply andb_prop in Hc as [Hc Hall]. apply andb_prop in Hc as [_ Halpha].
  change (take (S i') (c0 :: t)) with (c0 :: take i' t) in *.
  destruct (lower_scheme_chars _ Hall) as [-> Hl].
  unfold scheme_wf. simpl map in *. cbv iota beta.
  rewrite (alpha_lower _ Halpha). exact Hl.
Qed.

Lemma split_authority_spec (u nl rest : str) :
  _split_authority u = Ok (nl, rest) ->
  (exists k, rest = drop k u) /\ (nl <> [] -> at_delim rest = true).
Proof.
  unfold _split_authority.
  destruct (str_eqb (take 2 u) (U "//")) eqn:Hs.
  2:{ intros [= <- <-]. split; [exists 0%nat; reflexivity | congruence]. }
  destruct (take2_slashes _ Hs) as [Hlen _].
  rewrite splitnetloc_eq by exact Hlen.
  set (s := drop 2 u).
  assert (Hok : Ok (take (netloc_end s) s, drop (netloc_end s) s)
                = Ok (nl, rest) ->
                (exists k, rest = drop k u) /\ (nl <> [] -> at_delim rest = true)).
  { intros [= <- <-]. split.
    - exists (2 + netloc_end s)%nat. unfold s. apply drop_drop.
    - intros _. apply netloc_end_spec. }
  destruct (_ || _); [discriminate |].
  destruct (_ && _); [| exact Hok].
  destruct (_check_bracketed_netloc _); [exact Hok | discriminate].
Qed.

(** Every result of [urlsplit] is well formed, and after a network
    location the path is empty or starts with a slash. *)
Lemma urlsplit_wf (url : str) (sp : SplitResult) :
  urlsplit url = Ok sp ->
  wf_split sp /\ (sr_netloc sp <> [] -> path_abs (sr_path sp) = true).
Proof.
  unfold urlsplit.
  pose proof (clean_url_clean url) as Hc0.
  destruct (_split_scheme (_clean_url url)) as [sch u1] eqn:Hs.
  destruct (_split_authority u1) as [[nl u2] | e] eqn:Ha; [| discriminate].
  destruct (_split_at (chr "#") u2) as [u3 frag] eqn:Hf.
  destruct (_split_at (chr "?") u3) as [u4 q] eqn:Hq.
  destruct (_checknetloc nl); [| discriminate].
  intros [= <-]. simpl.
  destruct (split_scheme_spec _ _ _ Hs) as [Hwf [k1 ->]].
  destruct (split_authority_spec _ _ _ Ha) as [[k2 Hu2] Hdelim].
  destruct (split_at_spec _ _ _ _ Hf) as (Hl3 & r3 & Hu3 & Hr3).
  destruct (split_at_spec _ _ _ _ Hq) as (Hl4 & r4 & Hu4 & Hr4).
  assert (Hc2 : clean u2) by (rewrite Hu2; do 2 apply clean_drop; exact Hc0).
  rewrite Hu3 in Hc2. apply clean_app in Hc2 as [Hc3 Hcr3].
  pose proof Hc3 as Hc3'. rewrite Hu4 in Hc3'.
  apply clean_app in Hc3' as [Hc4 Hcr4].
  pose proof Hl3 as Hl3'. rewrite Hu4 in Hl3'.
  apply lacks_app in Hl3' as [Hl34 Hlr4].
  assert (Hcq : clean q).
  { destruct Hr4 as [[_ ->] | ->]; [repeat split | exact (clean_cons_inv _ _ Hcr4)]. }
  assert (Hcf : clean frag).
  { destruct Hr3 as [[_ ->] | ->]; [repeat split | exact (clean_cons_inv _ _ Hcr3)]. }
  assert (Hlq : lacks (chr "#") q).
  { destruct Hr4 as [[_ ->] | ->]; [apply lacks_nil |].
    apply lacks_cons in Hlr4. tauto. }
  split; [unfold wf_split; simpl; tauto |].
  intros Hnl. specialize (Hdelim Hnl).
  rewrite Hu3, Hu4 in Hdelim.
  destruct u4 as [| c u4]; [reflexivity |].
  simpl in *. apply lacks_cons in Hl4 as [H4 _]. apply lacks_cons in Hl34 as [H34 _].
  char_props. destruct Hdelim as [[Hd | Hd] | Hd]; congruence.
Qed.

End UrlsplitFacts.

(** *** Splitting what [urlunsplit] builds *)

Lemma netloc_ok_inv (m : str) :
  netloc_ok m = true ->
  truthy m = true /\ isascii m = true /\ clean m
  /\ Forall (fun c => is_netloc_delim c = false) m
  /\ lacks (chr "[") m /\ lacks (chr "]") m.
Proof.
  unfold netloc_ok. intros Hm.
  apply andb_prop in Hm as [Hm Hl]. apply andb_prop in Hm as [Ht Ha].
  simpl in Hl. rewrite !andb_true_iff, !negb_true_iff in Hl.
  destruct Hl as (H9 & H13 & H10 & Hs & Hq & Hh & Ho & Hc & _).
  repeat split; try assumption.
  apply Forall_forall. intros c Hc'.
  destruct (is_netloc_delim c) eqn:Hd; [| reflexivity]. exfalso.
  apply contains_true_iff in Hc'. unfold is_netloc_delim in Hd.
  rewrite !orb_true_iff, !N.eqb_eq in Hd.
  destruct Hd as [[-> | ->] | ->]; unfold lacks in *; congruence.
Qed.

Lemma path_abs_no_slash_added (url : str) :
  path_abs url = true ->
  truthy url && negb (str_eqb (take 1 url) (U "/")) = false.
Proof.
  destruct url as [| c t]; [reflexivity |]. simpl. intros Hc.
  apply N.eqb_eq in Hc. subst c. unfold str_eqb.
  rewrite bool_decide_eq_true_2; [reflexivity |]. rewrite take_0. reflexivity.
Qed.

Lemma urlunsplit_shape (sp : SplitResult) :
  truthy (sr_netloc sp) = true -> path_abs (sr_path sp) = true ->
  urlunsplit sp
  = with_scheme (sr_scheme sp)
      (U "//" ++ sr_netloc sp ++ sr_path sp
       ++ with_part (U "?") (sr_query sp) ++ with_part (U "#") (sr_fragment sp)).
Proof.
  intros Hm Hp. unfold urlunsplit, with_scheme, with_part.
  rewrite Hm, (path_abs_no_slash_added _ Hp). cbv beta iota zeta. simpl orb.
  cbv iota.
  destruct (truthy (sr_scheme sp)), (truthy (sr_query sp)),
    (truthy (sr_fragment sp));
    rewrite <- ?app_assoc, ?app_nil_r; reflexivity.
Qed.

Lemma with_part_lacks c mark part :
  lacks c mark -> lacks c part -> lacks c (with_part mark part).
Proof.
  intros Hm Hp. unfold with_part.
  destruct (truthy part); [apply lacks_app; auto | apply lacks_nil].
Qed.

Lemma scheme_wf_inv (sch : str) :
  scheme_wf sch = true ->
  sch = [] \/ exists c t, sch = c :: t /\ is_lower_c c = true
                          /\ forallb lscheme_char sch = true.
Proof.
  destruct sch as [| c t]; [auto |]. unfold scheme_wf. intros Hs.
  apply andb_prop in Hs as [Hc Hall]. right. eauto.
Qed.

Lemma lscheme_lacks c (sch : str) :
  c <= 32 \/ c = chr ":" \/ c = chr "/" ->
  forallb lscheme_char sch = true -> lacks c sch.
Proof.
  intros Hc Hs. induction sch as [| x t IH]; [apply lacks_nil |].
  simpl in Hs. apply andb_prop in Hs as [Hx Ht].
  apply lacks_cons. split; [| auto].
  destruct (lscheme_char_props _ Hx) as (_ & _ & _ & H32 & Hcol & Hsl).
  destruct Hc as [Hc | [-> | ->]]; [lia | assumption | assumption].
Qed.

Lemma with_scheme_lacks c sch rest :
  c <= 32 -> scheme_wf sch = true -> lacks c rest ->
  lacks c (with_scheme sch rest).
Proof.
  intros Hc Hs Hr. unfold with_scheme.
  destruct (scheme_wf_inv _ Hs) as [-> | (x & t & -> & _ & Hall)];
    [exact Hr |].
  simpl truthy. cbv iota. rewrite !lacks_app. split; [| split].
  - apply lscheme_lacks; auto.
  - change (U ":") with [58]. apply lacks_cons.
    split; [lia | apply lacks_nil].
  - exact Hr.
Qed.

Section Reparse.
Context `{PyLib}.

Lemma clean_built (sp : SplitResult) :
  wf_split sp -> clean (sr_netloc sp) ->
  clean (with_scheme (sr_scheme sp)
           (U "//" ++ sr_netloc sp ++ sr_path sp
            ++ with_part (U "?") (sr_query sp)
            ++ with_part (U "#") (sr_fragment sp))).
Proof.
  intros (Hs & Hp & Hq & Hf & _) Hm. unfold clean in *.
  repeat split;
    (apply with_scheme_lacks; [lia | exact Hs |];
     rewrite !lacks_app; repeat split; try tauto;
     try (apply with_part_lacks; [| tauto]);
     reflexivity).
Qed.

Lemma clean_url_built (sch rest : str) :
  scheme_wf sch = true -> clean (with_scheme sch (U "//" ++ rest)) ->
  _clean_url (with_scheme sch (U "//" ++ rest))
  = with_scheme sch (U "//" ++ rest).
Proof.
  intros Hs (H9 & H13 & H10). unfold _clean_url.
  assert (Hstrip : lstrip _WHATWG_C0_CONTROL_OR_SPACE
                     (with_scheme sch (U "//" ++ rest))
                   = with_scheme sch (U "//" ++ rest)).
  { unfold with_scheme.
    destruct (scheme_wf_inv _ Hs) as [-> | (x & t & -> & Hx & _)].
    - simpl truthy. cbv iota. change (U "//" ++ rest) with (47 :: 47 :: rest).
      apply lstrip_id. apply c0_contains. lia.
    - simpl truthy. cbv iota. simpl app. apply lstrip_id. apply c0_contains.
      apply lower_c_alpha in Hx. tauto. }
  rewrite Hstrip. unfold _UNSAFE_URL_BYTES_TO_REMOVE. simpl fold_left.
  rewrite (remove_char_id 9) by exact H9.
  rewrite (remove_char_id 13) by exact H13.
  apply remove_char_id. exact H10.
Qed.

Lemma split_scheme_cons (c0 : N) (t : str) (i' : nat) :
  find (chr ":") (c0 :: t) = Some (S i') ->
  isascii_c c0 && isalpha_ascii_c c0
  && forallb scheme_char (take (S i') (c0 :: t)) = true ->
  _split_scheme (c0 :: t)
  = (lower (take (S i') (c0 :: t)), drop (S i' + 1) (c0 :: t)).
Proof. intros Hf Hc. unfold _split_scheme. rewrite Hf, Hc. reflexivity. Qed.

Lemma split_scheme_built (sch rest : str) :
  scheme_wf sch = true ->
  _split_scheme (with_scheme sch (U "//" ++ rest)) = (sch, U "//" ++ rest).
Proof.
  intros Hs. unfold with_scheme.
  destruct (scheme_wf_inv _ Hs) as [-> | (x & t & -> & Hx & Hall)].
  - simpl truthy. cbv iota. change (U "//" ++ rest) with (47 :: 47 :: rest).
    unfold _split_scheme.
    destruct (find (chr ":") (47 :: 47 :: rest)) as [[| i] |]; reflexivity.
  - simpl truthy. cbv iota.
    change (U ":" ++ U "//" ++ rest) with (chr ":" :: U "//" ++ rest).
    assert (Hsc : forallb scheme_char (x :: t) = true).
    { apply forallb_forall. intros y Hy. rewrite forallb_forall in Hall.
      apply lscheme_char_props. auto. }
    assert (Htake : take (S (length t)) ((x :: t) ++ chr ":" :: U "//" ++ rest)
                    = x :: t) by apply (take_app_length (x :: t)).
    assert (Hdrop : drop (S (length t) + 1)
                      ((x :: t) ++ chr ":" :: U "//" ++ rest)
                    = U "//" ++ rest).
    { replace (S (length t) + 1)%nat with (S (length (x :: t))) by (simpl; lia).
      change ((x :: t) ++ chr ":" :: U "//" ++ rest)
        with ((x :: t) ++ [chr ":"] ++ U "//" ++ rest).
      rewrite app_assoc.
      apply drop_app_length'. rewrite length_app. simpl. lia. }
    assert (Hcond : isascii_c x && isalpha_ascii_c x
                    && forallb scheme_char
                         (take (S (length t))
                            ((x :: t) ++ chr ":" :: U "//" ++ rest)) = true).
    { rewrite Htake, Hsc. destruct (lower_c_alpha _ Hx) as (-> & -> & _).
      reflexivity. }
    assert (Hfind : find (chr ":") ((x :: t) ++ chr ":" :: U "//" ++ rest)
                    = Some (S (length t))).
    { apply (find_found (chr ":") (x :: t)). apply lscheme_lacks; auto. }
    rewrite <- Hdrop at 2. rewrite <- (lower_lscheme _ Hall) at 2.
    rewrite <- Htake at 2.
    exact (split_scheme_cons x _ _ Hfind Hcond).
Qed.

Lemma split_authority_built (m T : str) :
  netloc_ok m = true -> at_delim T = true ->
  _split_authority (U "//" ++ m ++ T) = Ok (m, T).
Proof.
  intros Hm HT.
  destruct (netloc_ok_inv _ Hm) as (_ & _ & _ & Hd & Ho & Hc).
  unfold _split_authority.
  change (take 2 (U "//" ++ m ++ T)) with (U "//").
  unfold str_eqb at 1. rewrite bool_decide_eq_true_2 by reflexivity.
  rewrite splitnetloc_eq by (rewrite length_app; simpl; lia).
  change (drop 2 (U "//" ++ m ++ T)) with (m ++ T).
  rewrite (netloc_end_app _ _ Hd HT), take_app_length, drop_app_length.
  unfold lacks in Ho, Hc. rewrite Ho, Hc. reflexivity.
Qed.

Lemma split_at_built c (a part : str) :
  lacks c a ->
  _split_at c (a ++ with_part [c] part) = (a, part).
Proof.
  intros Ha. unfold with_part, _split_at.
  destruct part as [| p part]; simpl truthy; cbv iota.
  - rewrite app_nil_r. unfold lacks in Ha. rewrite Ha. reflexivity.
  - change ([c] ++ p :: part) with (c :: p :: part).
    rewrite contains_app. simpl. rewrite N.eqb_refl, orb_true_r.
    rewrite partition_found by exact Ha. reflexivity.
Qed.

Lemma checknetloc_ascii (m : str) : isascii m = true -> _checknetloc m = Ok tt.
Proof. intros Hm. unfold _checknetloc. rewrite Hm, orb_true_r. reflexivity. Qed.

(** Splitting what [urlunsplit] builds gives back its argument. *)
Lemma urlsplit_urlunsplit (sp : SplitResult) :
  wf_split sp -> path_abs (sr_path sp) = true ->
  netloc_ok (sr_netloc sp) = true ->
  urlsplit (urlunsplit sp) = Ok sp.
Proof.
  intros Hwf Hp Hm.
  destruct (netloc_ok_inv _ Hm) as (Hmt & Hma & Hmc & _).
  pose proof Hwf as (Hs & Hcp & Hcq & Hcf & Hlq & Hlh & Hlqh).
  rewrite urlunsplit_shape by assumption.
  unfold urlsplit.
  rewrite clean_url_built by (auto using clean_built).
  rewrite split_scheme_built by exact Hs.
  rewrite split_authority_built; [| exact Hm |].
  2:{ destruct (sr_path sp) as [| c t]; simpl in *.
      - unfold with_part.
        destruct (truthy (sr_query sp)); [reflexivity |].
        destruct (truthy (sr_fragment sp)); reflexivity.
      - apply N.eqb_eq in Hp. subst c. reflexivity. }
  rewrite app_assoc.
  change (U "#") with [chr "#"]. change (U "?") with [chr "?"].
  rewrite split_at_built.
  2:{ apply lacks_app. split; [exact Hlh |].
      apply with_part_lacks; [reflexivity | exact Hlqh]. }
  rewrite split_at_built by exact Hlq.
  rewrite checknetloc_ascii by exact Hma.
  destruct sp. reflexivity.
Qed.

Lemma urlparse_inv (url : str) (p : ParseResult) :
  urlparse url = Ok p ->
  exists sp, urlsplit url = Ok sp
             /\ split_params_of (sr_scheme sp) (sr_path sp) = (path p, params p)
             /\ scheme p = sr_scheme sp /\ netloc p = sr_netloc sp
             /\ query p = sr_query sp /\ fragment p = sr_fragment sp.
Proof.
  unfold urlparse. destruct (urlsplit url) as [sp | e]; [| discriminate].
  destruct (split_params_of _ _) as [a b] eqn:Hab. intros [= <-]. simpl.
  exists sp. repeat split; try reflexivity. exact Hab.
Qed.

Lemma rejoin_prefix_abs (a b r : str) :
  path_abs (rejoin_params a b ++ r) = true -> path_abs (rejoin_params a b) = true.
Proof. destruct (rejoin_params a b); [reflexivity | exact (fun H => H)]. Qed.

Lemma rejoin_starts_slash (a b : str) :
  startswith (U "/") a = true -> path_abs (rejoin_params a b) = true.
Proof.
  intros Ha. apply startswith_inv in Ha as [t ->]. unfold rejoin_params.
  destruct (truthy b); reflexivity.
Qed.

(** Parsing a URL, putting a well-behaved host in place of its network
    location, and parsing what [urlunparse] makes of that, gives the first
    parse with only the network location changed.  The URL must have had
    a network location, or a path that starts with a slash. *)
Theorem urlparse_urlunparse_netloc (url m : str) (p : ParseResult) :
  urlparse url = Ok p ->
  netloc p <> [] \/ startswith (U "/") (path p) = true ->
  netloc_ok m = true ->
  urlparse (urlunparse (replace_netloc p m)) = Ok (replace_netloc p m).
Proof.
  intros Hp Habs Hm.
  destruct (urlparse_inv _ _ Hp) as (sp & Hsp & Hsplit & Hsch & Hnl & Hq & Hf).
  destruct (urlsplit_wf _ _ Hsp) as [Hwf Hpa].
  destruct (split_params_stable _ _ _ _ Hsplit) as [[r Hr] Hstable].
  set (sp' := {| sr_scheme := sr_scheme sp; sr_netloc := m;
                 sr_path := rejoin_params (path p) (params p);
                 sr_query := sr_query sp; sr_fragment := sr_fragment sp |}).
  assert (Hun : urlunparse (replace_netloc p m) = urlunsplit sp').
  { unfold urlunparse, replace_netloc, sp'. simpl.
    rewrite Hsch, Hq, Hf. reflexivity. }
  assert (Hwf' : wf_split sp').
  { destruct Hwf as (Hs & Hcp & Hcq & Hcf & Hlq & Hlh & Hlqh).
    rewrite Hr in Hcp, Hlq, Hlh.
    apply clean_app in Hcp as [Hcp _]. apply lacks_app in Hlq as [Hlq _].
    apply lacks_app in Hlh as [Hlh _].
    unfold wf_split, sp'. simpl. tauto. }
  assert (Habs' : path_abs (sr_path sp') = true).
  { unfold sp'. simpl. destruct Habs as [Hne | Hsl].
    - apply (rejoin_prefix_abs _ _ r). rewrite <- Hr. apply Hpa. congruence.
    - apply rejoin_starts_slash. exact Hsl. }
  rewrite Hun. unfold urlparse.
  rewrite (urlsplit_urlunsplit sp' Hwf' Habs' Hm).
  unfold sp' at 1 2. simpl sr_scheme. simpl sr_path. rewrite Hstable.
  unfold replace_netloc, sp'. simpl. rewrite Hsch, Hq, Hf. reflexivity.
Qed.

End Reparse.

(** *** Rewriting *)

Lemma mirror_facts (k m : str) :
  DEFAULT_MIRRORS !! k = Some m ->
  m ∈ SKIP_HOSTS /\ netloc_ok m = true /\ truthy m = true.
Proof.
  intros Hk. apply mirror_entries in Hk.
  repeat (apply elem_of_cons in Hk as [Hk | Hk];
          [ injection Hk as -> ->;
            split; [apply skip_hosts_dec |]; vm_compute; auto | ]).
  apply elem_of_nil in Hk. destruct Hk.
Qed.

Lemma ig_mirror :
  DEFAULT_MIRRORS !! U "instagram.com" = Some (U "kkinstagram.com").
Proof. vm_compute. reflexivity. Qed.

Section Rewrite.
Context `{PyLib}.

(** The host that [_rewrite_one] reads from a URL whose network location
    is a mirror host is that mirror host. *)
Lemma mirror_hostname (p : ParseResult) (k m : str) :
  DEFAULT_MIRRORS !! k = Some m ->
  lower (default [] (hostname (replace_netloc p m))) = m.
Proof.
  intros Hk. apply mirror_entries in Hk.
  unfold hostname, replace_netloc. simpl netloc.
  repeat (apply elem_of_cons in Hk as [Hk | Hk];
          [ injection Hk as -> ->; vm_compute; reflexivity | ]).
  apply elem_of_nil in Hk. destruct Hk.
Qed.

Lemma pick_source_mirror (host src : str) :
  _pick_source host = Some src ->
  truthy src = true /\ exists m, DEFAULT_MIRRORS !! src = Some m.
Proof.
  unfold _pick_source.
  repeat (destruct (_ : bool);
          [ intros [= <-]; split; [reflexivity |];
            eexists; vm_compute; reflexivity | ]).
  discriminate.
Qed.

Lemma hostname_netloc (p : ParseResult) :
  truthy (lower (default [] (hostname p))) = true -> netloc p <> [].
Proof.
  intros Hh Hn. unfold hostname in Hh. rewrite Hn in Hh.
  vm_compute in Hh. discriminate.
Qed.

Lemma supported_prefix_slash (s : str) :
  existsb (fun pre => startswith pre s) SUPPORTED_IG_POST_PREFIXES = true ->
  startswith (U "/") s = true.
Proof.
  intros Hex. apply existsb_exists in Hex as (pre & Hin & Hpre).
  apply startswith_inv in Hpre as [t ->].
  unfold SUPPORTED_IG_POST_PREFIXES in Hin.
  repeat (destruct Hin as [<- | Hin]; [vm_compute; reflexivity |]).
  destruct Hin.
Qed.

Lemma classify_ig_path_mirror (p : ParseResult) (canonical m : str)
    (c : option str) :
  classify_ig_path p canonical = (Some m, c) ->
  m = urlunparse (replace_netloc p (U "kkinstagram.com"))
  /\ c = Some canonical
  /\ startswith STORY_PREFIX (path p) = false
  /\ startswith (U "/") (path p) = true.
Proof.
  unfold classify_ig_path. rewrite ig_mirror.
  destruct (startswith STORY_PREFIX (path p)); [discriminate |].
  destruct (existsb _ _) eqn:Hsup; [| discriminate].
  simpl truthy. cbv iota. intros [= <- <-].
  auto using supported_prefix_slash.
Qed.

Lemma bind_lift {A B} (r : result A) (k : A -> M B) (w : World) :
  (lift r ≫= k) w
  = match r with
    | Ok a => k a w
    | Raise e => (Raise e, w)
    end.
Proof. destruct r; reflexivity. Qed.

Lemma bind_ok {A B} (m : M A) (k : A -> M B) (w w1 : World) (a : A) :
  m w = (Ok a, w1) -> (m ≫= k) w = k a w1.
Proof. intros Hm. unfold mbind, M_bind. rewrite Hm. reflexivity. Qed.

(** Where a mirror URL of [_rewrite_instagram] comes from. *)
Lemma rewrite_instagram_mirror (url m : str) (c : option str) (w w' : World) :
  _rewrite_instagram url w = (Ok (Some m, c), w') ->
  exists (u : str) (p : ParseResult),
    urlparse u = Ok p /\ c = Some u
    /\ m = urlunparse (replace_netloc p (U "kkinstagram.com"))
    /\ startswith STORY_PREFIX (path p) = false
    /\ startswith (U "/") (path p) = true.
Proof.
  run_bot.
  destruct (urlparse url) as [p | e] eqn:Hp; [| discriminate].
  destruct (startswith (U "/share/") (path p)).
  - destruct (_resolve_instagram_share url w) as [[[final |] | e] w1];
      try discriminate.
    destruct (truthy final); [| discriminate].
    destruct (urlparse final) as [p' | e] eqn:Hp'; [| discriminate].
    intros [= Hc <-]. apply classify_ig_path_mirror in Hc.
    exists final, p'. tauto.
  - intros [= Hc <-]. apply classify_ig_path_mirror in Hc.
    exists url, p. tauto.
Qed.

(** Where a mirror URL of [_rewrite_one] comes from. *)
Lemma rewrite_one_mirror (url m : str) (c : option str) (w w' : World) :
  _rewrite_one url w = (Ok (Some m, c), w') ->
  exists (u : str) (p : ParseResult) (k mir : str),
    urlparse u = Ok p /\ DEFAULT_MIRRORS !! k = Some mir
    /\ m = urlunparse (replace_netloc p mir)
    /\ (netloc p <> [] \/ startswith (U "/") (path p) = true)
    /\ (forall canon, c = Some canon ->
          u = canon /\ startswith STORY_PREFIX (path p) = false).
Proof.
  unfold _rewrite_one, try_except. rewrite bind_lift.
  destruct (urlparse url) as [p | e] eqn:Hp; [| discriminate].
  destruct (truthy (lower (default [] (hostname p)))) eqn:Hhost;
    [| discriminate].
  destruct (bool_decide _); [discriminate |].
  cbn [negb orb].
  destruct (endswith (U "instagram.com") _).
  - destruct (_rewrite_instagram url w) as [[r | e] w1] eqn:Hig;
      [| discriminate].
    intros [= -> ->].
    apply rewrite_instagram_mirror in Hig
      as (u & p' & Hp' & -> & -> & Hstory & Hslash).
    exists u, p', (U "instagram.com"), (U "kkinstagram.com").
    repeat split; auto using ig_mirror; congruence.
  - destruct (_pick_source _) as [src |] eqn:Hsrc; [| discriminate].
    destruct (pick_source_mirror _ _ Hsrc) as [-> [mir Hmir]].
    rewrite Hmir. destruct (mirror_facts _ _ Hmir) as (_ & _ & ->).
    unfold ret, mret, M_ret.
    destruct (str_eqb _ url); [discriminate |].
    intros [= <- <- <-].
    exists url, p, src, mir. repeat split; auto.
    + left. apply hostname_netloc. exact Hhost.
    + discriminate.
    + discriminate.
Qed.

Lemma rewrite_one_skipped (m mir : str) (p' : ParseResult) (w : World) :
  urlparse m = Ok p' -> lower (default [] (hostname p')) = mir ->
  truthy mir = true -> mir ∈ SKIP_HOSTS ->
  _rewrite_one m w = (Ok (None, None), w).
Proof.
  intros Hp Hh Ht Hs. unfold _rewrite_one, try_except. rewrite bind_lift.
  rewrite Hp, Hh, Ht. rewrite bool_decide_eq_true_2 by exact Hs.
  reflexivity.
Qed.

Lemma rewrite_one_total (url : str) (w : World) :
  exists r w', _rewrite_one url w = (Ok r, w').
Proof.
  unfold _rewrite_one, try_except.
  destruct ((lift (urlparse url) ≫= _) w) as [[r | e] w1]; eauto.
Qed.


Lemma pick_source_nil : _pick_source [] = None.
Proof. vm_compute. reflexivity. Qed.




End Rewrite.

(** C1: when [_rewrite_one] returns a mirror URL, that URL parses, its
    host is a mirror host of the table and so a member of [SKIP_HOSTS],
    and [_rewrite_one] applied to it returns no mirror and no canonical URL
    and leaves the world as it is. *)
Theorem rewrite_one_idempotent `{PyLib} (url m : str) (c : option str)
    (w w' : World) :
  _rewrite_one url w = (Ok (Some m, c), w') ->
  exists (p' : ParseResult) (k mir : str),
    urlparse m = Ok p'
    /\ DEFAULT_MIRRORS !! k = Some mir
    /\ lower (default [] (hostname p')) = mir
    /\ (mir ∈ SKIP_HOSTS)
    /\ forall w2, _rewrite_one m w2 = (Ok (None, None), w2).
Proof.
  intros Hone.
  apply rewrite_one_mirror in Hone as (u & p & k & mir & Hp & Hk & -> & Habs & _).
  destruct (mirror_facts _ _ Hk) as (Hskip & Hok & Ht).
  pose proof (urlparse_urlunparse_netloc _ _ _ Hp Habs Hok) as Hre.
  pose proof (mirror_hostname p _ _ Hk) as Hhost.
  exists (replace_netloc p mir), k, mir. repeat split; try assumption.
  intros w2. exact (rewrite_one_skipped _ _ _ w2 Hre Hhost Ht Hskip).
Qed.

Lemma rewrite_one_idempotent_witness :
  exists (p' : ParseResult) (k mir : str),
    @urlparse ascii_lib (U "https://fixupx.com/user/status/1?s=20") = Ok p'
    /\ DEFAULT_MIRRORS !! k = Some mir
    /\ @lower ascii_lib (default [] (@hostname ascii_lib p')) = mir
    /\ (mir ∈ SKIP_HOSTS)
    /\ forall w2, @_rewrite_one ascii_lib (U "https://fixupx.com/user/status/1?s=20") w2
                  = (Ok (None, None), w2).
Proof.
  apply (@rewrite_one_idempotent ascii_lib
           (U "https://x.com/user/status/1?s=20") _ None offline offline).
  vm_compute. reflexivity.
Defined.

(** C6 as stated fails: besides the host, the port of the URL changes
    (it is dropped with the rest of the network location). *)
Lemma rewrite_drops_port :
  ~ (forall (L : PyLib) (url new_url : str) (p p' : ParseResult) (w : World),
       _rewrite_one url w = (Ok (Some new_url, None), w) ->
       urlparse url = Ok p -> urlparse new_url = Ok p' ->
       port_text p' = port_text p).
Proof.
  intros Hall.
  specialize (Hall ascii_lib (U "https://x.com:8080/a") (U "https://fixupx.com/a")
                {| scheme := U "https"; netloc := U "x.com:8080";
                   path := U "/a"; params := []; query := []; fragment := [] |}
                {| scheme := U "https"; netloc := U "fixupx.com";
                   path := U "/a"; params := []; query := []; fragment := [] |}
                offline).
  vm_compute in Hall. specialize (Hall eq_refl eq_refl eq_refl).
  discriminate.
Qed.

(** C6 (amended): for a URL that parses, whose host is not in
    [SKIP_HOSTS], does not end in [instagram.com] and classifies to a
    source key, the generic rewrite returns a URL that parses to the same
    scheme, path, parameters, query and fragment; the network location as
    a whole, with any user information and port, is replaced by the mirror
    host of the key.  The world is left as it is. *)
Theorem generic_rewrite_swaps_netloc `{PyLib} (url src : str)
    (p : ParseResult) (w : World) :
  urlparse url = Ok p ->
  lower (default [] (hostname p)) ∉ SKIP_HOSTS ->
  endswith (U "instagram.com") (lower (default [] (hostname p))) = false ->
  _pick_source (lower (default [] (hostname p))) = Some src ->
  exists (mirror new_url : str) (p' : ParseResult),
    DEFAULT_MIRRORS !! src = Some mirror
    /\ _rewrite_one url w = (Ok (Some new_url, None), w)
    /\ urlparse new_url = Ok p'
    /\ netloc p' = mirror
    /\ scheme p' = scheme p /\ path p' = path p /\ params p' = params p
    /\ query p' = query p /\ fragment p' = fragment p.
Proof.
  intros Hp Hskip Hig Hsrc.
  destruct (pick_source_mirror _ _ Hsrc) as [Hts [mir Hmir]].
  destruct (mirror_facts _ _ Hmir) as (Hmskip & Hok & Htm).
  assert (Hhost : truthy (lower (default [] (hostname p))) = true).
  { destruct (lower (default [] (hostname p))); [| reflexivity].
    pose proof pick_source_nil as Hnil. congruence. }
  pose proof (hostname_netloc _ Hhost) as Hnl.
  pose proof (urlparse_urlunparse_netloc _ _ _ Hp (or_introl Hnl) Hok) as Hre.
  assert (Hne : str_eqb (urlunparse (replace_netloc p mir)) url = false).
  { unfold str_eqb. apply bool_decide_eq_false_2. intros Heq.
    rewrite Heq, Hp in Hre. injection Hre as Hre.
    apply Hskip. rewrite Hre at 1.
    rewrite (mirror_hostname p _ _ Hmir). exact Hmskip. }
  exists mir, (urlunparse (replace_netloc p mir)), (replace_netloc p mir).
  split; [exact Hmir |]. split; [| split; [exact Hre | repeat split]].
  unfold _rewrite_one, try_except. rewrite bind_lift.
  rewrite Hp, Hhost. rewrite bool_decide_eq_false_2 by exact Hskip.
  cbn [negb orb]. rewrite Hig, Hsrc, Hts, Hmir, Htm.
  unfold ret, mret, M_ret. rewrite Hne. reflexivity.
Qed.

Lemma generic_rewrite_swaps_netloc_witness :
  exists (mirror new_url : str) (p' : ParseResult),
    DEFAULT_MIRRORS !! U "reddit.com" = Some mirror
    /\ @_rewrite_one ascii_lib (U "HTTPS://user@Old.Reddit.com:443/r/a;b?x=1#top")
         offline
       = (Ok (Some new_url, None), offline)
    /\ @urlparse ascii_lib new_url = Ok p'
    /\ netloc p' = mirror
    /\ scheme p' = U "https" /\ path p' = U "/r/a" /\ params p' = U "b"
    /\ query p' = U "x=1" /\ fragment p' = U "top".
Proof.
  apply (@generic_rewrite_swaps_netloc ascii_lib
           (U "HTTPS://user@Old.Reddit.com:443/r/a;b?x=1#top") (U "reddit.com")
           {| scheme := U "https"; netloc := U "user@Old.Reddit.com:443";
              path := U "/r/a"; params := U "b"; query := U "x=1";
              fragment := U "top" |} offline).
  - vm_compute. reflexivity.
  - intros Hin. apply skip_hosts_dec in Hin. vm_compute in Hin. discriminate.
  - vm_compute. reflexivity.
  - vm_compute. reflexivity.
Defined.



(** ** Further properties of the text helpers *)

Lemma lstrip_ws_nil_iff (z : str) :
  lstrip_ws z = [] <-> forallb isspace_c z = true.
Proof.
  induction z as [| x t IH]; simpl; [tauto |].
  destruct (isspace_c x); simpl; [exact IH |]. split; discriminate.
Qed.

Lemma strip_nil_iff (z : str) : strip z = [] <-> lstrip_ws z = [].
Proof.
  unfold strip. destruct (lstrip_ws z) as [| x t] eqn:Hz; [tauto |].
  rewrite rstrip_ws_cons by exact (lstrip_ws_head _ _ _ Hz).
  split; discriminate.
Qed.

Lemma sub_ws_all_ws (b : bool) (s : str) :
  forallb isspace_c (sub_ws b s) = forallb isspace_c s.
Proof.
  revert b. induction s as [| x t IH]; intros b; simpl; [reflexivity |].
  destruct (isspace_c x) eqn:Hx.
  - destruct b; simpl; apply IH.
  - simpl. rewrite Hx. reflexivity.
Qed.

(** X1: what [_compact_ws] returns is in normal form: every white-space
    character in it is a single space that follows a character which is
    not white space, it neither starts nor ends with white space, and
    normalising it again changes nothing. *)
Theorem compact_ws_normal_form (s : option str) :
  single_spaced false (_compact_ws s) = true
  /\ lstrip_ws (_compact_ws s) = _compact_ws s
  /\ rstrip_ws (_compact_ws s) = _compact_ws s
  /\ _compact_ws (Some (_compact_ws s)) = _compact_ws s.
Proof.
  split; [apply compact_ws_single_spaced |].
  split; [| split; [| apply compact_ws_idem]].
  - unfold _compact_ws.
    destruct (strip_shape (sub_ws false (default [] s)))
      as [-> | (x & t & Hx & -> & _)]; [reflexivity |].
    simpl. rewrite Hx. reflexivity.
  - unfold _compact_ws, strip. apply rstrip_ws_idem.
Qed.

(** X2: [_compact_ws] returns the empty string exactly when its argument
    is [None] or has white space only. *)
Theorem compact_ws_empty_iff (s : option str) :
  _compact_ws s = [] <-> forallb isspace_c (default [] s) = true.
Proof.
  unfold _compact_ws.
  rewrite strip_nil_iff, lstrip_ws_nil_iff, sub_ws_all_ws. reflexivity.
Qed.

(** X3: for a budget of at least one, [_truncate] never returns more
    characters than the budget, and truncating twice is truncating
    once. *)
Theorem truncate_within_budget (s : option str) (max_len : Z) :
  (1 <= max_len)%Z ->
  (Z.of_nat (length (_truncate s max_len)) <= max_len)%Z
  /\ _truncate (Some (_truncate s max_len)) max_len = _truncate s max_len.
Proof.
  intros Hpos.
  assert (Hlen : (Z.of_nat (length (_truncate s max_len)) <= max_len)%Z).
  { destruct (Z.leb_spec (Z.of_nat (length (default [] s))) max_len)
      as [Hle | Hgt].
    - unfold _truncate. simpl.
      destruct (Z.leb_spec (Z.of_nat (length (default [] s))) max_len);
        [exact Hle | lia].
    - destruct s as [s |]; [| simpl in Hgt; lia].
      destruct (truncate_long s max_len Hpos Hgt) as [_ ->]. lia. }
  split; [exact Hlen |].
  unfold _truncate at 1. simpl default.
  destruct (Z.leb_spec (Z.of_nat (length (_truncate s max_len))) max_len);
    [reflexivity | lia].
Qed.

Lemma truncate_within_budget_witness :
  (Z.of_nat (length (_truncate (Some (repeat (chr "a") 7)) 5)) <= 5)%Z
  /\ _truncate (Some (_truncate (Some (repeat (chr "a") 7)) 5)) 5
     = _truncate (Some (repeat (chr "a") 7)) 5.
Proof.
  apply (truncate_within_budget (Some (repeat (chr "a") 7)) 5). lia.
Defined.

(** X4: with a budget of zero the cap does not hold: a caption that is
    not empty loses its last character, gains the ellipsis, and keeps its
    length. *)
Theorem truncate_zero_budget (s : str) :
  s <> [] ->
  _truncate (Some s) 0 = take (length s - 1) s ++ ELLIPSIS
  /\ length (_truncate (Some s) 0) = length s.
Proof.
  intros Hs. assert (Hlen : (0 < length s)%nat).
  { destruct s; [congruence | simpl; lia]. }
  assert (Heq : _truncate (Some s) 0 = take (length s - 1) s ++ ELLIPSIS).
  { unfold _truncate, slice_to. simpl default.
    destruct (Z.leb_spec (Z.of_nat (length s)) 0) as [Hle | _]; [lia |].
    simpl. f_equal. f_equal. lia. }
  split; [exact Heq |].
  rewrite Heq, length_app, length_take. simpl. lia.
Qed.

Lemma truncate_zero_budget_witness :
  _truncate (Some (U "abc")) 0 = take (length (U "abc") - 1) (U "abc") ++ ELLIPSIS
  /\ length (_truncate (Some (U "abc")) 0) = length (U "abc").
Proof. apply (truncate_zero_budget (U "abc")). discriminate. Defined.

(** ** Further properties of host classification *)

Lemma startswith_common (p q s : str) :
  startswith p s = true -> startswith q s = true ->
  startswith p q = true \/ startswith q p = true.
Proof.
  revert q s. induction p as [| a p IH]; intros q s Hp Hq; [left; reflexivity |].
  destruct q as [| b q]; [right; reflexivity |].
  destruct s as [| c s]; [discriminate |]. simpl in *.
  apply andb_prop in Hp as [Hac Hp]. apply andb_prop in Hq as [Hbc Hq].
  apply N.eqb_eq in Hac, Hbc. subst a b. rewrite N.eqb_refl. simpl.
  exact (IH _ _ Hp Hq).
Qed.

(** Two suffixes of one string: one is a suffix of the other. *)
Lemma endswith_common (a b h : str) :
  endswith a h = true -> endswith b h = true ->
  endswith a b = true \/ endswith b a = true.
Proof. unfold endswith. apply startswith_common. Qed.

Lemma lower_ascii_c_idem c : lower_ascii_c (lower_ascii_c c) = lower_ascii_c c.
Proof.
  unfold lower_ascii_c. destruct (is_upper_c c) eqn:Hu; [| rewrite Hu; reflexivity].
  destruct (is_upper_c (c + 32)) eqn:Hu'; [| reflexivity].
  char_props. lia.
Qed.

Lemma lower_ascii_c_ascii c : isascii_c c = true -> isascii_c (lower_ascii_c c) = true.
Proof.
  intros Hc. unfold lower_ascii_c. destruct (is_upper_c c) eqn:Hu; [| exact Hc].
  char_props. lia.
Qed.

Section Classification.
Context `{PyLib}.

(** X5: the classifier returns no source key exactly when no key of the
    mirror table is a suffix of the lower-cased host. *)
Theorem pick_source_none_iff (host : str) :
  _pick_source host = None
  <-> forall key m, DEFAULT_MIRRORS !! key = Some m ->
                    endswith key (lower host) = false.
Proof.
  unfold _pick_source. split.
  - intros Hnone key m Hk. apply mirror_entries in Hk.
    destruct (endswith (U "twitter.com") (lower host)) eqn:H1;
      [discriminate |].
    destruct (endswith (U "x.com") (lower host)) eqn:H2; [discriminate |].
    destruct (endswith (U "instagram.com") (lower host)) eqn:H3;
      [discriminate |].
    destruct (endswith (U "reddit.com") (lower host)) eqn:H4; [discriminate |].
    destruct (endswith (U "tiktok.com") (lower host)) eqn:H5; [discriminate |].
    destruct (endswith (U "bsky.app") (lower host)) eqn:H6; [discriminate |].
    repeat (apply elem_of_cons in Hk as [Hk | Hk];
            [injection Hk as -> ->; assumption |]).
    apply elem_of_nil in Hk. destruct Hk.
  - intros Hall.
    rewrite (Hall (U "twitter.com") (U "fixupx.com")) by (vm_compute; reflexivity).
    rewrite (Hall (U "x.com") (U "fixupx.com")) by (vm_compute; reflexivity).
    rewrite (Hall (U "instagram.com") (U "kkinstagram.com"))
      by (vm_compute; reflexivity).
    rewrite (Hall (U "reddit.com") (U "rxddit.com")) by (vm_compute; reflexivity).
    rewrite (Hall (U "tiktok.com") (U "vxtiktok.com")) by (vm_compute; reflexivity).
    rewrite (Hall (U "bsky.app") (U "bskx.app")) by (vm_compute; reflexivity).
    reflexivity.
Qed.

(** X6: a host that ends, once lower-cased, in a key of the mirror table
    classifies to a source key whose mirror is the mirror of that key, on
    a label boundary or not. *)
Theorem pick_source_routes_suffix (host key m : str) :
  DEFAULT_MIRRORS !! key = Some m ->
  endswith key (lower host) = true ->
  exists src, _pick_source host = Some src /\ DEFAULT_MIRRORS !! src = Some m.
Proof.
  intros Hk Hend. apply mirror_entries in Hk. unfold _pick_source.
  assert (Hexcl : forall other,
             endswith key other = false -> endswith other key = false ->
             endswith other (lower host) = false).
  { intros other H1 H2. destruct (endswith other (lower host)) eqn:Ho;
      [| reflexivity].
    destruct (endswith_common _ _ _ Hend Ho); congruence. }
  repeat (apply elem_of_cons in Hk as [Hk | Hk];
          [ injection Hk as -> ->;
            rewrite ?Hend, ?orb_true_r;
            rewrite ?(Hexcl (U "twitter.com")), ?(Hexcl (U "x.com")),
              ?(Hexcl (U "instagram.com")), ?(Hexcl (U "reddit.com")),
              ?(Hexcl (U "tiktok.com"))
              by (vm_compute; reflexivity);
            rewrite ?Hend; simpl;
            eexists; split; [reflexivity | vm_compute; reflexivity] | ]).
  apply elem_of_nil in Hk. destruct Hk.
Qed.

(** X7: classification does not depend on the case of ASCII letters: two
    ASCII hosts that are equal up to case classify alike. *)
Theorem pick_source_case_insensitive (h1 h2 : str) :
  isascii h1 = true -> isascii h2 = true ->
  map lower_ascii_c h1 = map lower_ascii_c h2 ->
  _pick_source h1 = _pick_source h2.
Proof.
  intros H1 H2 Heq. unfold _pick_source.
  rewrite (lower_ascii h1 H1), (lower_ascii h2 H2), Heq. reflexivity.
Qed.

End Classification.

Lemma pick_source_routes_suffix_witness :
  exists src, @_pick_source ascii_lib (U "M.Old.Reddit.COM") = Some src
              /\ DEFAULT_MIRRORS !! src = Some (U "rxddit.com").
Proof.
  apply (@pick_source_routes_suffix ascii_lib (U "M.Old.Reddit.COM")
           (U "reddit.com") (U "rxddit.com")); vm_compute; reflexivity.
Defined.

Lemma pick_source_case_insensitive_witness :
  @_pick_source ascii_lib (U "WWW.TikTok.com")
  = @_pick_source ascii_lib (U "www.tiktok.COM").
Proof.
  apply (@pick_source_case_insensitive ascii_lib); vm_compute; reflexivity.
Defined.

(** ** Link extraction *)

Section Consumed.
Context {R : Type}.

(** What a combinator passes to its continuation is what it did not
    consume. *)
Lemma greedy_star_consumes f (k : str -> option R) s r :
  greedy_star f k s = Some r ->
  exists a b, s = a ++ b /\ forallb f a = true /\ k b = Some r.
Proof.
  revert r. induction s as [| x t IH]; intros r; simpl.
  - intros Hk. exists [], []. auto.
  - destruct (f x) eqn:Hx.
    + destruct (greedy_star f k t) as [r' |] eqn:Ht.
      * intros [= <-]. destruct (IH _ eq_refl) as (a & b & -> & Ha & Hk).
        exists (x :: a), b. simpl. rewrite Hx, Ha. auto.
      * intros Hk. exists [], (x :: t). auto.
    + intros Hk. exists [], (x :: t). auto.
Qed.

Lemma greedy_plus_consumes f (k : str -> option R) s r :
  greedy_plus f k s = Some r ->
  exists a b, s = a ++ b /\ a <> [] /\ forallb f a = true /\ k b = Some r.
Proof.
  destruct s as [| x t]; simpl; [discriminate |].
  destruct (f x) eqn:Hx; [| discriminate]. intros Hs.
  apply greedy_star_consumes in Hs as (a & b & -> & Ha & Hk).
  exists (x :: a), b. simpl. rewrite Hx, Ha. repeat split; auto.
Qed.

Lemma re_lit_consumes l (k : str -> option R) s r :
  re_lit l k s = Some r -> exists b, s = l ++ b /\ k b = Some r.
Proof.
  unfold re_lit. destruct (startswith l s) eqn:Hl; [| discriminate].
  apply startswith_inv in Hl as [t ->]. rewrite drop_app_length. eauto.
Qed.

Lemma re_opt_consumes f (k : str -> option R) s r :
  re_opt f k s = Some r ->
  k s = Some r \/ exists x b, s = x :: b /\ f x = true /\ k b = Some r.
Proof.
  destruct s as [| x t]; simpl; [auto |].
  destruct (f x) eqn:Hx; [| auto].
  destruct (k t) as [r' |] eqn:Ht; [| auto].
  intros [= <-]. right. eauto.
Qed.

Lemma re_one_consumes f (k : str -> option R) s r :
  re_one f k s = Some r ->
  exists x b, s = x :: b /\ f x = true /\ k b = Some r.
Proof.
  destruct s as [| x t]; simpl; [discriminate |].
  destruct (f x) eqn:Hx; [eauto | discriminate].
Qed.

(** A greedy loop over a run that ends at [b] gives one character back
    when the continuation refuses [b] and accepts one character more. *)
Lemma greedy_star_gives_back f (k : str -> option R) a l b r :
  forallb f a = true -> f l = true ->
  match b with [] => True | y :: _ => f y = false end ->
  k b = None -> k (l :: b) = Some r ->
  greedy_star f k (a ++ l :: b) = Some r.
Proof.
  intros Ha Hl Hb Hkb Hklb. induction a as [| x a IH]; simpl.
  - rewrite Hl.
    assert (Hrest : greedy_star f k b = None).
    { destruct b as [| y b']; simpl; [exact Hkb |]. rewrite Hb. exact Hkb. }
    rewrite Hrest. exact Hklb.
  - simpl in Ha. apply andb_prop in Ha as [Hx Ha]. rewrite Hx, (IH Ha).
    reflexivity.
Qed.

End Consumed.

Lemma url_last_is_body c : url_last_c c = true -> url_body_c c = true.
Proof.
  unfold url_last_c, url_body_c. intros Hc.
  apply andb_prop in Hc as [Hws Hex]. rewrite Hws. simpl.
  simpl in Hex. rewrite !negb_orb in Hex. apply andb_prop in Hex as [Hlt _].
  exact Hlt.
Qed.

(** What one match of [URL_RE] consumed. *)
Lemma url_re_match_shape (s rest : str) :
  url_re_match s = Some rest ->
  exists pre body last,
    s = pre ++ body ++ [last] ++ rest
    /\ (pre = U "http://" \/ pre = U "https://")
    /\ body <> [] /\ forallb url_body_c body = true
    /\ url_last_c last = true.
Proof.
  unfold url_re_match. intros Hm.
  apply re_lit_consumes in Hm as (s1 & -> & Hm).
  assert (Htail : forall s2, re_lit (U "://")
                    (greedy_plus url_body_c
                       (re_one url_last_c (fun rest0 => Some rest0))) s2
                  = Some rest ->
            exists body last, s2 = U "://" ++ body ++ [last] ++ rest
              /\ body <> [] /\ forallb url_body_c body = true
              /\ url_last_c last = true).
  { intros s2 H2. apply re_lit_consumes in H2 as (s3 & -> & H3).
    apply greedy_plus_consumes in H3 as (body & s4 & -> & Hne & Hb & H4).
    apply re_one_consumes in H4 as (last & s5 & -> & Hl & [= ->]).
    exists body, last. auto. }
  apply re_opt_consumes in Hm as [Hm | (x & s2 & -> & Hx & Hm)].
  - destruct (Htail _ Hm) as (body & last & -> & Hrest).
    exists (U "http://"), body, last. split; [reflexivity | auto].
  - apply N.eqb_eq in Hx. subst x.
    destruct (Htail _ Hm) as (body & last & -> & Hrest).
    exists (U "https://"), body, last. split; [reflexivity | auto].
Qed.

Lemma findall_from_found (s : str) :
  forall skip link, link ∈ findall_from skip s ->
  exists pre post, s = pre ++ link ++ post
                   /\ url_re_match (link ++ post) = Some post.
Proof.
  induction s as [| x t IH]; intros skip link Hin; simpl in Hin.
  - apply elem_of_nil in Hin. destruct Hin.
  - assert (Hlater : forall k, link ∈ findall_from k t ->
              exists pre post, x :: t = pre ++ link ++ post
                               /\ url_re_match (link ++ post) = Some post).
    { intros k Hk. destruct (IH _ _ Hk) as (pre & post & -> & Hm).
      exists (x :: pre), post. auto. }
    destruct skip as [| k]; [| eauto].
    destruct (url_re_match (x :: t)) as [rest |] eqn:Hm; [| eauto].
    apply elem_of_cons in Hin as [Hlink | Hin]; [| eauto].
    destruct (url_re_match_shape _ _ Hm) as (pre & body & last & Hs & _).
    assert (Hcut : x :: t = (pre ++ body ++ [last]) ++ rest).
    { rewrite Hs, <- !app_assoc. reflexivity. }
    assert (Htake : take (length (x :: t) - length rest) (x :: t)
                    = pre ++ body ++ [last]).
    { rewrite Hcut, length_app.
      replace (length (pre ++ body ++ [last]) + length rest - length rest)%nat
        with (length (pre ++ body ++ [last])) by lia.
      apply take_app_length. }
    assert (Hl : link = pre ++ body ++ [last]) by (rewrite Hlink; exact Htake).
    exists [], rest. rewrite Hl. simpl app at 1.
    split; [exact Hcut |]. rewrite <- Hcut. exact Hm.
Qed.

(** X8: every link that [URL_RE.findall] returns is a piece of the text,
    starts with [http://] or [https://], has at least nine characters,
    none of them white space or [<], and does not end with a closing
    mark. *)
Theorem findall_links_well_formed (text link : str) :
  link ∈ URL_RE_findall text ->
  (exists pre post, text = pre ++ link ++ post)
  /\ (startswith (U "http://") link = true
      \/ startswith (U "https://") link = true)
  /\ (9 <= length link)%nat
  /\ forallb url_body_c link = true
  /\ exists init last, link = init ++ [last] /\ url_last_c last = true.
Proof.
  intros Hin. apply findall_from_found in Hin as (pre & post & -> & Hm).
  split; [eauto |].
  destruct (url_re_match_shape _ _ Hm)
    as (sch & body & last & Hs & Hsch & Hne & Hbody & Hlast).
  assert (Hlink : link = sch ++ body ++ [last]).
  { apply (app_inv_tail post). rewrite Hs, <- !app_assoc. reflexivity. }
  assert (Hlen : (1 <= length body)%nat).
  { destruct body; [congruence | simpl; lia]. }
  subst link. split; [| split; [| split]].
  - destruct Hsch as [-> | ->]; [left | right]; apply startswith_app.
  - rewrite !length_app. destruct Hsch as [-> | ->]; simpl; lia.
  - rewrite !forallb_app, Hbody. simpl. rewrite (url_last_is_body _ Hlast).
    destruct Hsch as [-> | ->]; vm_compute; reflexivity.
  - exists (sch ++ body), last. rewrite <- app_assoc. auto.
Qed.

Lemma findall_links_well_formed_witness :
  (exists pre post, U "see (https://x.com/a?b=1)." = pre ++ U "https://x.com/a?b=1" ++ post)
  /\ (startswith (U "http://") (U "https://x.com/a?b=1") = true
      \/ startswith (U "https://") (U "https://x.com/a?b=1") = true)
  /\ (9 <= length (U "https://x.com/a?b=1"))%nat
  /\ forallb url_body_c (U "https://x.com/a?b=1") = true
  /\ exists init last, U "https://x.com/a?b=1" = init ++ [last]
                       /\ url_last_c last = true.
Proof.
  apply (findall_links_well_formed (U "see (https://x.com/a?b=1).")).
  vm_compute. apply list_elem_of_here.
Defined.

(** Matching up to a separator: on a text cut at [w], which no character
    class of the pattern accepts, a matcher does on the whole text what it
    does on the part before the cut. *)
Section Locality.
Context {R : Type} (w : N) (rest : str) (F : R -> R).

Lemma greedy_star_cut f (k k' : str -> option R) :
  f w = false ->
  (forall b, k' (b ++ w :: rest) = F <$> k b) ->
  forall b, greedy_star f k' (b ++ w :: rest) = F <$> greedy_star f k b.
Proof.
  intros Hw Hk b. induction b as [| x b IH]; simpl.
  - rewrite Hw. apply (Hk []).
  - destruct (f x); [| apply (Hk (x :: b))].
    rewrite IH. destruct (greedy_star f k b); simpl; [reflexivity |].
    apply (Hk (x :: b)).
Qed.

Lemma greedy_plus_cut f (k k' : str -> option R) :
  f w = false ->
  (forall b, k' (b ++ w :: rest) = F <$> k b) ->
  forall b, greedy_plus f k' (b ++ w :: rest) = F <$> greedy_plus f k b.
Proof.
  intros Hw Hk [| x b]; simpl; [rewrite Hw; reflexivity |].
  destruct (f x); [| reflexivity]. apply greedy_star_cut; assumption.
Qed.

Lemma startswith_cut (l b : str) :
  lacks w l -> startswith l (b ++ w :: rest) = startswith l b.
Proof.
  revert b. induction l as [| a l IH]; intros b Hl; [reflexivity |].
  apply lacks_cons in Hl as [Ha Hl].
  destruct b as [| x b]; simpl.
  - destruct (N.eqb_spec a w); [congruence | reflexivity].
  - rewrite (IH b Hl). reflexivity.
Qed.

Lemma re_lit_cut l (k k' : str -> option R) :
  lacks w l ->
  (forall b, k' (b ++ w :: rest) = F <$> k b) ->
  forall b, re_lit l k' (b ++ w :: rest) = F <$> re_lit l k b.
Proof.
  intros Hl Hk b. unfold re_lit. rewrite startswith_cut by exact Hl.
  destruct (startswith l b) eqn:Hs; [| reflexivity].
  apply startswith_inv in Hs as [t ->].
  rewrite <- app_assoc, !drop_app_length. apply Hk.
Qed.

Lemma re_opt_cut f (k k' : str -> option R) :
  f w = false ->
  (forall b, k' (b ++ w :: rest) = F <$> k b) ->
  forall b, re_opt f k' (b ++ w :: rest) = F <$> re_opt f k b.
Proof.
  intros Hw Hk [| x b]; simpl.
  - rewrite Hw. apply (Hk []).
  - destruct (f x); [| apply (Hk (x :: b))].
    rewrite (Hk b). destruct (k b); simpl; [reflexivity |].
    apply (Hk (x :: b)).
Qed.

Lemma re_one_cut f (k k' : str -> option R) :
  f w = false ->
  (forall b, k' (b ++ w :: rest) = F <$> k b) ->
  forall b, re_one f k' (b ++ w :: rest) = F <$> re_one f k b.
Proof.
  intros Hw Hk [| x b]; simpl; [rewrite Hw; reflexivity |].
  destruct (f x); [apply Hk | reflexivity].
Qed.

End Locality.

Lemma not_body_props w :
  url_body_c w = false ->
  url_last_c w = false /\ (w =? chr "s") = false
  /\ lacks w (U "http") /\ lacks w (U "://").
Proof.
  intros Hw.
  assert (Hcase : isspace_c w = true \/ w = chr "<").
  { unfold url_body_c in Hw. apply andb_false_iff in Hw as [Hw | Hw].
    - left. destruct (isspace_c w); [reflexivity | discriminate].
    - right. apply negb_false_iff, N.eqb_eq in Hw. exact Hw. }
  split.
  { destruct (url_last_c w) eqn:Hl; [| reflexivity].
    rewrite (url_last_is_body _ Hl) in Hw. discriminate. }
  destruct Hcase as [Hws | ->]; [| vm_compute; auto].
  assert (Hne : forall c, isspace_c c = false -> w <> c) by congruence.
  split; [apply N.eqb_neq, Hne; reflexivity |].
  change (U "http") with [104; 116; 116; 112].
  change (U "://") with [58; 47; 47].
  split;
    repeat (apply lacks_cons;
            split; [intros Heq; symmetry in Heq; revert Heq; apply Hne;
                    reflexivity |]);
    apply lacks_nil.
Qed.

Lemma url_re_match_cut (w : N) (rest b : str) :
  url_body_c w = false ->
  url_re_match (b ++ w :: rest)
  = (fun r => r ++ w :: rest) <$> url_re_match b.
Proof.
  intros Hw. destruct (not_body_props _ Hw) as (Hl & Hs & Hhttp & Hsep).
  unfold url_re_match.
  apply re_lit_cut; [exact Hhttp |].
  apply re_opt_cut; [exact Hs |].
  apply re_lit_cut; [exact Hsep |].
  apply greedy_plus_cut; [exact Hw |].
  apply re_one_cut; [exact Hl |].
  reflexivity.
Qed.

Lemma url_re_match_length (s r : str) :
  url_re_match s = Some r -> (length r < length s)%nat.
Proof.
  intros Hm. destruct (url_re_match_shape _ _ Hm) as (pre & body & l & -> & _).
  rewrite !length_app. simpl. lia.
Qed.

Lemma findall_from_cut (w : N) (rest g : str) :
  url_body_c w = false ->
  forall skip, (skip <= length g)%nat ->
  findall_from skip (g ++ w :: rest)
  = findall_from skip g ++ findall_from 0 rest.
Proof.
  intros Hw. induction g as [| x g IH]; intros skip Hskip; simpl in *.
  - replace skip with 0%nat by lia.
    pose proof (url_re_match_cut w rest [] Hw) as Hcut. simpl in Hcut.
    rewrite Hcut.
    destruct (url_re_match []) as [r |] eqn:Hr; [| reflexivity].
    apply url_re_match_length in Hr. simpl in Hr. lia.
  - destruct skip as [| k]; [| apply IH; lia].
    pose proof (url_re_match_cut w rest (x :: g) Hw) as Hcut.
    simpl app in Hcut. rewrite Hcut.
    destruct (url_re_match (x :: g)) as [r |] eqn:Hr; simpl;
      [| apply IH; lia].
    pose proof (url_re_match_length _ _ Hr) as Hlen. simpl in Hlen.
    rewrite !length_app. simpl length.
    replace (S (length g + S (length rest)) - (length r + S (length rest)))%nat
      with (S (length g) - length r)%nat by lia.
    destruct (S (length g) - length r)%nat as [| n] eqn:Hn; [lia |].
    simpl take. rewrite take_app_le by lia.
    f_equal. simpl length. rewrite length_take.
    apply IH. lia.
Qed.

(** X9: extraction works piece by piece: across a character that cannot
    be part of a link (white space or [<]) the links of a text are the
    links before it followed by the links after it. *)
Theorem findall_splits_at_separator (before after : str) (w : N) :
  url_body_c w = false ->
  URL_RE_findall (before ++ w :: after)
  = URL_RE_findall before ++ URL_RE_findall after.
Proof.
  intros Hw. unfold URL_RE_findall. apply findall_from_cut; [exact Hw | lia].
Qed.

Lemma findall_splits_at_separator_witness :
  URL_RE_findall (U "a http://x.com/1" ++ chr " " :: U "b https://x.com/2.")
  = URL_RE_findall (U "a http://x.com/1") ++ URL_RE_findall (U "b https://x.com/2.").
Proof.
  apply (findall_splits_at_separator (U "a http://x.com/1")
           (U "b https://x.com/2.") (chr " ")).
  vm_compute. reflexivity.
Defined.

Lemma re_lit_app {R} (l t : str) (k : str -> option R) :
  re_lit l k (l ++ t) = k t.
Proof. unfold re_lit. rewrite startswith_app, drop_app_length. reflexivity. Qed.

(** A greedy loop followed by one character of a class [g]: over a run of
    characters that [g] refuses, up to a character the loop refuses, there
    is no match. *)
Lemma greedy_star_one_none {R} f g (k : str -> option R) (q b : str) :
  forallb (fun c => negb (g c)) q = true ->
  match b with [] => True | y :: _ => f y = false /\ g y = false end ->
  greedy_star f (re_one g k) (q ++ b) = None.
Proof.
  intros Hq Hb. induction q as [| c q IH]; simpl.
  - destruct b as [| y b]; simpl; [reflexivity |].
    destruct Hb as [-> ->]. reflexivity.
  - simpl in Hq. apply andb_prop in Hq as [Hc Hq].
    apply negb_true_iff in Hc. rewrite (IH Hq), Hc.
    destruct (f c); reflexivity.
Qed.

(** The loop gives back the characters that [g] refuses and stops at the
    last one that [g] accepts. *)
Lemma greedy_star_one_last {R} f g (k : str -> option R) (a q b : str)
    (l : N) (r : R) :
  forallb f a = true -> f l = true -> g l = true ->
  forallb (fun c => negb (g c)) q = true ->
  match b with [] => True | y :: _ => f y = false /\ g y = false end ->
  k (q ++ b) = Some r ->
  greedy_star f (re_one g k) (a ++ l :: q ++ b) = Some r.
Proof.
  intros Ha Hfl Hgl Hq Hb Hk. induction a as [| x a IH]; simpl.
  - rewrite Hfl, (greedy_star_one_none f g k q b Hq Hb), Hgl. exact Hk.
  - simpl in Ha. apply andb_prop in Ha as [Hx Ha]. rewrite Hx, (IH Ha).
    reflexivity.
Qed.

Lemma url_re_match_token (pre body marks post : str) (last : N) :
  pre = U "http://" \/ pre = U "https://" ->
  body <> [] -> forallb url_body_c body = true -> url_last_c last = true ->
  forallb (fun c => negb (url_last_c c)) marks = true ->
  match post with [] => True | y :: _ => url_body_c y = false end ->
  url_re_match (pre ++ body ++ [last] ++ marks ++ post) = Some (marks ++ post).
Proof.
  intros Hpre Hne Hbody Hlast Hmarks Hpost.
  assert (Hbreak : match post with
                   | [] => True
                   | y :: _ => url_body_c y = false /\ url_last_c y = false
                   end).
  { destruct post as [| y post]; [exact I |].
    split; [exact Hpost | apply not_body_props; exact Hpost]. }
  assert (Htail : re_lit (U "://")
                    (greedy_plus url_body_c
                       (re_one url_last_c (fun rest0 => Some rest0)))
                    (U "://" ++ body ++ [last] ++ marks ++ post)
                  = Some (marks ++ post)).
  { rewrite re_lit_app. destruct body as [| x body]; [congruence |].
    simpl in Hbody. apply andb_prop in Hbody as [Hx Hbody].
    simpl. rewrite Hx.
    apply (greedy_star_one_last url_body_c url_last_c _ body marks post last);
      auto using url_last_is_body. }
  unfold url_re_match. destruct Hpre as [-> | ->].
  - change (U "http://") with (U "http" ++ U "://").
    rewrite <- app_assoc, re_lit_app.
    change (U "://" ++ body ++ [last] ++ marks ++ post)
      with (chr ":" :: (U "//" ++ body ++ [last] ++ marks ++ post)) at 1.
    unfold re_opt.
    change (chr ":" =? chr "s") with false. cbv iota.
    exact Htail.
  - change (U "https://") with (U "http" ++ chr "s" :: U "://").
    rewrite <- app_assoc, re_lit_app. simpl app. unfold re_opt.
    rewrite N.eqb_refl. simpl in Htail |- *. rewrite Htail. reflexivity.
Qed.

Lemma findall_from_skip (a b : str) :
  findall_from (length a) (a ++ b) = findall_from 0 b.
Proof. induction a as [| x a IH]; simpl; [destruct b |]; auto. Qed.

Lemma findall_from_marks (marks post : str) :
  forallb (fun c => negb (url_last_c c)) marks = true ->
  findall_from 0 (marks ++ post) = findall_from 0 post.
Proof.
  intros Hm. induction marks as [| c marks IH]; [reflexivity |].
  simpl in Hm. apply andb_prop in Hm as [Hc Hm]. apply negb_true_iff in Hc.
  simpl. assert (Hno : url_re_match (c :: marks ++ post) = None).
  { unfold url_re_match, re_lit.
    change (U "http") with [104; 116; 116; 112]. cbn [startswith].
    destruct (N.eqb_spec 104 c) as [<- | _]; [| reflexivity].
    vm_compute in Hc. discriminate. }
  rewrite Hno. exact (IH Hm).
Qed.

(** X10: a link that is followed by closing marks (characters that cannot
    end a link) and then by white space, [<] or the end of the text is
    found whole and without the marks, and the search goes on behind
    them. *)
Theorem findall_drops_closing_marks (pre body marks post : str) (last : N) :
  pre = U "http://" \/ pre = U "https://" ->
  body <> [] -> forallb url_body_c body = true -> url_last_c last = true ->
  forallb (fun c => negb (url_last_c c)) marks = true ->
  match post with [] => True | y :: _ => url_body_c y = false end ->
  URL_RE_findall (pre ++ body ++ [last] ++ marks ++ post)
  = (pre ++ body ++ [last]) :: URL_RE_findall post.
Proof.
  intros Hpre Hne Hbody Hlast Hmarks Hpost.
  pose proof (url_re_match_token pre body marks post last
                Hpre Hne Hbody Hlast Hmarks Hpost) as Hm.
  set (link := pre ++ body ++ [last]).
  assert (Hs : pre ++ body ++ [last] ++ marks ++ post = link ++ marks ++ post).
  { unfold link. rewrite <- !app_assoc. reflexivity. }
  rewrite Hs in *. unfold URL_RE_findall.
  assert (Hlink : exists x t, link = x :: t).
  { unfold link. destruct Hpre as [-> | ->]; eexists _, _; reflexivity. }
  destruct Hlink as (x & t & Hxt). rewrite Hxt in *.
  change ((x :: t) ++ marks ++ post) with (x :: (t ++ marks ++ post)) in *.
  cbn [findall_from]. rewrite Hm.
  assert (Htake : take (length (x :: t ++ marks ++ post)
                        - length (marks ++ post)) (x :: t ++ marks ++ post)
                  = x :: t).
  { change (x :: t ++ marks ++ post) with ((x :: t) ++ marks ++ post).
    rewrite length_app.
    replace (length (x :: t) + length (marks ++ post)
             - length (marks ++ post))%nat with (length (x :: t)) by lia.
    apply take_app_length. }
  cbv zeta. rewrite Htake. f_equal.
  simpl length. replace (S (length t) - 1)%nat with (length t) by lia.
  rewrite findall_from_skip.
  apply findall_from_marks. exact Hmarks.
Qed.

Lemma findall_drops_closing_marks_witness :
  URL_RE_findall (U "https://" ++ U "x.com/ab" ++ [chr "c"] ++ U ")." ++ U " ok")
  = (U "https://" ++ U "x.com/ab" ++ [chr "c"]) :: URL_RE_findall (U " ok").
Proof.
  apply (findall_drops_closing_marks (U "https://") (U "x.com/ab") (U ").")
           (U " ok") (chr "c")).
  - right. reflexivity.
  - discriminate.
  - vm_compute. reflexivity.
  - vm_compute. reflexivity.
  - vm_compute. reflexivity.
  - vm_compute. reflexivity.
Defined.

(** ** The free text *)

Lemma lstrip_ws_app (m n : str) :
  lstrip_ws (m ++ n)
  = match lstrip_ws m with
    | [] => lstrip_ws n
    | _ :: _ => lstrip_ws m ++ n
    end.
Proof.
  induction m as [| x m IH]; simpl; [destruct (lstrip_ws n); reflexivity |].
  destruct (isspace_c x); [exact IH | reflexivity].
Qed.

Lemma rstrip_ws_app (p y : str) :
  rstrip_ws (p ++ y)
  = match rstrip_ws y with
    | [] => rstrip_ws p
    | _ :: _ => p ++ rstrip_ws y
    end.
Proof.
  unfold rstrip_ws. rewrite rev_app_distr, lstrip_ws_app.
  destruct (lstrip_ws (rev y)) as [| c l] eqn:Hy; [reflexivity |].
  rewrite rev_app_distr, rev_involutive.
  destruct (rev (c :: l)) eqn:Hr; [| reflexivity].
  apply (f_equal (@length N)) in Hr. rewrite length_rev in Hr. discriminate.
Qed.

Lemma lstrip_ws_free (a : str) :
  forallb (fun c => negb (isspace_c c)) a = true -> lstrip_ws a = a.
Proof.
  destruct a as [| x a]; simpl; [reflexivity |].
  destruct (isspace_c x); [discriminate | reflexivity].
Qed.

Lemma rstrip_ws_free (a : str) :
  forallb (fun c => negb (isspace_c c)) a = true -> rstrip_ws a = a.
Proof.
  intros Ha. unfold rstrip_ws. rewrite lstrip_ws_free.
  - apply rev_involutive.
  - rewrite forallb_forall in *. intros c Hc. apply Ha, in_rev. exact Hc.
Qed.

Lemma sub_ws_free (b : bool) (a s : str) :
  forallb (fun c => negb (isspace_c c)) a = true ->
  sub_ws b (a ++ s)
  = a ++ sub_ws (match a with [] => b | _ :: _ => false end) s.
Proof.
  revert b. induction a as [| x a IH]; intros b Ha; [reflexivity |].
  simpl in Ha. apply andb_prop in Ha as [Hx Ha]. apply negb_true_iff in Hx.
  simpl. rewrite Hx, (IH false Ha). destruct a; reflexivity.
Qed.

Lemma sub_ws_true_head (s : str) : lstrip_ws (sub_ws true s) = sub_ws true s.
Proof.
  induction s as [| x s IH]; simpl; [reflexivity |].
  destruct (isspace_c x) eqn:Hx; [exact IH |]. simpl. rewrite Hx. reflexivity.
Qed.

Lemma lstrip_sub_ws (b : bool) (s : str) :
  lstrip_ws (sub_ws b s) = sub_ws true s.
Proof.
  destruct b; [apply sub_ws_true_head |].
  destruct s as [| x s]; simpl; [reflexivity |].
  destruct (isspace_c x) eqn:Hx; simpl.
  - apply sub_ws_true_head.
  - rewrite Hx. reflexivity.
Qed.

Lemma split_words_nonempty (s : str) :
  forall cur w, w ∈ split_ws_from cur s -> w <> [].
Proof.
  assert (Hrev : forall cur : str, truthy cur = true -> rev cur <> []).
  { intros [| c cur] Hc; [discriminate |]. simpl. intros Hn.
    apply app_eq_nil in Hn as [_ Hn]. discriminate. }
  induction s as [| x s IH]; intros cur w Hw; simpl in Hw.
  - destruct (truthy cur) eqn:Hc; [| apply elem_of_nil in Hw; destruct Hw].
    apply list_elem_of_singleton in Hw. subst w. auto.
  - destruct (isspace_c x); [| eauto].
    destruct (truthy cur) eqn:Hc; [| eauto].
    apply elem_of_cons in Hw as [-> | Hw]; eauto.
Qed.

Lemma join_nil_iff (sep : str) (parts : list str) :
  (forall w, w ∈ parts -> w <> []) -> join sep parts = [] -> parts = [].
Proof.
  intros Hne Hj. destruct parts as [| p rest]; [reflexivity |].
  exfalso. apply (Hne p); [apply list_elem_of_here |].
  destruct rest; simpl in Hj; [exact Hj |].
  apply app_eq_nil in Hj as [Hp _]. exact Hp.
Qed.

(** Joining the words of a text reads the same as normalising it. *)
Lemma join_split_from (s : str) :
  forall cur, forallb (fun c => negb (isspace_c c)) cur = true ->
  join (U " ") (split_ws_from cur s) = strip (sub_ws false (rev cur ++ s)).
Proof.
  induction s as [| x s IH]; intros cur Hcur.
  - assert (Hfree : forallb (fun c => negb (isspace_c c)) (rev cur) = true).
    { rewrite forallb_forall in *. intros c Hc. apply Hcur, in_rev.
      exact Hc. }
    rewrite sub_ws_free by exact Hfree. rewrite !app_nil_r.
    unfold strip. rewrite lstrip_ws_free, rstrip_ws_free by exact Hfree.
    simpl. destruct cur as [| c cur]; [reflexivity |]. reflexivity.
  - simpl split_ws_from. destruct (isspace_c x) eqn:Hx.
    + pose proof (IH [] eq_refl) as IH0. simpl rev in IH0. simpl app in IH0.
      assert (Hz : strip (sub_ws false s) = rstrip_ws (sub_ws true s)).
      { unfold strip. rewrite lstrip_sub_ws. reflexivity. }
      destruct cur as [| c cur].
      * simpl truthy. cbv iota. rewrite IH0, Hz. simpl. rewrite Hx.
        unfold strip. simpl. rewrite sub_ws_true_head. reflexivity.
      * simpl truthy. cbv iota.
        assert (Hfree : forallb (fun c => negb (isspace_c c)) (rev (c :: cur))
                        = true).
        { rewrite forallb_forall in *. intros d Hd. apply Hcur, in_rev.
          exact Hd. }
        remember (rev (c :: cur)) as a eqn:Ha.
        destruct a as [| y a].
        { apply (f_equal (@length N)) in Ha. rewrite length_rev in Ha.
          discriminate. }
        rewrite (sub_ws_free false (y :: a) (x :: s) Hfree).
        cbn [sub_ws]. rewrite Hx.
        unfold strip. rewrite lstrip_ws_app, (lstrip_ws_free _ Hfree).
        rewrite rstrip_ws_app.
        change (chr " " :: sub_ws true s) with ([chr " "] ++ sub_ws true s).
        rewrite rstrip_ws_app.
        rewrite <- Hz, <- IH0.
        destruct (split_ws_from [] s) as [| w ws] eqn:Hw.
        -- simpl. rewrite (rstrip_ws_free _ Hfree). reflexivity.
        -- destruct (join (U " ") (w :: ws)) as [| j js] eqn:Hj.
           ++ apply join_nil_iff in Hj; [discriminate |].
              intros w' Hw'. rewrite <- Hw in Hw'.
              exact (split_words_nonempty _ _ _ Hw').
           ++ rewrite join_cons by discriminate. rewrite Hj. reflexivity.
    + rewrite IH.
      * simpl rev. rewrite <- app_assoc. reflexivity.
      * simpl. rewrite Hx, Hcur. reflexivity.
Qed.

(** X11: the two ways the file normalises white space agree: joining the
    words of a text with single spaces gives what [_compact_ws] gives, so
    the free text of a message is the normalised text without its links,
    and the normalised text itself when there is no link. *)
Theorem strip_links_is_compact_ws (text : str) (links : list str) :
  join (U " ") (split_ws text) = _compact_ws (Some text)
  /\ _strip_links_from_text text links
     = _compact_ws
         (Some (fold_left (fun out l => replace_by_empty l out) links text))
  /\ _strip_links_from_text text [] = _compact_ws (Some text).
Proof.
  assert (Hjoin : forall s, join (U " ") (split_ws s) = _compact_ws (Some s)).
  { intros s. unfold split_ws. rewrite join_split_from by reflexivity.
    reflexivity. }
  assert (Hstrip : forall s l, _strip_links_from_text s l
            = _compact_ws (Some (fold_left (fun out l => replace_by_empty l out) l s))).
  { intros s l. unfold _strip_links_from_text. rewrite Hjoin.
    unfold _compact_ws. apply strip_idem. }
  split; [apply Hjoin |]. split; [apply Hstrip |]. apply (Hstrip text []).
Qed.

(** ** The rewrite and the network *)

(** What the share resolver does to the world, by the outcome of its two
    requests. *)
Lemma resolve_share_cases (url : str) (w : World) :
  exists (r : option str) (w' : World),
    _resolve_instagram_share url w = (Ok r, w')
    /\ net w' = net w
    /\ ((exists resp, net w (sent w) (head_rq url) = Responds resp
                      /\ r = Some (resp_url resp)
                      /\ sent w' = sent w ++ [head_rq url])
        \/ (exists e, net w (sent w) (head_rq url) = Fails e
                      /\ sent w' = sent w ++ [head_rq url; get_rq url]
                      /\ match net w (sent w ++ [head_rq url]) (get_rq url) with
                         | Responds resp => r = Some (resp_url resp)
                         | Fails _ => r = None
                         end)).
Proof.
  unfold head_rq, get_rq.
  unfold _resolve_instagram_share, try_except, send, _get_session, ret,
    mbind, mret, M_bind, M_ret.
  destruct (session w) as [[[] t] |]; simpl;
    (destruct (net w (sent w) _) as [resp | e]; simpl;
     [ eexists _, _; split; [reflexivity |]; simpl; split; [reflexivity |];
       left; eauto
     | destruct (net w (sent w ++ _) _) as [resp2 | e2]; simpl;
       eexists _, _; (split; [reflexivity |]); simpl;
       (split; [reflexivity |]); right; exists e;
       rewrite <- app_assoc; simpl; auto ]).
Qed.

Section RewriteWorld.
Context `{PyLib}.

(** What [_rewrite_instagram] does to the world. *)
Lemma rewrite_instagram_world (url : str) (p : ParseResult) (w : World) :
  urlparse url = Ok p ->
  exists (r : result (option str * option str)) (w' : World),
    _rewrite_instagram url w = (r, w')
    /\ net w' = net w
    /\ (w' = w
        \/ (startswith (U "/share/") (path p) = true
            /\ (sent w' = sent w ++ [head_rq url]
                \/ sent w' = sent w ++ [head_rq url; get_rq url]))).
Proof.
  intros Hp. unfold _rewrite_instagram. rewrite bind_lift, Hp.
  destruct (startswith (U "/share/") (path p)) eqn:Hshare.
  - destruct (resolve_share_cases url w) as (r & w1 & Hres & Hnet & Hsent).
    rewrite (bind_ok _ _ _ _ _ Hres).
    assert (Hw1 : sent w1 = sent w ++ [head_rq url]
                  \/ sent w1 = sent w ++ [head_rq url; get_rq url]).
    { destruct Hsent as [(resp & _ & _ & Hs) | (e & _ & Hs & _)]; auto. }
    destruct r as [final |]; [| eexists _, _; split; [reflexivity | auto]].
    destruct (truthy final); [| eexists _, _; split; [reflexivity | auto]].
    rewrite bind_lift.
    destruct (urlparse final); eexists _, _; (split; [reflexivity | auto]).
  - eexists _, _. split; [reflexivity | auto].
Qed.

End RewriteWorld.

(** X12: [_rewrite_one] never raises and never touches the network
    function.  It leaves the world as it is, unless the URL is an
    Instagram share link: then it sends the HEAD probe of the resolver
    and at most one GET request, for that URL, and nothing else. *)
Theorem rewrite_one_network_use `{PyLib} (url : str) (w : World) :
  exists (r : option str * option str) (w' : World),
    _rewrite_one url w = (Ok r, w')
    /\ net w' = net w
    /\ (w' = w
        \/ ((sent w' = sent w ++ [head_rq url]
             \/ sent w' = sent w ++ [head_rq url; get_rq url])
            /\ exists p, urlparse url = Ok p
                 /\ endswith (U "instagram.com")
                      (lower (default [] (hostname p))) = true
                 /\ startswith (U "/share/") (path p) = true)).
Proof.
  unfold _rewrite_one, try_except. rewrite bind_lift.
  destruct (urlparse url) as [p | e] eqn:Hp;
    [| eexists _, _; split; [reflexivity | auto]].
  destruct (negb _ || bool_decide _);
    [eexists _, _; split; [reflexivity | auto] |].
  destruct (endswith (U "instagram.com") _) eqn:Hig.
  - destruct (rewrite_instagram_world url p w Hp)
      as (r & w1 & Hrun & Hnet & Hw).
    rewrite Hrun.
    assert (Hw' : w1 = w
              \/ ((sent w1 = sent w ++ [head_rq url]
                   \/ sent w1 = sent w ++ [head_rq url; get_rq url])
                  /\ exists p, urlparse url = Ok p
                       /\ endswith (U "instagram.com")
                            (lower (default [] (hostname p))) = true
                       /\ startswith (U "/share/") (path p) = true)).
    { destruct Hw as [-> | [Hshare Hsent]]; [auto |]. right. eauto. }
    rewrite Hp in Hw'.
    destruct r; eexists _, _; (split; [reflexivity | auto]).
  - destruct (_pick_source _) as [src |];
      [| eexists _, _; split; [reflexivity | auto]].
    destruct (truthy src); [| eexists _, _; split; [reflexivity | auto]].
    destruct (DEFAULT_MIRRORS !! src) as [mir |];
      [| eexists _, _; split; [reflexivity | auto]].
    destruct (truthy mir); eexists _, _; (split; [reflexivity | auto]).
Qed.

(** X13: a mirror URL that [_rewrite_one] returns is never empty and
    never the URL it was given, for the generic rewrite (which checks it)
    and for the Instagram rewrite (which does not). *)
Theorem rewrite_one_mirror_differs `{PyLib} (url m : str) (c : option str)
    (w w' : World) :
  _rewrite_one url w = (Ok (Some m, c), w') ->
  truthy m = true /\ m <> url.
Proof.
  intros Hone.
  pose proof Hone as Hsrc.
  apply rewrite_one_mirror in Hsrc
    as (u & p & k & mir & Hp & Hk & Hm & Habs & _).
  destruct (mirror_facts _ _ Hk) as (Hskip & Hok & Ht).
  pose proof (urlparse_urlunparse_netloc _ _ _ Hp Habs Hok) as Hre.
  pose proof (mirror_hostname p _ _ Hk) as Hhost.
  rewrite <- Hm in Hre. split.
  - destruct m; [| reflexivity].
    assert (Hnil : match urlparse [] with
                   | Ok q => netloc q
                   | Raise _ => []
                   end = []) by (vm_compute; reflexivity).
    rewrite Hre in Hnil. simpl in Hnil. subst mir. discriminate Ht.
  - intros ->.
    pose proof (rewrite_one_skipped _ _ _ w Hre Hhost Ht Hskip) as Hnone.
    congruence.
Qed.

Lemma rewrite_one_mirror_differs_witness :
  truthy (U "https://vxtiktok.com/@a/video/1") = true
  /\ U "https://vxtiktok.com/@a/video/1" <> U "https://www.tiktok.com/@a/video/1".
Proof.
  apply (@rewrite_one_mirror_differs ascii_lib
           (U "https://www.tiktok.com/@a/video/1") _ None offline offline).
  vm_compute. reflexivity.
Defined.

(** X14: [_rewrite_one] returns a canonical URL for Instagram hosts only.
    The canonical URL is the given URL, with the world left as it is, or,
    for a share link, the non-empty URL that the resolver returned; in
    both cases it is a URL that parses. *)
Theorem rewrite_one_canonical_is_instagram `{PyLib} (url canon : str)
    (mo : option str) (w w' : World) :
  _rewrite_one url w = (Ok (mo, Some canon), w') ->
  exists p pc : ParseResult,
    urlparse url = Ok p /\ urlparse canon = Ok pc
    /\ endswith (U "instagram.com") (lower (default [] (hostname p))) = true
    /\ truthy canon = true
    /\ ((startswith (U "/share/") (path p) = false /\ canon = url /\ w' = w)
        \/ (startswith (U "/share/") (path p) = true
            /\ _resolve_instagram_share url w = (Ok (Some canon), w'))).
Proof.
  unfold _rewrite_one, try_except. rewrite bind_lift.
  destruct (urlparse url) as [p | e] eqn:Hp; [| discriminate].
  destruct (truthy (lower (default [] (hostname p)))) eqn:Hhost;
    [| discriminate].
  destruct (bool_decide _); [discriminate |]. cbn [negb orb].
  destruct (endswith (U "instagram.com") _) eqn:Hig.
  - assert (Hclass : forall q u mo' c',
              classify_ig_path q u = (mo', Some c') -> c' = u).
    { intros q u mo' c'. unfold classify_ig_path.
      destruct (startswith STORY_PREFIX (path q));
        [intros [= _ <-]; reflexivity |].
      destruct (existsb _ _); [| intros [= _ <-]; reflexivity].
      destruct (DEFAULT_MIRRORS !! _) as [mir |];
        [destruct (truthy mir) |]; intros [= _ <-]; reflexivity. }
    assert (Hurl : truthy url = true).
    { destruct url; [| reflexivity]. vm_compute in Hp. injection Hp as <-.
      vm_compute in Hhost. discriminate. }
    unfold _rewrite_instagram. rewrite bind_lift, Hp.
    destruct (startswith (U "/share/") (path p)) eqn:Hshare.
    + destruct (_resolve_instagram_share url w) as [[[final |] | e] w1]
        eqn:Hres;
        [ rewrite (bind_ok _ _ _ _ _ Hres)
        | rewrite (bind_ok _ _ _ _ _ Hres); discriminate
        | unfold mbind, M_bind; rewrite Hres; discriminate ].
      destruct (truthy final) eqn:Hfinal; [| discriminate].
      rewrite bind_lift.
      destruct (urlparse final) as [pf | e] eqn:Hpf; [| discriminate].
      intros [= Hc <-]. apply Hclass in Hc. subst canon.
      exists p, pf. auto 10.
    + intros [= Hc <-]. apply Hclass in Hc. subst canon.
      exists p, p. auto 10.
  - destruct (_pick_source _) as [src |]; [| discriminate].
    destruct (truthy src); [| discriminate].
    destruct (DEFAULT_MIRRORS !! src) as [mir |]; [| discriminate].
    destruct (truthy mir); discriminate.
Qed.

Lemma rewrite_one_canonical_is_instagram_witness :
  exists p pc : ParseResult,
    @urlparse ascii_lib share_url = Ok p
    /\ @urlparse ascii_lib story_url = Ok pc
    /\ endswith (U "instagram.com")
         (@lower ascii_lib (default [] (@hostname ascii_lib p))) = true
    /\ truthy story_url = true
    /\ ((startswith (U "/share/") (path p) = false /\ story_url = share_url
         /\ (@_rewrite_one ascii_lib share_url redirects_to_story).2
            = redirects_to_story)
        \/ (startswith (U "/share/") (path p) = true
            /\ _resolve_instagram_share share_url redirects_to_story
               = (Ok (Some story_url),
                  (@_rewrite_one ascii_lib share_url redirects_to_story).2))).
Proof.
  apply (@rewrite_one_canonical_is_instagram ascii_lib share_url story_url
           None redirects_to_story).
  vm_compute. reflexivity.
Defined.

Lemma supported_prefix_not_story (s : str) :
  existsb (fun pre => startswith pre s) SUPPORTED_IG_POST_PREFIXES = true ->
  startswith STORY_PREFIX s = false.
Proof.
  intros Hex. apply existsb_exists in Hex as (pre & Hin & Hpre).
  apply startswith_inv in Hpre as [t ->].
  unfold SUPPORTED_IG_POST_PREFIXES in Hin.
  repeat (destruct Hin as [<- | Hin]; [vm_compute; reflexivity |]).
  destruct Hin.
Qed.

Lemma classify_ig_path_supported `{PyLib} (p : ParseResult) (canonical : str) :
  existsb (fun pre => startswith pre (path p)) SUPPORTED_IG_POST_PREFIXES
  = true ->
  classify_ig_path p canonical
  = (Some (urlunparse (replace_netloc p (U "kkinstagram.com"))),
     Some canonical).
Proof.
  intros Hsup. unfold classify_ig_path.
  rewrite (supported_prefix_not_story _ Hsup), Hsup, ig_mirror. reflexivity.
Qed.

(** X15: the Instagram rewrite of a post, reel or TV link swaps the
    network location for [kkinstagram.com] and keeps the scheme, path,
    parameters, query and fragment: those of the link itself, or, for a
    share link, those of the URL that the resolver returned, whatever the
    host of that URL. *)
Theorem instagram_rewrite_swaps_netloc `{PyLib} :
  (forall (url : str) (p : ParseResult) (w : World),
     urlparse url = Ok p ->
     startswith (U "/share/") (path p) = false ->
     existsb (fun pre => startswith pre (path p)) SUPPORTED_IG_POST_PREFIXES
     = true ->
     exists m,
       _rewrite_instagram url w = (Ok (Some m, Some url), w)
       /\ urlparse m = Ok (replace_netloc p (U "kkinstagram.com")))
  /\ (forall (url final : str) (p pf : ParseResult) (w w' : World),
        urlparse url = Ok p ->
        startswith (U "/share/") (path p) = true ->
        _resolve_instagram_share url w = (Ok (Some final), w') ->
        urlparse final = Ok pf ->
        existsb (fun pre => startswith pre (path pf))
          SUPPORTED_IG_POST_PREFIXES = true ->
        exists m,
          _rewrite_instagram url w = (Ok (Some m, Some final), w')
          /\ urlparse m = Ok (replace_netloc pf (U "kkinstagram.com"))).
Proof.
  assert (Hok : netloc_ok (U "kkinstagram.com") = true)
    by (vm_compute; reflexivity).
  split.
  - intros url p w Hp Hshare Hsup.
    exists (urlunparse (replace_netloc p (U "kkinstagram.com"))). split.
    + unfold _rewrite_instagram. rewrite bind_lift, Hp, Hshare.
      rewrite (classify_ig_path_supported _ _ Hsup). reflexivity.
    + apply (urlparse_urlunparse_netloc url); auto.
      right. apply supported_prefix_slash. exact Hsup.
  - intros url final p pf w w' Hp Hshare Hres Hpf Hsup.
    exists (urlunparse (replace_netloc pf (U "kkinstagram.com"))). split.
    + unfold _rewrite_instagram. rewrite bind_lift, Hp, Hshare.
      rewrite (bind_ok _ _ _ _ _ Hres).
      assert (Ht : truthy final = true).
      { destruct final; [| reflexivity]. vm_compute in Hpf.
        injection Hpf as <-. vm_compute in Hsup. discriminate. }
      rewrite Ht, bind_lift, Hpf.
      rewrite (classify_ig_path_supported _ _ Hsup). reflexivity.
    + apply (urlparse_urlunparse_netloc final); auto.
      right. apply supported_prefix_slash. exact Hsup.
Qed.

Lemma instagram_rewrite_swaps_netloc_witness :
  (exists m,
     @_rewrite_instagram ascii_lib
       (U "https://www.instagram.com/p/Cx1/?img_index=2") offline
     = (Ok (Some m, Some (U "https://www.instagram.com/p/Cx1/?img_index=2")),
        offline)
     /\ @urlparse ascii_lib m
        = Ok {| scheme := U "https"; netloc := U "kkinstagram.com";
                path := U "/p/Cx1/"; params := [];
                query := U "img_index=2"; fragment := [] |})
  /\ (exists m,
        (@_rewrite_instagram ascii_lib share_url redirects_to_reel).1
        = Ok (Some m, Some reel_url)
        /\ @urlparse ascii_lib m
           = Ok {| scheme := U "https"; netloc := U "kkinstagram.com";
                   path := U "/reel/Cx1/"; params := [];
                   query := U "igsh=abc"; fragment := [] |}).
Proof.
  split.
  - apply (proj1 (@instagram_rewrite_swaps_netloc ascii_lib)
             (U "https://www.instagram.com/p/Cx1/?img_index=2")
             {| scheme := U "https"; netloc := U "www.instagram.com";
                path := U "/p/Cx1/"; params := [];
                query := U "img_index=2"; fragment := [] |});
      vm_compute; reflexivity.
  - destruct (proj2 (@instagram_rewrite_swaps_netloc ascii_lib)
                share_url reel_url
                {| scheme := U "https"; netloc := U "www.instagram.com";
                   path := U "/share/abc"; params := []; query := [];
                   fragment := [] |}
                {| scheme := U "https"; netloc := U "example.org";
                   path := U "/reel/Cx1/"; params := [];
                   query := U "igsh=abc"; fragment := [] |}
                redirects_to_reel
                (_resolve_instagram_share share_url redirects_to_reel).2)
      as (m & Hrun & Hm); try (vm_compute; reflexivity).
    exists m. rewrite Hrun. split; [reflexivity | exact Hm].
Defined.

(** X16: a share link that the resolver cannot resolve, because the HEAD
    probe and the GET request both raise, is dropped: [_rewrite_instagram]
    returns neither mirror nor canonical URL, after exactly those two
    requests. *)
Theorem unresolved_share_is_dropped `{PyLib} (url : str) (p : ParseResult)
    (w : World) (e1 e2 : exn) :
  urlparse url = Ok p ->
  startswith (U "/share/") (path p) = true ->
  net w (sent w) (head_rq url) = Fails e1 ->
  net w (sent w ++ [head_rq url]) (get_rq url) = Fails e2 ->
  exists w',
    _rewrite_instagram url w = (Ok (None, None), w')
    /\ sent w' = sent w ++ [head_rq url; get_rq url]
    /\ net w' = net w.
Proof.
  intros Hp Hshare Hhead Hget.
  destruct (resolve_share_cases url w) as (r & w1 & Hres & Hnet & Hsent).
  exists w1.
  destruct Hsent as [(resp & Hr & _) | (e & _ & Hs & Hr)]; [congruence |].
  rewrite Hget in Hr. subst r.
  split; [| auto].
  unfold _rewrite_instagram. rewrite bind_lift, Hp, Hshare.
  rewrite (bind_ok _ _ _ _ _ Hres). reflexivity.
Qed.

Lemma unresolved_share_is_dropped_witness :
  exists w',
    @_rewrite_instagram ascii_lib share_url offline = (Ok (None, None), w')
    /\ sent w' = sent offline ++ [head_rq share_url; get_rq share_url]
    /\ net w' = net offline.
Proof.
  apply (@unresolved_share_is_dropped ascii_lib share_url
           {| scheme := U "https"; netloc := U "www.instagram.com";
              path := U "/share/abc"; params := []; query := [];
              fragment := [] |} offline TimeoutError TimeoutError);
    vm_compute; reflexivity.
Defined.

(** ** The rewrite phase *)

Lemma first_occurrences_elem_of (l : list str) (x : str) :
  x ∈ first_occurrences l <-> x ∈ l.
Proof.
  induction l as [| y t IH]; simpl; [reflexivity |].
  rewrite !elem_of_cons, list_elem_of_filter, IH.
  destruct (decide (x = y)); tauto.
Qed.

Lemma first_occurrences_NoDup (l : list str) : NoDup (first_occurrences l).
Proof.
  induction l as [| y t IH]; simpl; [constructor |].
  apply NoDup_cons. split; [| apply NoDup_filter; exact IH].
  rewrite list_elem_of_filter. tauto.
Qed.

Lemma first_occurrences_sublist (l : list str) :
  first_occurrences l `sublist_of` l.
Proof.
  induction l as [| y t IH]; simpl; [constructor |].
  apply sublist_skip. etransitivity; [apply sublist_filter | exact IH].
Qed.

Lemma filter_not_in_empty (seen : gset (list N)) (l : list str) :
  seen = ∅ -> filter (fun x => x ∉ seen) l = l.
Proof.
  intros ->. induction l as [| x l IH]; [reflexivity |].
  rewrite filter_cons_True; [rewrite IH; reflexivity |].
  apply not_elem_of_empty.
Qed.

Section Phase.
Context `{PyLib}.

Lemma rewrite_one_network_frame (url : str) (w : World) :
  exists (r : option str * option str) (w' : World),
    _rewrite_one url w = (Ok r, w') /\ net w' = net w.
Proof.
  unfold _rewrite_one, try_except. rewrite bind_lift.
  destruct (urlparse url) as [p | e] eqn:Hp;
    [| eexists _, _; split; reflexivity].
  destruct (negb _ || bool_decide _); [eexists _, _; split; reflexivity |].
  destruct (endswith (U "instagram.com") _).
  - destruct (rewrite_instagram_world url p w Hp)
      as (r & w1 & Hrun & Hnet & _).
    rewrite Hrun. destruct r; eexists _, _; (split; [reflexivity | exact Hnet]).
  - destruct (_pick_source _) as [src |];
      [| eexists _, _; split; reflexivity].
    destruct (truthy src); [| eexists _, _; split; reflexivity].
    destruct (DEFAULT_MIRRORS !! src) as [mir |];
      [| eexists _, _; split; reflexivity].
    destruct (truthy mir); eexists _, _; split; reflexivity.
Qed.

(** The links of the triples that the loop adds are, in order, among the
    first occurrences of the links not seen before. *)
Lemma rewrite_loop_order (links : list str) :
  forall (seen : gset (list N)) (acc : list (str * str * option str))
         (w : World),
  exists new w',
    rewrite_loop links seen acc w = (Ok (acc ++ new), w')
    /\ net w' = net w
    /\ (map (fun t => t.1.1) new)
         `sublist_of` filter (fun x => x ∉ seen) (first_occurrences links).
Proof.
  induction links as [| link rest IH]; intros seen acc w; simpl.
  - exists [], w. rewrite app_nil_r. repeat split. constructor.
  - destruct (bool_decide (link ∈ seen)) eqn:Hseen.
    + apply bool_decide_eq_true in Hseen.
      destruct (IH seen acc w) as (new & w' & Hrun & Hnet & Hsub).
      exists new, w'. split; [exact Hrun |]. split; [exact Hnet |].
      rewrite filter_cons_False by tauto.
      rewrite list_filter_filter.
      erewrite list_filter_iff; [exact Hsub |].
      intros x. simpl. split; [tauto |]. intros Hx. split; [exact Hx |].
      intros ->. tauto.
    + apply bool_decide_eq_false in Hseen.
      rewrite filter_cons_True by exact Hseen.
      rewrite list_filter_filter.
      assert (Hfilter : filter (fun x => (x ∉ seen) /\ x <> link)
                          (first_occurrences rest)
                        = filter (fun x => x ∉ ({[link]} ∪ seen))
                            (first_occurrences rest)).
      { apply list_filter_iff. intros x.
        rewrite not_elem_of_union, not_elem_of_singleton. tauto. }
      rewrite Hfilter.
      destruct (rewrite_one_network_frame link w) as (r & w1 & Hone & Hnet1).
      rewrite (bind_ok _ _ _ _ _ Hone). destruct r as [mo c].
      assert (Hskip : forall acc',
                acc' = acc ->
                exists new w',
                  rewrite_loop rest ({[link]} ∪ seen) acc' w1
                  = (Ok (acc ++ new), w')
                  /\ net w' = net w
                  /\ (map (fun t => t.1.1) new)
                       `sublist_of`
                       (link :: filter (fun x => x ∉ ({[link]} ∪ seen))
                                  (first_occurrences rest))).
      { intros acc' ->.
        destruct (IH ({[link]} ∪ seen) acc w1)
          as (new & w' & Hrun & Hnet & Hsub).
        exists new, w'. split; [exact Hrun |].
        split; [congruence |]. apply sublist_cons. exact Hsub. }
      destruct mo as [m |]; [| apply Hskip; reflexivity].
      destruct (truthy m); [| apply Hskip; reflexivity].
      destruct (IH ({[link]} ∪ seen) (acc ++ [(link, m, c)]) w1)
        as (new & w' & Hrun & Hnet & Hsub).
      exists ((link, m, c) :: new), w'.
      split; [rewrite Hrun, <- app_assoc; reflexivity |].
      split; [congruence |]. simpl. apply sublist_skip. exact Hsub.
Qed.

End Phase.

(** X17: the rewrite phase of [on_message] always completes and leaves
    the network function alone.  The links of its triples are distinct
    and stand in the order in which they first occur in the message:
    they are a subsequence of the first occurrences of the found links,
    which in turn are a duplicate-free subsequence of the found links
    with the same members. *)
Theorem rewrite_phase_first_seen_order `{PyLib} (found_links : list str)
    (w : World) :
  (exists triples w',
     rewrite_phase found_links w = (Ok triples, w')
     /\ net w' = net w
     /\ (map (fun t => t.1.1) triples)
          `sublist_of` first_occurrences found_links
     /\ NoDup (map (fun t => t.1.1) triples))
  /\ first_occurrences found_links `sublist_of` found_links
  /\ NoDup (first_occurrences found_links)
  /\ forall x, x ∈ first_occurrences found_links <-> x ∈ found_links.
Proof.
  split; [| split; [apply first_occurrences_sublist |
                    split; [apply first_occurrences_NoDup |
                            intros x; apply first_occurrences_elem_of]]].
  unfold rewrite_phase.
  destruct (rewrite_loop_order found_links ∅ [] w)
    as (new & w' & Hrun & Hnet & Hsub).
  rewrite (filter_not_in_empty ∅ _ eq_refl) in Hsub.
  exists new, w'. split; [exact Hrun |]. split; [exact Hnet |].
  split; [exact Hsub |].
  eapply sublist_NoDup; [apply first_occurrences_NoDup | exact Hsub].
Qed.

Section Inclusion.
Context `{PyLib}.

Lemma parsed_netloc_truthy (m : str) (q : ParseResult) :
  urlparse m = Ok q -> netloc q <> [] -> truthy m = true.
Proof.
  intros Hq Hn. destruct m; [| reflexivity].
  assert (Hnil : match urlparse [] with
                 | Ok q => netloc q
                 | Raise _ => []
                 end = []) by (vm_compute; reflexivity).
  rewrite Hq in Hnil. contradiction.
Qed.

(** The generic rewrite of a URL does not depend on the world. *)
Lemma rewrite_one_generic (url src : str) (p : ParseResult) :
  urlparse url = Ok p ->
  lower (default [] (hostname p)) ∉ SKIP_HOSTS ->
  endswith (U "instagram.com") (lower (default [] (hostname p))) = false ->
  _pick_source (lower (default [] (hostname p))) = Some src ->
  exists mir,
    DEFAULT_MIRRORS !! src = Some mir
    /\ urlparse (urlunparse (replace_netloc p mir)) = Ok (replace_netloc p mir)
    /\ forall w, _rewrite_one url w
                 = (Ok (Some (urlunparse (replace_netloc p mir)), None), w).
Proof.
  intros Hp Hskip Hig Hsrc.
  destruct (pick_source_mirror _ _ Hsrc) as [Hts [mir Hmir]].
  destruct (mirror_facts _ _ Hmir) as (Hmskip & Hok & Htm).
  assert (Hhost : truthy (lower (default [] (hostname p))) = true).
  { destruct (lower (default [] (hostname p))); [| reflexivity].
    pose proof pick_source_nil as Hnil. congruence. }
  pose proof (hostname_netloc _ Hhost) as Hnl.
  pose proof (urlparse_urlunparse_netloc _ _ _ Hp (or_introl Hnl) Hok) as Hre.
  assert (Hne : str_eqb (urlunparse (replace_netloc p mir)) url = false).
  { unfold str_eqb. apply bool_decide_eq_false_2. intros Heq.
    rewrite Heq, Hp in Hre. injection Hre as Hre.
    apply Hskip. rewrite Hre at 1.
    rewrite (mirror_hostname p _ _ Hmir). exact Hmskip. }
  exists mir. split; [exact Hmir |]. split; [exact Hre |]. intros w.
  unfold _rewrite_one, try_except. rewrite bind_lift.
  rewrite Hp, Hhost. rewrite bool_decide_eq_false_2 by exact Hskip.
  cbn [negb orb]. rewrite Hig, Hsrc, Hts, Hmir, Htm.
  unfold ret, mret, M_ret. rewrite Hne. reflexivity.
Qed.

(** The loop never drops a triple, and adds the triple of a link whose
    rewrite is the same in every world when it meets the link. *)
Lemma rewrite_loop_adds (link m : str) (c : option str) :
  (forall w, exists w', _rewrite_one link w = (Ok (Some m, c), w')) ->
  truthy m = true ->
  forall (links : list str) (seen : gset (list N))
         (acc : list (str * str * option str)) (w : World),
  exists triples w',
    rewrite_loop links seen acc w = (Ok triples, w')
    /\ (forall t, t ∈ acc -> t ∈ triples)
    /\ (link ∈ links -> link ∉ seen -> (link, m, c) ∈ triples).
Proof.
  intros Hone Hm links.
  induction links as [| link0 rest IH]; intros seen acc w; simpl.
  - exists acc, w. split; [reflexivity |]. split; [auto |].
    intros Hin. apply elem_of_nil in Hin. destruct Hin.
  - destruct (bool_decide (link0 ∈ seen)) eqn:Hseen.
    + apply bool_decide_eq_true in Hseen.
      destruct (IH seen acc w) as (triples & w' & Hrun & Hacc & Hlink).
      exists triples, w'. split; [exact Hrun |]. split; [exact Hacc |].
      intros Hin Hnew. apply Hlink; [| exact Hnew].
      apply elem_of_cons in Hin as [-> | Hin]; [contradiction | exact Hin].
    + apply bool_decide_eq_false in Hseen.
      destruct (rewrite_one_total link0 w) as ([mo c0] & w1 & Hrun0).
      rewrite (bind_ok _ _ _ _ _ Hrun0).
      set (acc' := match mo with
                   | Some m0 =>
                       if truthy m0 then acc ++ [(link0, m0, c0)] else acc
                   | None => acc
                   end).
      assert (Hacc' : forall t, t ∈ acc -> t ∈ acc').
      { intros t Ht. unfold acc'. destruct mo as [m0 |]; [| exact Ht].
        destruct (truthy m0); [| exact Ht]. apply elem_of_app. auto. }
      destruct (IH ({[link0]} ∪ seen) acc' w1)
        as (triples & w' & Hrun & Hacc & Hlink).
      exists triples, w'. split; [exact Hrun |]. split; [auto |].
      intros Hin Hnew. destruct (decide (link = link0)) as [<- | Hne].
      * apply Hacc. unfold acc'.
        destruct (Hone w) as (w2 & Hrun1). rewrite Hrun1 in Hrun0.
        injection Hrun0 as <- <- _. rewrite Hm.
        apply elem_of_app. right. apply list_elem_of_here.
      * apply Hlink.
        -- apply elem_of_cons in Hin as [-> | Hin]; [contradiction | exact Hin].
        -- rewrite not_elem_of_union, not_elem_of_singleton. auto.
Qed.

End Inclusion.

(** X18: the rewrite phase keeps what can be rewritten: a found link that
    parses, whose host is not skipped, does not end in [instagram.com]
    and classifies to a source key, has a triple that pairs it with its
    mirror URL and no canonical URL, on every network. *)
Theorem rewrite_phase_keeps_generic_links `{PyLib} (found_links : list str)
    (link src : str) (p : ParseResult) (w : World) :
  link ∈ found_links ->
  urlparse link = Ok p ->
  lower (default [] (hostname p)) ∉ SKIP_HOSTS ->
  endswith (U "instagram.com") (lower (default [] (hostname p))) = false ->
  _pick_source (lower (default [] (hostname p))) = Some src ->
  exists triples w' mirror,
    rewrite_phase found_links w = (Ok triples, w')
    /\ DEFAULT_MIRRORS !! src = Some mirror
    /\ (link, urlunparse (replace_netloc p mirror), None) ∈ triples.
Proof.
  intros Hin Hp Hskip Hig Hsrc.
  destruct (rewrite_one_generic _ _ _ Hp Hskip Hig Hsrc)
    as (mir & Hmir & Hre & Hone).
  destruct (mirror_facts _ _ Hmir) as (_ & _ & Htm).
  assert (Hm : truthy (urlunparse (replace_netloc p mir)) = true).
  { apply (parsed_netloc_truthy _ _ Hre). simpl. intros ->. discriminate. }
  unfold rewrite_phase.
  destruct (rewrite_loop_adds link _ None (fun w0 => ex_intro _ w0 (Hone w0))
              Hm found_links ∅ [] w)
    as (triples & w' & Hrun & _ & Hlink).
  exists triples, w', mir. split; [exact Hrun |]. split; [exact Hmir |].
  apply Hlink; [exact Hin | apply not_elem_of_empty].
Qed.

Lemma rewrite_phase_keeps_generic_links_witness :
  exists triples w' mirror,
    @rewrite_phase ascii_lib
      [story_url; U "https://old.reddit.com/r/a"; story_url] offline
    = (Ok triples, w')
    /\ DEFAULT_MIRRORS !! U "reddit.com" = Some mirror
    /\ (U "https://old.reddit.com/r/a",
        urlunparse
          (replace_netloc
             {| scheme := U "https"; netloc := U "old.reddit.com";
                path := U "/r/a"; params := []; query := [];
                fragment := [] |} mirror), None) ∈ triples.
Proof.
  apply (@rewrite_phase_keeps_generic_links ascii_lib).
  - apply list_elem_of_further, list_elem_of_here.
  - vm_compute. reflexivity.
  - intros Hin. apply skip_hosts_dec in Hin. vm_compute in Hin. discriminate.
  - vm_compute. reflexivity.
  - vm_compute. reflexivity.
Defined.

(** ** Fetching pages *)

Section Fetching.
Context `{PyLib} `{Pages}.

(** What [_fetch_text] returns and does to the world. *)
Lemma fetch_text_cases (url : str) (for_ig : bool) (w : World) :
  exists (r : option str) (w' : World),
    _fetch_text url for_ig w = (Ok r, w')
    /\ sent w' = sent w ++ [fetch_rq url]
    /\ net w' = net w
    /\ r = match net w (sent w) (fetch_rq url) with
           | Responds resp =>
               if (200 <=? resp_status resp)%Z && (resp_status resp <? 300)%Z
               then match read_text (sent w ++ [fetch_rq url]) resp with
                    | Ok text => Some text
                    | Raise _ => None
                    end
               else None
           | Fails _ => None
           end.
Proof.
  unfold _fetch_text, try_except, send, _get_session, ret, mbind, mret,
    M_bind, M_ret.
  destruct (session w) as [[[] t] |]; simpl;
    (destruct (net w (sent w) (fetch_rq url)) as [resp | e]; simpl;
     [ destruct ((200 <=? resp_status resp)%Z && (resp_status resp <? 300)%Z);
       simpl;
       [ destruct (read_text (sent w ++ [fetch_rq url]) resp); simpl |];
       eexists _, _; repeat split
     | eexists _, _; repeat split ]).
Qed.

End Fetching.

(** X19: [_fetch_text] never raises.  It sends exactly one request, a GET
    for the URL with the browser user agent that follows redirects, and
    leaves the network function alone.  It returns the body when the
    status is between 200 and 299 and the body can be read, and [None]
    when the request raises, the status is another one or reading the
    body raises.  The [for_ig] flag changes nothing. *)
Theorem fetch_text_one_get `{PyLib} `{Pages} (url : str) (for_ig : bool)
    (w : World) :
  (exists (r : option str) (w' : World),
     _fetch_text url for_ig w = (Ok r, w')
     /\ sent w' = sent w ++ [fetch_rq url]
     /\ net w' = net w
     /\ r = match net w (sent w) (fetch_rq url) with
            | Responds resp =>
                if (200 <=? resp_status resp)%Z && (resp_status resp <? 300)%Z
                then match read_text (sent w ++ [fetch_rq url]) resp with
                     | Ok text => Some text
                     | Raise _ => None
                     end
                else None
            | Fails _ => None
            end)
  /\ _fetch_text url true w = _fetch_text url false w
  /\ fetch_rq url
     = {| rq_method := GET; rq_url := url; rq_allow_redirects := true;
          rq_headers := [(U "User-Agent", BROWSER_UA)] |}.
Proof.
  split; [apply fetch_text_cases |]. split; reflexivity.
Qed.

(** ** What the extractor returns *)





Lemma if_truthy_cases (f : str -> str) (v : json) :
  match if_truthy f v with
  | Ok None => json_truthy v = false
  | Ok (Some x) => exists s, v = JStr s /\ truthy s = true /\ x = f s
  | Raise e => e = TypeError /\ json_truthy v = true
  end.
Proof.
  unfold if_truthy. destruct (json_truthy v) eqn:Hv; [| reflexivity].
  destruct v; auto. exists s. auto.
Qed.


(** ** Tags that the extractor does not read *)

Lemma find_skip {A} (f : A -> bool) (pre post : list A) (t : A) :
  f t = false -> List.find f (pre ++ t :: post) = List.find f (pre ++ post).
Proof.
  intros Ht. induction pre as [| x pre IH]; simpl.
  - rewrite Ht. reflexivity.
  - destruct (f x); [reflexivity | exact IH].
Qed.

Lemma tag_matches_name (name attr value : str) (t : Tag) :
  tag_name t <> name -> tag_matches name attr value t = false.
Proof.
  intros Hn. unfold tag_matches, str_eqb.
  rewrite bool_decide_eq_false_2 by exact Hn. reflexivity.
Qed.

(** X21: a tag that is no [meta] tag, and that is no [script] tag or has
    a payload that [json.loads] rejects, changes nothing, wherever it
    stands in the page: the extractor returns what it returns for the
    page without the tag. *)
Theorem extract_ignores_unread_tags (pre post : Soup) (t : Tag) :
  tag_name t <> U "meta" ->
  tag_name t <> U "script" \/ tag_json t = None ->
  _extract_og_twitter_meta (pre ++ t :: post)
  = _extract_og_twitter_meta (pre ++ post).
Proof.
  intros Hmeta Hscript.
  assert (Hfind : forall attr value,
            soup_find (U "meta") attr value (pre ++ t :: post)
            = soup_find (U "meta") attr value (pre ++ post)).
  { intros attr value. apply find_skip, tag_matches_name. exact Hmeta. }
  assert (Hfold : forall ac,
            fold_left (fun ac script => ld_script script ac)
              (soup_find_all (U "script") (U "type")
                 (U "application/ld+json") (pre ++ t :: post)) ac
            = fold_left (fun ac script => ld_script script ac)
                (soup_find_all (U "script") (U "type")
                   (U "application/ld+json") (pre ++ post)) ac).
  { intros ac. unfold soup_find_all.
    change (t :: post) with ([t] ++ post).
    rewrite !List.filter_app, !fold_left_app. f_equal.
    unfold List.filter.
    destruct (tag_matches _ _ _ t) eqn:Ht; [| reflexivity].
    cbn [fold_left]. unfold ld_script.
    destruct Hscript as [Hname | Hjson]; [| rewrite Hjson; reflexivity].
    rewrite tag_matches_name in Ht by exact Hname. discriminate. }
  unfold _extract_og_twitter_meta, social_title, social_desc, meta.
  rewrite !Hfind.
  destruct (_parse_ig_from_og _ _) as [author caption].
  rewrite Hfold. reflexivity.
Qed.

Lemma extract_ignores_unread_tags_witness :
  _extract_og_twitter_meta
    ([meta_tag (U "property") (U "og:title") (U "A post")]
     ++ {| tag_name := U "script";
           tag_attrs := [(U "type", U "application/ld+json")];
           tag_json := None |}
     :: [{| tag_name := U "script";
            tag_attrs := [(U "type", U "application/ld+json")];
            tag_json := Some (JObj [(U "caption", JStr (U "sunset"))]) |}])
  = _extract_og_twitter_meta
      ([meta_tag (U "property") (U "og:title") (U "A post")]
       ++ [{| tag_name := U "script";
              tag_attrs := [(U "type", U "application/ld+json")];
              tag_json := Some (JObj [(U "caption", JStr (U "sunset"))]) |}]).
Proof.
  apply extract_ignores_unread_tags.
  - vm_compute. discriminate.
  - right. reflexivity.
Defined.

(** ** Enrichment and the network *)

Section EnrichmentWorld.
Context `{PyLib} `{Pages}.

Lemma extract_raises_type_error (soup : Soup) (e : exn) :
  _extract_og_twitter_meta soup = Raise e -> e = TypeError.
Proof.
  unfold _extract_og_twitter_meta.
  destruct (_parse_ig_from_og _ _) as [author caption].
  destruct (if negb (truthy_opt author && truthy_opt caption) then _ else _)
    as [ja jc].
  pose proof (if_truthy_cases (fun s => _compact_ws (Some s)) ja) as Ha.
  pose proof (if_truthy_cases
                (fun s => _truncate (Some (_compact_ws (Some s))) MAX_LEN) jc)
    as Hc.
  destruct (if_truthy _ ja) as [a | e1]; [| intros [= <-]; tauto].
  destruct (if_truthy _ jc) as [c | e2]; [discriminate |].
  intros [= <-]. tauto.
Qed.

(** Fetching a page and reading its metadata: one request, and no
    exception but that of the extractor. *)
Lemma ig_from_mirror_cases (url : str) (w : World) :
  exists (r : result (option str * option str)) (w' : World),
    _ig_from_mirror url w = (r, w')
    /\ sent w' = sent w ++ [fetch_rq url]
    /\ net w' = net w
    /\ forall e, r = Raise e -> e = TypeError.
Proof.
  unfold _ig_from_mirror.
  destruct (fetch_text_cases url false w) as (html & w1 & Hrun & Hs & Hn & _).
  rewrite (bind_ok _ _ _ _ _ Hrun).
  destruct html as [html |]; [destruct (truthy html) |];
    (eexists _, _; split; [reflexivity |]; repeat split; auto;
     try discriminate).
  intros e. apply extract_raises_type_error.
Qed.

Lemma ig_from_canonical_mirror (url : str) :
  _ig_from_canonical url = _ig_from_mirror url.
Proof. reflexivity. Qed.

End EnrichmentWorld.


Section Blocks.
Context `{PyLib} `{Pages}.

Lemma ig_author_caption_frame (canonical_ig_url : option str)
    (mirror_url : str) (w : World) :
  exists (r : result (option str * option str)) (w' : World),
    _ig_author_caption canonical_ig_url mirror_url w = (r, w')
    /\ net w' = net w
    /\ forall e, r = Raise e -> e = TypeError.
Proof.
  unfold _ig_author_caption.
  assert (Hmirror : forall w0, net w0 = net w ->
            exists r w',
              _ig_from_mirror mirror_url w0 = (r, w')
              /\ net w' = net w /\ forall e, r = Raise e -> e = TypeError).
  { intros w0 Hw0.
    destruct (ig_from_mirror_cases mirror_url w0)
      as (r & w' & Hrun & _ & Hn & He).
    exists r, w'. split; [exact Hrun |]. split; [congruence | exact He]. }
  destruct (truthy_opt canonical_ig_url); [| apply Hmirror; reflexivity].
  destruct (ig_from_mirror_cases (default [] canonical_ig_url) w)
    as (r1 & w1 & Hrun1 & _ & Hn1 & He1).
  rewrite <- ig_from_canonical_mirror in Hrun1.
  destruct r1 as [[a cap] | e].
  - rewrite (bind_ok _ _ _ _ _ Hrun1).
    destruct (truthy_opt a || truthy_opt cap); [| apply Hmirror; exact Hn1].
    eexists _, _. split; [reflexivity |]. split; [exact Hn1 | discriminate].
  - exists (Raise e), w1.
    split; [unfold mbind, M_bind; rewrite Hrun1; reflexivity |].
    split; [exact Hn1 |]. intros e' [= <-]. auto.
Qed.

(** The blocks keep the links of the triples, in order; only Instagram
    links are enriched. *)
Lemma build_blocks_cases (triples : list (str * str * option str)) :
  forall w : World,
  Forall (fun t => exists p, urlparse t.1.1 = Ok p) triples ->
  exists (r : result (list Block)) (w' : World),
    build_blocks triples w = (r, w')
    /\ net w' = net w
    /\ (forall e, r = Raise e -> e = TypeError)
    /\ (forall blocks, r = Ok blocks ->
          map (fun b => (orig b, mirror b)) blocks
          = map (fun t => (t.1.1, t.1.2)) triples)
    /\ (Forall (fun t => forall p, urlparse t.1.1 = Ok p ->
                  endswith (U "instagram.com")
                    (lower (default [] (hostname p))) = false) triples ->
        w' = w
        /\ exists blocks,
             r = Ok blocks
             /\ Forall (fun b => ig_author b = None /\ ig_caption b = None)
                  blocks).
Proof.
  induction triples as [| [[o m] c] rest IH]; intros w Hparse.
  - exists (Ok []), w. simpl. split; [reflexivity |]. split; [reflexivity |].
    split; [discriminate |]. split; [intros blocks [= <-]; reflexivity |].
    intros _. split; [reflexivity |]. exists []. split; [reflexivity |].
    constructor.
  - apply Forall_cons in Hparse as [[p Hp] Hparse]. simpl in Hp.
    cbn [build_blocks]. rewrite bind_lift, Hp.
    assert (Hhead : endswith (U "instagram.com")
                      (lower (default [] (hostname p))) = true ->
              ~ Forall (fun t => forall p, urlparse t.1.1 = Ok p ->
                          endswith (U "instagram.com")
                            (lower (default [] (hostname p))) = false)
                  ((o, m, c) :: rest)).
    { intros Hig Hall. apply Forall_cons in Hall as [Hhead _].
      simpl in Hhead. rewrite (Hhead p Hp) in Hig. discriminate. }
    destruct (endswith (U "instagram.com") (lower (default [] (hostname p))))
      eqn:Hig.
    + specialize (Hhead eq_refl).
      destruct (ig_author_caption_frame c m w) as (r1 & w1 & Hrun1 & Hn1 & He1).
      unfold mbind, M_bind, ret, mret, M_ret. rewrite Hrun1.
      destruct r1 as [[a cap] | e].
      * destruct (IH w1 Hparse) as (r & w' & Hrun & Hn & He & Hmap & _).
        rewrite Hrun. destruct r as [blocks | e];
          (eexists _, _; split; [reflexivity |]; split; [congruence |]).
        -- split; [discriminate |]. split; [| tauto].
           intros blocks' [= <-]. simpl. rewrite (Hmap _ eq_refl).
           reflexivity.
        -- split; [exact He |]. split; [discriminate | tauto].
      * eexists _, _. split; [reflexivity |]. split; [exact Hn1 |].
        split; [intros e' [= <-]; exact (He1 e eq_refl) |].
        split; [discriminate | tauto].
    + clear Hhead.
      destruct (IH w Hparse) as (r & w' & Hrun & Hn & He & Hmap & Hplain).
      unfold mbind, M_bind, ret, mret, M_ret. rewrite Hrun.
      destruct r as [blocks | e];
        (eexists _, _; split; [reflexivity |]; split; [exact Hn |]).
      * split; [discriminate |]. split.
        -- intros blocks' [= <-]. simpl. rewrite (Hmap _ eq_refl).
           reflexivity.
        -- intros Hall. apply Forall_cons in Hall as [_ Hall].
           destruct (Hplain Hall) as (-> & blocks' & [= <-] & Hnone).
           split; [reflexivity |]. eexists. split; [reflexivity |].
           constructor; [split; reflexivity | exact Hnone].
      * split; [exact He |]. split; [discriminate |].
        intros Hall. apply Forall_cons in Hall as [_ Hall].
        destruct (Hplain Hall) as (_ & blocks' & Hfalse & _). discriminate.
Qed.

End Blocks.

(** ** The repost text as a whole *)

Lemma format_repost_lines (author_mention extra_text : str)
    (blocks : list Block) :
  _format_repost author_mention (Some extra_text) blocks
  = Ok (join NEWLINE
          (extra_text :: (U "Sent by " ++ author_mention)
           :: concat (map block_lines blocks))).
Proof.
  unfold _format_repost. rewrite fold_block_lines.
  change ([Some extra_text] ++ [Some (U "Sent by " ++ author_mention)])
    with (map Some [extra_text; U "Sent by " ++ author_mention]).
  rewrite <- map_app, mapM_id_Some. reflexivity.
Qed.



(** ** The message handler *)

Section HandlerFacts.
Context `{PyLib}.

Lemma rewrite_one_cases (url : str) (w : World) :
  exists (r : option str * option str) (w' : World),
    _rewrite_one url w = (Ok r, w')
    /\ net w' = net w
    /\ (forall m, r.1 = Some m -> exists p, urlparse url = Ok p)
    /\ ((forall p, urlparse url = Ok p ->
           endswith (U "instagram.com") (lower (default [] (hostname p)))
           = false) ->
        w' = w).
Proof.
  unfold _rewrite_one, try_except. rewrite bind_lift.
  destruct (urlparse url) as [p | e] eqn:Hp.
  2: { eexists _, _. split; [reflexivity |]. simpl.
       repeat split; auto. discriminate. }
  assert (Hparse : forall m : str, exists p0, Ok (A := ParseResult) p = Ok p0)
    by eauto.
  destruct (negb _ || bool_decide _);
    [eexists _, _; split; [reflexivity |]; simpl; auto |].
  destruct (endswith (U "instagram.com") _) eqn:Hig.
  - destruct (rewrite_instagram_world url p w Hp)
      as (r & w1 & Hrun & Hnet & _).
    rewrite Hrun.
    destruct r; (eexists _, _; split; [reflexivity |]; simpl;
                 split; [exact Hnet |]; split; [auto |]);
      intros Hno; specialize (Hno p eq_refl); congruence.
  - destruct (_pick_source _) as [src |];
      [| eexists _, _; split; [reflexivity |]; simpl; auto].
    destruct (truthy src);
      [| eexists _, _; split; [reflexivity |]; simpl; auto].
    destruct (DEFAULT_MIRRORS !! src) as [mir |];
      [| eexists _, _; split; [reflexivity |]; simpl; auto].
    destruct (truthy mir);
      eexists _, _; (split; [reflexivity |]); simpl; auto.
Qed.

Lemma rewrite_loop_cases (links : list str) :
  forall (seen : gset (list N)) (acc : list (str * str * option str))
         (w : World),
  exists new w',
    rewrite_loop links seen acc w = (Ok (acc ++ new), w')
    /\ net w' = net w
    /\ Forall (fun t => t.1.1 ∈ links /\ exists p, urlparse t.1.1 = Ok p) new
    /\ (Forall (fun link => forall p, urlparse link = Ok p ->
                  endswith (U "instagram.com")
                    (lower (default [] (hostname p))) = false) links ->
        w' = w).
Proof.
  induction links as [| link rest IH]; intros seen acc w; simpl.
  - exists [], w. rewrite app_nil_r. repeat split. constructor.
  - assert (Hlater : forall new : list (str * str * option str),
              Forall (fun t => t.1.1 ∈ rest
                               /\ exists p, urlparse t.1.1 = Ok p) new ->
              Forall (fun t => t.1.1 ∈ link :: rest
                               /\ exists p, urlparse t.1.1 = Ok p) new).
    { intros new Hnew. eapply Forall_impl; [exact Hnew |].
      intros t [Hin Hp].
      split; [apply list_elem_of_further; exact Hin | exact Hp]. }
    destruct (bool_decide (link ∈ seen)).
    + destruct (IH seen acc w) as (new & w' & Hrun & Hnet & Hnew & Hsame).
      exists new, w'. split; [exact Hrun |]. split; [exact Hnet |].
      split; [apply Hlater; exact Hnew |].
      intros Hall. apply Forall_cons in Hall as [_ Hall]. auto.
    + destruct (rewrite_one_cases link w)
        as ([mo c] & w1 & Hone & Hnet1 & Hparse & Hsame1).
      rewrite (bind_ok _ _ _ _ _ Hone). simpl in Hparse.
      assert (Hskip :
                exists new w',
                  rewrite_loop rest ({[link]} ∪ seen) acc w1
                  = (Ok (acc ++ new), w')
                  /\ net w' = net w
                  /\ Forall (fun t => t.1.1 ∈ link :: rest
                                      /\ exists p, urlparse t.1.1 = Ok p) new
                  /\ (Forall (fun link => forall p, urlparse link = Ok p ->
                                endswith (U "instagram.com")
                                  (lower (default [] (hostname p))) = false)
                        (link :: rest) ->
                      w' = w)).
      { destruct (IH ({[link]} ∪ seen) acc w1)
          as (new & w' & Hrun & Hnet & Hnew & Hsame).
        exists new, w'. split; [exact Hrun |]. split; [congruence |].
        split; [apply Hlater; exact Hnew |].
        intros Hall. apply Forall_cons in Hall as [Hhead Hall].
        rewrite (Hsame Hall). auto. }
      destruct mo as [m |]; [| exact Hskip].
      destruct (truthy m); [| exact Hskip].
      destruct (IH ({[link]} ∪ seen) (acc ++ [(link, m, c)]) w1)
        as (new & w' & Hrun & Hnet & Hnew & Hsame).
      exists ((link, m, c) :: new), w'.
      split; [rewrite Hrun, <- app_assoc; reflexivity |].
      split; [congruence |]. split.
      * constructor; [| apply Hlater; exact Hnew].
        simpl. split; [apply list_elem_of_here | eauto].
      * intros Hall. apply Forall_cons in Hall as [Hhead Hall].
        rewrite (Hsame Hall). auto.
Qed.

End HandlerFacts.

Section HandlerRuns.
Context `{PyLib} `{Pages}.

(** How a run of the handler goes. *)
Lemma on_message_cases (author_is_bot : bool) (author_mention : str)
    (message_content : option str) (w : World) :
  exists (r : result (option str)) (w' : World),
    on_message author_is_bot author_mention message_content w = (r, w')
    /\ net w' = net w
    /\ (forall e, r = Raise e -> e = TypeError)
    /\ (Forall (fun link => forall p, urlparse link = Ok p ->
                  endswith (U "instagram.com")
                    (lower (default [] (hostname p))) = false)
          (URL_RE_findall (default [] message_content)) ->
        w' = w /\ exists text, r = Ok text).
Proof.
  unfold on_message.
  assert (Hnone : exists r w',
            (Ok (None : option str), w) = (r, w')
            /\ net w' = net w
            /\ (forall e, r = Raise e -> e = TypeError)
            /\ (Forall (fun link => forall p, urlparse link = Ok p ->
                          endswith (U "instagram.com")
                            (lower (default [] (hostname p))) = false)
                  (URL_RE_findall (default [] message_content)) ->
                w' = w /\ exists text, r = Ok text)).
  { eexists _, _. split; [reflexivity |]. split; [reflexivity |].
    split; [discriminate | eauto]. }
  destruct author_is_bot; [exact Hnone |]. cbv zeta.
  destruct (URL_RE_findall (default [] message_content)) as [| l0 ls] eqn:Hfound;
    [exact Hnone |].
  clear Hnone. unfold rewrite_phase.
  destruct (rewrite_loop_cases (l0 :: ls) ∅ [] w)
    as (triples & w1 & Hrun & Hnet1 & Htriples & Hsame1).
  simpl app in Hrun. rewrite (bind_ok _ _ _ _ _ Hrun).
  destruct triples as [| t0 ts] eqn:Ht.
  { eexists _, _. split; [reflexivity |]. split; [exact Hnet1 |].
    split; [discriminate |]. intros Hall. split; [auto | eauto]. }
  rewrite <- Ht in *. clear Ht.
  assert (Hparse : Forall (fun t => exists p, urlparse t.1.1 = Ok p) triples).
  { eapply Forall_impl; [exact Htriples |]. intros t [_ Hp]. exact Hp. }
  destruct (build_blocks_cases triples w1 Hparse)
    as (rb & w2 & Hblocks & Hnet2 & Hexn & _ & Hplain).
  destruct rb as [blocks | e].
  - rewrite (bind_ok _ _ _ _ _ Hblocks).
    rewrite bind_lift, format_repost_lines.
    eexists _, _. split; [reflexivity |]. split; [congruence |].
    split; [discriminate |]. intros Hall.
    assert (Hnoig : Forall (fun t => forall p, urlparse t.1.1 = Ok p ->
                              endswith (U "instagram.com")
                                (lower (default [] (hostname p))) = false)
                      triples).
    { apply Forall_forall. intros t Hin p Hp.
      destruct (proj1 (Forall_forall _ _) Htriples t Hin) as [Hlink _].
      exact (proj1 (Forall_forall _ _) Hall _ Hlink p Hp). }
    destruct (Hplain Hnoig) as (-> & _). rewrite (Hsame1 Hall).
    split; [reflexivity | eauto].
  - exists (Raise e), w2.
    split; [unfold mbind, M_bind; rewrite Hblocks; reflexivity |].
    split; [congruence |].
    split; [intros e' [= <-]; exact (Hexn e eq_refl) |].
    intros Hall.
    assert (Hnoig : Forall (fun t => forall p, urlparse t.1.1 = Ok p ->
                              endswith (U "instagram.com")
                                (lower (default [] (hostname p))) = false)
                      triples).
    { apply Forall_forall. intros t Hin p Hp.
      destruct (proj1 (Forall_forall _ _) Htriples t Hin) as [Hlink _].
      exact (proj1 (Forall_forall _ _) Hall _ Hlink p Hp). }
    destruct (Hplain Hnoig) as (_ & blocks & Hfalse & _). discriminate.
Qed.

End HandlerRuns.


(** X25: a message none of whose links has a host that ends in
    [instagram.com] is handled without any request: the handler returns
    and leaves the world, session included, as it was. *)
Theorem on_message_without_instagram_is_offline `{PyLib} `{Pages}
    (author_is_bot : bool) (author_mention : str)
    (message_content : option str) (w : World) :
  (forall link p,
     link ∈ URL_RE_findall (default [] message_content) ->
     urlparse link = Ok p ->
     endswith (U "instagram.com") (lower (default [] (hostname p))) = false) ->
  exists text : option str,
    on_message author_is_bot author_mention message_content w = (Ok text, w).
Proof.
  intros Hall.
  destruct (on_message_cases author_is_bot author_mention message_content w)
    as (r & w' & Hrun & _ & _ & Hplain).
  destruct Hplain as (-> & text & ->).
  - apply Forall_forall. intros link Hin p Hp. exact (Hall link p Hin Hp).
  - eauto.
Qed.

Lemma on_message_without_instagram_is_offline_witness :
  exists text : option str,
    @on_message ascii_lib plain_pages false (U "<@7>")
      (Some (U "look https://x.com/a/status/1 and http://[oops"))
      redirects_to_story
    = (Ok text, redirects_to_story).
Proof.
  apply (@on_message_without_instagram_is_offline ascii_lib plain_pages).
  intros link p Hin.
  assert (Hlinks : URL_RE_findall
                     (U "look https://x.com/a/status/1 and http://[oops")
                   = [U "https://x.com/a/status/1"; U "http://[oops"])
    by (vm_compute; reflexivity).
  simpl default in Hin. rewrite Hlinks in Hin.
  apply elem_of_cons in Hin as [-> | Hin].
  - intros Hp. vm_compute in Hp. injection Hp as <-. vm_compute. reflexivity.
  - apply list_elem_of_singleton in Hin. subst link.
    intros Hp. vm_compute in Hp. discriminate.
Defined.




(** ** Titles in the usual form *)

Lemma not_space_is_dot (x : N) : isspace_c x = false -> re_dot x = true.
Proof.
  intros Hx. unfold re_dot. destruct (N.eqb_spec x 10) as [-> | _];
    [vm_compute in Hx; discriminate | reflexivity].
Qed.

Lemma quote_not_space (q : N) :
  quote_open q = true \/ quote_close q = true -> isspace_c q = false.
Proof.
  unfold quote_open, quote_close.
  rewrite !orb_true_iff, !N.eqb_eq.
  intros [[-> | ->] | [-> | ->]]; vm_compute; reflexivity.
Qed.

Section TitleMatch.
Context {R : Type}.

(** The lazy loop passes over characters on which the rest of the pattern
    cannot start. *)
Lemma lazy_star_passes (k : str -> str -> option R) (a rest : str) :
  (forall g x s, isspace_c x = false -> k g (x :: s) = None) ->
  forallb (fun x => negb (isspace_c x)) a = true ->
  forall acc,
    lazy_star re_dot acc k (a ++ rest) = lazy_star re_dot (rev a ++ acc) k rest.
Proof.
  intros Hk. induction a as [| x a IH]; intros Ha acc; [reflexivity |].
  simpl in Ha. apply andb_prop in Ha as [Hx Ha].
  apply negb_true_iff in Hx.
  simpl app. cbn [lazy_star]. rewrite (Hk _ _ _ Hx).
  rewrite (not_space_is_dot _ Hx), (IH Ha).
  simpl rev. rewrite <- app_assoc. reflexivity.
Qed.

(** White space, then the end: what is left after the closing quote. *)
Lemma greedy_star_end_none (r : R) (l : str) (q : N) :
  isspace_c q = false ->
  greedy_star isspace_c (re_end r) (l ++ [q]) = None.
Proof.
  intros Hq.
  assert (Hend : forall l, re_end r (l ++ [q]) = None).
  { intros [| y [| z l']]; simpl.
    - destruct (N.eqb_spec q 10) as [-> | Hne];
        [vm_compute in Hq; discriminate |].
      destruct q as [| p]; [reflexivity |].
      repeat (destruct p as [p | p |]; try reflexivity).
      congruence.
    - destruct y as [| p]; [reflexivity |].
      repeat (destruct p as [p | p |]; try reflexivity).
    - destruct y as [| p]; [reflexivity |].
      repeat (destruct p as [p | p |]; try reflexivity). }
  induction l as [| y l IH]; simpl.
  - rewrite Hq. apply (Hend []).
  - destruct (isspace_c y); [rewrite IH |]; apply (Hend (y :: l)).
Qed.

(** The second group runs up to the closing quote that ends the text. *)
Lemma lazy_star_to_closing_quote (f : str -> R) (c : str) (q : N) :
  quote_close q = true ->
  forallb re_dot c = true ->
  forall acc,
    lazy_star re_dot acc
      (fun g2 => re_opt quote_close
                   (greedy_star isspace_c (re_end (f g2))))
      (c ++ [q])
    = Some (f (rev acc ++ c)).
Proof.
  intros Hq. pose proof (quote_not_space q (or_intror Hq)) as Hsp.
  induction c as [| y c IH]; intros Hc acc.
  - simpl. rewrite Hq. simpl. rewrite app_nil_r. reflexivity.
  - simpl in Hc. apply andb_prop in Hc as [Hy Hc].
    simpl app. cbn [lazy_star].
    assert (Hnone : re_opt quote_close
                      (greedy_star isspace_c (re_end (f (rev acc))))
                      (y :: c ++ [q]) = None).
    { pose proof (greedy_star_end_none (f (rev acc)) (y :: c) q Hsp)
        as Hwhole.
      unfold re_opt. destruct (quote_close y).
      - rewrite (greedy_star_end_none _ c q Hsp). exact Hwhole.
      - exact Hwhole. }
    rewrite Hnone, Hy, (IH Hc). simpl rev. rewrite <- app_assoc.
    reflexivity.
Qed.

End TitleMatch.

Section TitleSteps.
Context {R : Type}.

Lemma lazy_star_here f (k : str -> str -> option R) (acc s : str) (r : R) :
  k (rev acc) s = Some r -> lazy_star f acc k s = Some r.
Proof. intros Hk. destruct s; simpl; rewrite Hk; reflexivity. Qed.

Lemma greedy_star_stop f (k : str -> option R) (y : N) (s : str) :
  f y = false -> greedy_star f k (y :: s) = k (y :: s).
Proof. intros Hy. simpl. rewrite Hy. reflexivity. Qed.

Lemma greedy_star_take f (k : str -> option R) (x : N) (s : str) (r : R) :
  f x = true -> greedy_star f k s = Some r ->
  greedy_star f k (x :: s) = Some r.
Proof. intros Hx Hs. simpl. rewrite Hx, Hs. reflexivity. Qed.

Lemma re_opt_take f (k : str -> option R) (x : N) (s : str) (r : R) :
  f x = true -> k s = Some r -> re_opt f k (x :: s) = Some r.
Proof. intros Hx Hs. simpl. rewrite Hx, Hs. reflexivity. Qed.

End TitleSteps.

Lemma match_ig_title_standard (a c : str) (q1 q2 : N) :
  a <> [] ->
  forallb (fun x => negb (isspace_c x)) a = true ->
  forallb re_dot c = true ->
  quote_open q1 = true -> quote_close q2 = true ->
  match_ig_title (a ++ U " on Instagram: " ++ [q1] ++ c ++ [q2])
  = Some (a, c).
Proof.
  intros Ha Hns Hc Hq1 Hq2.
  destruct a as [| x a]; [congruence |].
  simpl in Hns. apply andb_prop in Hns as [Hx Hns].
  apply negb_true_iff in Hx.
  pose proof (quote_not_space q1 (or_introl Hq1)) as Hsp1.
  assert (Hrest : U " on Instagram: " ++ [q1] ++ c ++ [q2]
                  = 32 :: (U "on Instagram" ++ 58 :: 32 :: q1 :: c ++ [q2]))
    by reflexivity.
  rewrite Hrest, <- app_comm_cons.
  unfold match_ig_title, lazy_plus. cbv beta iota.
  rewrite (not_space_is_dot _ Hx).
  rewrite lazy_star_passes; [| | exact Hns].
  2: { intros g y s Hy. simpl. rewrite Hy. reflexivity. }
  apply lazy_star_here.
  assert (Hg1 : rev (rev a ++ [x]) = x :: a).
  { rewrite rev_app_distr, rev_involutive. reflexivity. }
  rewrite Hg1.
  unfold greedy_plus. change (isspace_c 32) with true. cbv iota.
  assert (Hlit : U "on Instagram" = 111 :: U "n Instagram") by reflexivity.
  rewrite Hlit at 2. rewrite <- app_comm_cons.
  rewrite greedy_star_stop by (vm_compute; reflexivity).
  rewrite app_comm_cons, <- Hlit, re_lit_app.
  apply re_opt_take; [vm_compute; reflexivity |].
  apply greedy_star_take; [vm_compute; reflexivity |].
  rewrite greedy_star_stop by exact Hsp1.
  unfold re_one. rewrite Hq1.
  exact (lazy_star_to_closing_quote (fun g2 => (x :: a, g2)) c q2 Hq2 Hc []).
Qed.

Lemma strip_tidy (s : str) (x q : N) :
  isspace_c x = false -> isspace_c q = false ->
  strip (x :: s ++ [q]) = x :: s ++ [q].
Proof.
  intros Hx Hq. unfold strip. simpl. rewrite Hx.
  rewrite app_comm_cons. unfold rstrip_ws. rewrite rev_app_distr. simpl.
  rewrite Hq. simpl. rewrite rev_app_distr, rev_involutive. reflexivity.
Qed.

Lemma sub_ws_no_space (b : bool) (s : str) :
  forallb (fun x => negb (isspace_c x)) s = true -> sub_ws b s = s.
Proof.
  revert b. induction s as [| y s IH]; intros b Hs; [reflexivity |].
  simpl in Hs. apply andb_prop in Hs as [Hy Hs].
  apply negb_true_iff in Hy. simpl. rewrite Hy, (IH false Hs). reflexivity.
Qed.

Lemma compact_ws_no_space (s : str) :
  forallb (fun x => negb (isspace_c x)) s = true ->
  _compact_ws (Some s) = s.
Proof.
  intros Hs. unfold _compact_ws. simpl default.
  rewrite (sub_ws_no_space false s Hs).
  destruct s as [| x s]; [reflexivity |].
  pose proof Hs as Hs'. simpl in Hs'. apply andb_prop in Hs' as [Hx Hrest].
  apply negb_true_iff in Hx.
  destruct s as [| y s] using rev_ind.
  - unfold strip. simpl. rewrite Hx. unfold rstrip_ws. simpl. rewrite Hx.
    reflexivity.
  - rewrite forallb_app in Hrest. apply andb_prop in Hrest as [_ Hy].
    simpl in Hy. rewrite andb_true_r in Hy. apply negb_true_iff in Hy.
    apply strip_tidy; assumption.
Qed.

(** X27: a title in the usual form (an author without white space, the
    words [on Instagram:], and between quotes, straight or curly, a
    caption without line break) with no description beside it gives that
    author and the normalised caption, whatever quotes the caption
    itself contains. *)
Theorem parse_ig_title_standard (a c : str) (q1 q2 : N) :
  a <> [] ->
  forallb (fun x => negb (isspace_c x)) a = true ->
  forallb re_dot c = true ->
  quote_open q1 = true -> quote_close q2 = true ->
  _parse_ig_from_og
    (Some (a ++ U " on Instagram: " ++ [q1] ++ c ++ [q2])) None
  = (Some a, Some (_compact_ws (Some c))).
Proof.
  intros Ha Hns Hc Hq1 Hq2.
  pose proof (match_ig_title_standard a c q1 q2 Ha Hns Hc Hq1 Hq2) as Hm.
  pose proof (compact_ws_no_space a Hns) as Hauthor.
  unfold _parse_ig_from_og.
  destruct a as [| x a]; [congruence |].
  simpl in Hns. apply andb_prop in Hns as [Hx _].
  apply negb_true_iff in Hx.
  pose proof (quote_not_space q2 (or_intror Hq2)) as Hsp2.
  assert (Hstrip : strip ((x :: a) ++ U " on Instagram: " ++ [q1] ++ c ++ [q2])
                   = (x :: a) ++ U " on Instagram: " ++ [q1] ++ c ++ [q2]).
  { rewrite !app_assoc, <- app_comm_cons. rewrite <- !app_assoc.
    rewrite !app_assoc. apply strip_tidy; assumption. }
  rewrite Hstrip, Hm, Hauthor. reflexivity.
Qed.

Lemma parse_ig_title_standard_witness :
  _parse_ig_from_og
    (Some (U "nasa" ++ U " on Instagram: " ++ [8220]
           ++ (U "The " ++ [34] ++ U "Pillars" ++ [34] ++ U "  seen by Webb")
           ++ [8221])) None
  = (Some (U "nasa"),
     Some (_compact_ws
             (Some (U "The " ++ [34] ++ U "Pillars" ++ [34]
                    ++ U "  seen by Webb")))).
Proof.
  apply parse_ig_title_standard; try (vm_compute; reflexivity).
  vm_compute. discriminate.
Defined.

(** ** The shared session *)

(** X28: the life of the shared session.  [_get_session] returns an open
    session, stores it, sends nothing, and gives the same session again
    as long as it is open.  [_cleanup_session] leaves no open session,
    sends nothing, and does nothing when run again; after it,
    [_get_session] makes a new open session with a total timeout of 8
    rather than hand out the closed one. *)
Theorem session_lifecycle (w : World) :
  (exists s w1,
     _get_session w = (Ok s, w1)
     /\ closed s = false /\ session w1 = Some s
     /\ sent w1 = sent w /\ net w1 = net w
     /\ _get_session w1 = (Ok s, w1))
  /\ (exists w2,
        _cleanup_session w = (Ok tt, w2)
        /\ (forall s, session w2 = Some s -> closed s = true)
        /\ sent w2 = sent w /\ net w2 = net w
        /\ _cleanup_session w2 = (Ok tt, w2)
        /\ exists s w3,
             _get_session w2 = (Ok s, w3)
             /\ closed s = false /\ timeout_total s = 8%Z
             /\ session w3 = Some s).
Proof.
  unfold _get_session, _cleanup_session.
  destruct w as [[[[] t] |] snt nt]; simpl; split;
    eexists; try eexists; simpl; repeat split;
    try (intros s [= <-]; reflexivity); try discriminate.
  all: simpl; eexists _, _; simpl; repeat split.
Qed.

(** ** Messages that are left alone *)

Section LeftAlone.
Context `{PyLib}.

Lemma rewrite_one_nothing (url : str) (w : World) :
  match urlparse url with
  | Raise _ => True
  | Ok p =>
      lower (default [] (hostname p)) = []
      \/ lower (default [] (hostname p)) ∈ SKIP_HOSTS
      \/ (endswith (U "instagram.com") (lower (default [] (hostname p)))
          = false
          /\ _pick_source (lower (default [] (hostname p))) = None)
  end ->
  _rewrite_one url w = (Ok (None, None), w).
Proof.
  unfold _rewrite_one, try_except. rewrite bind_lift.
  destruct (urlparse url) as [p | e]; [| reflexivity].
  intros [Hempty | [Hskip | [Hig Hsrc]]].
  - rewrite Hempty. reflexivity.
  - rewrite (bool_decide_eq_true_2 _ Hskip), orb_true_r. reflexivity.
  - destruct (negb _ || bool_decide _); [reflexivity |].
    rewrite Hig, Hsrc. reflexivity.
Qed.

Lemma rewrite_loop_nothing (links : list str) :
  Forall (fun link => forall w, _rewrite_one link w = (Ok (None, None), w))
    links ->
  forall (seen : gset (list N)) (acc : list (str * str * option str))
         (w : World),
    rewrite_loop links seen acc w = (Ok acc, w).
Proof.
  induction links as [| link rest IH]; intros Hall seen acc w; simpl;
    [reflexivity |].
  apply Forall_cons in Hall as [Hlink Hall].
  destruct (bool_decide (link ∈ seen)); [apply IH; exact Hall |].
  rewrite (bind_ok _ _ _ _ _ (Hlink w)). apply IH. exact Hall.
Qed.

End LeftAlone.

(** X29: a message is left alone, and nothing is sent, when none of its
    links can be rewritten: each link does not parse, has no host, has a
    host in [SKIP_HOSTS] (a mirror link is not reposted again), or has a
    host that does not end in [instagram.com] and classifies to no
    source key.  A message without links is such a message. *)
Theorem on_message_leaves_unrewritable_alone `{PyLib} `{Pages}
    (author_is_bot : bool) (author_mention : str)
    (message_content : option str) (w : World) :
  (forall link,
     link ∈ URL_RE_findall (default [] message_content) ->
     match urlparse link with
     | Raise _ => True
     | Ok p =>
         lower (default [] (hostname p)) = []
         \/ lower (default [] (hostname p)) ∈ SKIP_HOSTS
         \/ (endswith (U "instagram.com") (lower (default [] (hostname p)))
             = false
             /\ _pick_source (lower (default [] (hostname p))) = None)
     end) ->
  on_message author_is_bot author_mention message_content w = (Ok None, w).
Proof.
  intros Hall. unfold on_message.
  destruct author_is_bot; [reflexivity |]. cbv zeta.
  destruct (URL_RE_findall (default [] message_content)) as [| l0 ls];
    [reflexivity |].
  unfold rewrite_phase.
  assert (Hnone : Forall (fun link => forall w0,
                            _rewrite_one link w0 = (Ok (None, None), w0))
                    (l0 :: ls)).
  { apply Forall_forall. intros link Hin w0.
    apply rewrite_one_nothing, Hall, Hin. }
  rewrite (bind_ok _ _ _ _ _ (rewrite_loop_nothing (l0 :: ls) Hnone ∅ [] w)).
  reflexivity.
Qed.

Lemma on_message_leaves_unrewritable_alone_witness :
  @on_message ascii_lib plain_pages false (U "<@7>")
    (Some (U "fixed: https://fixupx.com/a/status/1, docs at "
           ++ U "https://example.org/x and http://[bad"))
    redirects_to_story
  = (Ok None, redirects_to_story).
Proof.
  apply (@on_message_leaves_unrewritable_alone ascii_lib plain_pages).
  intros link Hin.
  assert (Hlinks :
            URL_RE_findall
              (U "fixed: https://fixupx.com/a/status/1, docs at "
               ++ U "https://example.org/x and http://[bad")
            = [U "https://fixupx.com/a/status/1"; U "https://example.org/x";
               U "http://[bad"])
    by (vm_compute; reflexivity).
  assert (Hin' : link ∈ [U "https://fixupx.com/a/status/1";
                         U "https://example.org/x"; U "http://[bad"])
    by (rewrite <- Hlinks; exact Hin).
  clear Hin Hlinks. rename Hin' into Hin.
  apply elem_of_cons in Hin as [-> | Hin].
  { assert (Hp : @urlparse ascii_lib (U "https://fixupx.com/a/status/1")
                 = Ok {| scheme := U "https"; netloc := U "fixupx.com";
                         path := U "/a/status/1"; params := [];
                         query := []; fragment := [] |})
      by (vm_compute; reflexivity).
    rewrite Hp. right. left. apply skip_hosts_dec. vm_compute. reflexivity. }
  apply elem_of_cons in Hin as [-> | Hin].
  { assert (Hp : @urlparse ascii_lib (U "https://example.org/x")
                 = Ok {| scheme := U "https"; netloc := U "example.org";
                         path := U "/x"; params := [];
                         query := []; fragment := [] |})
      by (vm_compute; reflexivity).
    rewrite Hp. right. right. split; vm_compute; reflexivity. }
  apply list_elem_of_singleton in Hin. subst link.
  assert (Hp : @urlparse ascii_lib (U "http://[bad") = Raise ValueError)
    by (vm_compute; reflexivity).
  rewrite Hp. exact I.
Defined.
